(** * NTFS capture (ntfs-capture.c): a shallow embedding and its properties

    The development follows the source file top to bottom:

    - [Sha1]: the digest primitive ([sha1_buffer], [hashes_cmp]);
    - the session memory (allocator, heaps, descriptor table, lookup
      table, path buffer) and the monad [M] that threads it;
    - the security-descriptor index ([lookup_sd], [insert_sd_node],
      [sd_set_add_sd]);
    - stream capture ([ntfs_attr_sha1sum], [capture_ntfs_streams]);
    - the tree builder ([filldir], [__build_dentry_tree_ntfs],
      [build_dentry_tree_ntfs]) and the public entry point.

    The model is that of the library built with NTFS-3g support
    ([WITH_NTFS_3G]), the configuration in which this code exists.  The
    diagnostics printed by [ERROR] and [ERROR_WITH_ERRNO] are left out.
    The volume is given by what the NTFS-3g calls answer: an inode
    carries its attribute records and the entries its enumeration
    yields, so that a volume is a finite tree. *)

From stdpp Require Import base numbers list option.

Local Open Scope Z_scope.

(** ** Digests *)

(** The digest routines live in sha1.c and sha1.h, which are not part of
    the sources at hand.  They are given here as the names say: the
    SHA-1 function of FIPS 180 over byte strings, with its 20-byte
    digest. *)
Module Sha1.

(** 32-bit words are kept in [Z], reduced modulo [2^32] after every
    operation that can overflow. *)
Definition w32 (x : Z) : Z := x mod 4294967296.

Definition rotl (n x : Z) : Z :=
  w32 (Z.lor (Z.shiftl x n) (Z.shiftr x (32 - n))).

Definition SHA1_HASH_SIZE : nat := 20.

(** Message padding: a [0x80] byte, zeros up to 56 modulo 64, then the
    bit length as a 64-bit big-endian integer. *)
Definition be_bytes (n : nat) (x : Z) : list Z :=
  map (fun i => Z.land (Z.shiftr x (8 * Z.of_nat i)) 255) (rev (seq 0 n)).

Definition pad (msg : list Z) : list Z :=
  let len := Z.of_nat (length msg) in
  let zeros := Z.to_nat ((55 - len) mod 64) in
  msg ++ 128 :: replicate zeros 0 ++ be_bytes 8 (8 * len).

Fixpoint be_words (bs : list Z) : list Z :=
  match bs with
  | b0 :: b1 :: b2 :: b3 :: rest =>
      (((b0 * 256 + b1) * 256 + b2) * 256 + b3) :: be_words rest
  | _ => []
  end.

Definition f_t (t b c d : Z) : Z :=
  if t <? 20 then Z.lor (Z.land b c) (Z.land (Z.lxor b 4294967295) d)
  else if t <? 40 then Z.lxor (Z.lxor b c) d
  else if t <? 60 then Z.lor (Z.lor (Z.land b c) (Z.land b d)) (Z.land c d)
  else Z.lxor (Z.lxor b c) d.

Definition k_t (t : Z) : Z :=
  if t <? 20 then 0x5A827999
  else if t <? 40 then 0x6ED9EBA1
  else if t <? 60 then 0x8F1BBCDC
  else 0xCA62C1D6.

Definition word_at (ws : list Z) (i : nat) : Z := default 0 (ws !! i).

(** The eighty rounds over one block.  [ws] is the sliding window of the
    message schedule: its head is [W t], its last element [W (t+15)]. *)
Fixpoint rounds (n : nat) (t : Z) (ws : list Z) (a b c d e : Z)
  : Z * Z * Z * Z * Z :=
  match n with
  | O => (a, b, c, d, e)
  | S n' =>
      let wt := word_at ws 0 in
      let tmp := w32 (rotl 5 a + f_t t b c d + e + k_t t + wt) in
      let wnext :=
        rotl 1 (Z.lxor (Z.lxor (word_at ws 13) (word_at ws 8))
                       (Z.lxor (word_at ws 2) wt)) in
      rounds n' (t + 1) (drop 1 ws ++ [wnext]) tmp a (rotl 30 b) c d
  end.

Definition sha1_state : Type := Z * Z * Z * Z * Z.

Definition sha1_block (st : sha1_state) (block : list Z) : sha1_state :=
  let '(h0, h1, h2, h3, h4) := st in
  let '(a, b, c, d, e) := rounds 80 0 (be_words block) h0 h1 h2 h3 h4 in
  (w32 (h0 + a), w32 (h1 + b), w32 (h2 + c), w32 (h3 + d), w32 (h4 + e)).

Fixpoint sha1_blocks (n : nat) (st : sha1_state) (bs : list Z) : sha1_state :=
  match n with
  | O => st
  | S n' => sha1_blocks n' (sha1_block st (take 64 bs)) (drop 64 bs)
  end.

Definition sha1_iv : sha1_state :=
  (0x67452301, 0xEFCDAB89, 0x98BADCFE, 0x10325476, 0xC3D2E1F0).

(** Modelled from the spec: [sha1_buffer(buffer, len, hash)] (sha1.c),
    the fixed-length cryptographic digest of a whole buffer. *)
Definition sha1_buffer (msg : list Z) : list Z :=
  let p := pad msg in
  let '(h0, h1, h2, h3, h4) :=
    sha1_blocks (Nat.div (length p) 64) sha1_iv p in
  be_bytes 4 h0 ++ be_bytes 4 h1 ++ be_bytes 4 h2 ++ be_bytes 4 h3
    ++ be_bytes 4 h4.

(** Modelled from the spec: [sha1_init], [sha1_update], [sha1_final]
    (sha1.c), the digest fed incrementally with chunks of any size.  The
    context stands for the bytes fed so far, and [sha1_final] digests
    them. *)
Definition SHA_CTX : Type := list Z.
Definition sha1_init : SHA_CTX := [].
Definition sha1_update (ctx : SHA_CTX) (buf : list Z) : SHA_CTX := ctx ++ buf.
Definition sha1_final (ctx : SHA_CTX) : list Z := sha1_buffer ctx.

(** Modelled from the spec: [hashes_cmp] (sha1.h), the comparison of two
    digests as opaque big-endian byte strings: the first differing byte
    decides. *)
Fixpoint hashes_cmp (h1 h2 : list Z) : Z :=
  match h1, h2 with
  | x :: h1', y :: h2' => if x =? y then hashes_cmp h1' h2' else x - y
  | _, _ => 0
  end.

(** Modelled from the spec: [copy_hash] (sha1.h), a copy of the digest
    bytes. *)
Definition copy_hash (src : list Z) : list Z := src.

End Sha1.

Import Sha1.

(** ** Session memory *)

Definition ptr : Type := nat.

(** [struct sd_node]: binary tree node of security descriptors, indexed
    by the hash field. *)
Record sd_node := mk_sd_node {
  node_security_id : Z;
  node_hash : list Z;
  node_left : option ptr;
  node_right : option ptr
}.

(** Reduction to the 32 bits of an unsigned field. *)
Definition u32 (z : Z) : Z := z mod 4294967296.

(** [struct wim_security_data].  The structure is declared in a header
    that is not part of the sources at hand.  Its two counters are
    unsigned 32-bit fields ([u32 total_length], [u32 num_entries] in
    wimlib's headers): they are kept in [Z] and reduced modulo [2^32]
    where the code adds to them.  The two arrays carry
    their allocated capacity: a slot that [REALLOC] added and nobody
    wrote yet is [None]. *)
Record wim_security_data := mk_wim_security_data {
  total_length : Z;
  num_entries : Z;
  sizes : list (option Z);
  descriptors : list (option ptr)
}.

(** [struct ntfs_location]: how to read a stream again later. *)
Record ntfs_location := mk_ntfs_location {
  loc_ntfs_vol_p : option Z;
  path_utf8 : option (list Z);
  stream_name_utf16 : option (list Z);
  stream_name_utf16_num_chars : Z
}.

Inductive resource_location :=
  | RESOURCE_NONEXISTENT
  | RESOURCE_IN_NTFS_VOLUME.

(** [struct lookup_table_entry], the fields this file touches. *)
Record lookup_table_entry := mk_lte {
  lte_hash : list Z;
  lte_refcnt : Z;
  lte_ntfs_loc : option ptr;
  lte_resource_location : resource_location;
  lte_original_size : Z;
  lte_size : Z
}.

(** Everything the capture session shares by pointer.  Each heap is a
    list of cells addressed by index; a released cell is [None].  The
    [oracle] lists the outcome of the allocation requests still to come
    ([false]: the request fails); when it is exhausted requests succeed. *)
Record state := mk_state {
  oracle : list bool;
  sd_nodes : list (option sd_node);
  sd_blobs : list (option (list Z));
  set_sd : wim_security_data;
  set_root : option ptr;
  ltes : list (option lookup_table_entry);
  locs : list (option ntfs_location);
  lookup_table : list ptr;
  path : list Z
}.

Definition with_oracle (o : list bool) (s : state) : state :=
  mk_state o (sd_nodes s) (sd_blobs s) (set_sd s) (set_root s) (ltes s)
           (locs s) (lookup_table s) (path s).
Definition with_sd_nodes (h : list (option sd_node)) (s : state) : state :=
  mk_state (oracle s) h (sd_blobs s) (set_sd s) (set_root s) (ltes s)
           (locs s) (lookup_table s) (path s).
Definition with_sd_blobs (h : list (option (list Z))) (s : state) : state :=
  mk_state (oracle s) (sd_nodes s) h (set_sd s) (set_root s) (ltes s)
           (locs s) (lookup_table s) (path s).
Definition with_set_sd (sd : wim_security_data) (s : state) : state :=
  mk_state (oracle s) (sd_nodes s) (sd_blobs s) sd (set_root s) (ltes s)
           (locs s) (lookup_table s) (path s).
Definition with_set_root (r : option ptr) (s : state) : state :=
  mk_state (oracle s) (sd_nodes s) (sd_blobs s) (set_sd s) r (ltes s)
           (locs s) (lookup_table s) (path s).
Definition with_ltes (h : list (option lookup_table_entry)) (s : state)
  : state :=
  mk_state (oracle s) (sd_nodes s) (sd_blobs s) (set_sd s) (set_root s) h
           (locs s) (lookup_table s) (path s).
Definition with_locs (h : list (option ntfs_location)) (s : state) : state :=
  mk_state (oracle s) (sd_nodes s) (sd_blobs s) (set_sd s) (set_root s)
           (ltes s) h (lookup_table s) (path s).
Definition with_lookup_table (t : list ptr) (s : state) : state :=
  mk_state (oracle s) (sd_nodes s) (sd_blobs s) (set_sd s) (set_root s)
           (ltes s) (locs s) t (path s).
Definition with_path (p : list Z) (s : state) : state :=
  mk_state (oracle s) (sd_nodes s) (sd_blobs s) (set_sd s) (set_root s)
           (ltes s) (locs s) (lookup_table s) p.

(** What stops a run short of a [return]: behaviour the C standard leaves
    undefined, a failed assertion, or (for the walks over linked nodes)
    an exhausted step budget. *)
Inductive fault :=
  | OutOfFuel
  | AssertFailed
  | NullDeref
  | DanglingDeref
  | BadFree
  | BufferOverrun.

Inductive result (A : Type) :=
  | Ret (a : A) (s : state)
  | Fault (f : fault) (s : state).
Arguments Ret {A} a s.
Arguments Fault {A} f s.

Definition M (A : Type) : Type := state -> result A.

Definition ret {A} (a : A) : M A := fun s => Ret a s.
Definition bind {A B} (c : M A) (k : A -> M B) : M B :=
  fun s => match c s with
           | Ret a s' => k a s'
           | Fault f s' => Fault f s'
           end.
Definition raise {A} (f : fault) : M A := fun s => Fault f s.
Definition get : M state := fun s => Ret s s.
Definition modify (f : state -> state) : M unit := fun s => Ret tt (f s).

Notation "x <- c ;; k" := (bind c (fun x => k))
  (at level 100, c at next level, right associativity).
Notation "c ;;; k" := (bind c (fun _ => k))
  (at level 100, right associativity).

(** *** The allocator *)

(** The next allocation decision. *)
Definition alloc_ok : M bool :=
  fun s => match oracle s with
           | [] => Ret true s
           | b :: o => Ret b (with_oracle o s)
           end.

Section Heap.
Context {A : Type}.
Variable cells : state -> list (option A).
Variable with_cells : list (option A) -> state -> state.

(** [MALLOC]/[CALLOC]: a new cell holding [init], or [NULL]. *)
Definition heap_alloc (init : A) : M (option ptr) :=
  ok <- alloc_ok ;;
  if ok : bool then
    s <- get ;;
    modify (with_cells (cells s ++ [Some init])) ;;;
    ret (Some (length (cells s)))
  else ret None.

Definition heap_cell (h : list (option A)) (p : ptr) : option A :=
  mjoin (h !! p).

Definition heap_load (p : ptr) : M A :=
  s <- get ;;
  match heap_cell (cells s) p with
  | Some v => ret v
  | None => raise DanglingDeref
  end.

Definition heap_store (p : ptr) (v : A) : M unit :=
  heap_load p ;;;
  s <- get ;;
  modify (with_cells (<[p := Some v]> (cells s))).

(** [FREE(p)]: releasing [NULL] does nothing; releasing a cell that is
    not live is undefined. *)
Definition heap_free (p : option ptr) : M unit :=
  match p with
  | None => ret tt
  | Some p =>
      s <- get ;;
      match heap_cell (cells s) p with
      | Some _ => modify (with_cells (<[p := None]> (cells s)))
      | None => raise BadFree
      end
  end.
End Heap.

(** *** Constants and collaborators declared outside this file *)

(** The values of the library's error codes and flags, the element size
    of the size array, whether [wimlib_assert] is compiled in, and the
    text conversion routine: all come from headers and units that are not
    part of the sources at hand, so the development is parametric in
    them.  The only facts relied upon are that error codes differ from
    [0], the success value. *)
Class wimlib_h := {
  WIMLIB_ERR_INVALID_PARAM : Z;
  WIMLIB_ERR_NOMEM : Z;
  WIMLIB_ERR_NTFS_3G : Z;
  WIMLIB_ADD_IMAGE_FLAG_DEREFERENCE : Z;
  sizeof_size_entry : Z;
  ENABLE_ASSERTIONS : bool;
  utf16_to_utf8 : list Z -> Z -> option (list Z);
  invalid_param_nonzero : WIMLIB_ERR_INVALID_PARAM <> 0;
  nomem_nonzero : WIMLIB_ERR_NOMEM <> 0;
  ntfs_3g_nonzero : WIMLIB_ERR_NTFS_3G <> 0
}.

Definition wimlib_assert `{wimlib_h} (cond : bool) : M unit :=
  if ENABLE_ASSERTIONS then
    (if cond then ret tt else raise AssertFailed)
  else ret tt.

(** ** The security-descriptor index *)

Section SdSet.
Context `{wimlib_h}.

Definition load_node := heap_load sd_nodes.
Definition store_node := heap_store sd_nodes with_sd_nodes.

(** Frees a security descriptor index tree.  [root->right] is read
    after the left subtree was freed. *)
Fixpoint free_sd_set (fuel : nat) (root : option ptr) : M unit :=
  match fuel with
  | O => raise OutOfFuel
  | S fuel' =>
      match root with
      | None => ret tt
      | Some p =>
          n <- load_node p ;;
          free_sd_set fuel' (node_left n) ;;;
          n <- load_node p ;;
          free_sd_set fuel' (node_right n) ;;;
          heap_free sd_nodes with_sd_nodes (Some p)
      end
  end.

(** Inserts a new node into the security descriptor index tree. *)
Fixpoint insert_sd_node (fuel : nat) (new root : ptr) : M unit :=
  match fuel with
  | O => raise OutOfFuel
  | S fuel' =>
      n_new <- load_node new ;;
      n_root <- load_node root ;;
      let cmp := hashes_cmp (node_hash n_new) (node_hash n_root) in
      if cmp <? 0 then
        match node_left n_root with
        | Some l => insert_sd_node fuel' new l
        | None =>
            store_node root
              (mk_sd_node (node_security_id n_root) (node_hash n_root)
                          (Some new) (node_right n_root))
        end
      else if 0 <? cmp then
        match node_right n_root with
        | Some r => insert_sd_node fuel' new r
        | None =>
            store_node root
              (mk_sd_node (node_security_id n_root) (node_hash n_root)
                          (node_left n_root) (Some new))
        end
      else wimlib_assert false
  end.

(** Returns the security ID of the security data having a SHA1 message
    digest of [hash] in the tree rooted at [root], or [-1]. *)
Fixpoint lookup_sd (fuel : nat) (hash : list Z) (root : option ptr)
  : M Z :=
  match fuel with
  | O => raise OutOfFuel
  | S fuel' =>
      match root with
      | None => ret (-1)
      | Some p =>
          n <- load_node p ;;
          let cmp := hashes_cmp hash (node_hash n) in
          if cmp <? 0 then lookup_sd fuel' hash (node_left n)
          else if 0 <? cmp then lookup_sd fuel' hash (node_right n)
          else ret (node_security_id n)
      end
  end.

(** Conversion of the entry count to the [int] kept in a tree node. *)
Definition to_int (z : Z) : Z := (z + 2147483648) mod 4294967296 - 2147483648.

(** The content of a freshly allocated node before its fields are set. *)
Definition raw_node : sd_node := mk_sd_node 0 [] None None.

(** [REALLOC(array, (n + 1) * sizeof(array[0]))]. *)
Definition REALLOC {A} (arr : list (option A)) (n : Z)
  : M (option (list (option A))) :=
  ok <- alloc_ok ;;
  if ok : bool then ret (Some (resize (Z.to_nat (n + 1)) None arr))
  else ret None.

(** The walks over the tree are given a step budget larger than the
    number of nodes ever allocated. *)
Definition tree_fuel : M nat :=
  s <- get ;; ret (S (length (sd_nodes s))).

(** Adds a security descriptor to the indexed set and to the
    [wim_security_data], and returns the new security ID; or the ID of
    an existing identical descriptor; or [-1] when allocation fails. *)
Definition sd_set_add_sd (descriptor : list Z) : M Z :=
  let size := Z.of_nat (length descriptor) in
  let hash := sha1_buffer descriptor in
  fuel <- tree_fuel ;;
  s0 <- get ;;
  security_id <- lookup_sd fuel hash (set_root s0) ;;
  if 0 <=? security_id then ret security_id
  else
    new <- heap_alloc sd_nodes with_sd_nodes raw_node ;;
    match new with
    | None => ret (-1)                                   (* out *)
    | Some new =>
        descr_copy <- heap_alloc sd_blobs with_sd_blobs [] ;;
        match descr_copy with
        | None =>                                        (* out_free_node *)
            heap_free sd_nodes with_sd_nodes (Some new) ;;;
            ret (-1)
        | Some descr_copy =>
            s1 <- get ;;
            let sd := set_sd s1 in
            heap_store sd_blobs with_sd_blobs descr_copy descriptor ;;;
            store_node new
              (mk_sd_node (to_int (num_entries sd)) (copy_hash hash)
                          None None) ;;;
            let out_free_descr : M Z :=
              heap_free sd_blobs with_sd_blobs (Some descr_copy) ;;;
              heap_free sd_nodes with_sd_nodes (Some new) ;;;
              ret (-1) in
            descriptors' <- REALLOC (descriptors sd) (num_entries sd) ;;
            match descriptors' with
            | None => out_free_descr
            | Some descriptors' =>
                modify (fun s => with_set_sd
                  (mk_wim_security_data (total_length (set_sd s))
                     (num_entries (set_sd s)) (sizes (set_sd s))
                     descriptors') s) ;;;
                sizes' <- REALLOC (sizes sd) (num_entries sd) ;;
                match sizes' with
                | None => out_free_descr
                | Some sizes' =>
                    let n := Z.to_nat (num_entries sd) in
                    modify (fun s => with_set_sd
                      (mk_wim_security_data
                         (u32 (total_length sd
                               + (size + sizeof_size_entry)))
                         (u32 (num_entries sd + 1))
                         (<[n := Some size]> sizes')
                         (<[n := Some descr_copy]> descriptors')) s) ;;;
                    s2 <- get ;;
                    match set_root s2 with
                    | Some root =>
                        (* insert_sd_node(sd_set->root, new) *)
                        insert_sd_node fuel root new
                    | None => modify (with_set_root (Some new))
                    end ;;;
                    n_new <- load_node new ;;
                    ret (node_security_id n_new)
                end
            end
        end
    end.
End SdSet.

(** ** The volume, as the NTFS-3g calls present it *)

Inductive ATTR_TYPES :=
  | AT_FILE_NAME
  | AT_DATA
  | AT_REPARSE_POINT.

Global Instance ATTR_TYPES_eq_dec : EqDecision ATTR_TYPES.
Proof. solve_decision. Defined.

(** One attribute record of an inode together with what the attribute
    calls answer for it: whether [ntfs_attr_open] succeeds, the bytes of
    the attribute ([na->data_size] is their number) and, possibly, the
    4096-byte chunk whose [ntfs_attr_pread] comes back short. *)
Record ATTR_RECORD := mk_attr {
  ar_type : ATTR_TYPES;
  ar_name : list Z;
  ar_data_size : Z;
  ar_opens : bool;
  ar_data : list Z;
  ar_bad_chunk : option Z
}.

Definition name_length (ar : ATTR_RECORD) : Z := Z.of_nat (length (ar_name ar)).

(** The fields of an open inode that the capture reads, and the answers
    of [ntfs_inode_get_attributes], [ntfs_attr_get_search_ctx] and
    [ntfs_inode_get_security] for it. *)
Record inode_info := mk_inode_info {
  ni_attributes : Z;
  mrec_flags : Z;
  ni_creation_time : Z;
  ni_last_data_change_time : Z;
  ni_last_access_time : Z;
  ni_security_id : Z;
  mft_no : Z;
  search_ctx_ok : bool;
  attrs : list ATTR_RECORD;
  security_ret : Z;
  security_descriptor : list Z
}.

(** An inode with the entries [ntfs_readdir] enumerates for it.  An entry
    leads to an inode, or to nothing when [ntfs_inode_open] fails on its
    reference; [IndexFail] is an enumeration that breaks off with an
    error of its own. *)
Inductive ntfs_inode :=
  | Inode (info : inode_info) (index : dir_index)
with dir_index :=
  | IndexEnd
  | IndexFail
  | IndexEntry (name : list Z) (ni : ntfs_inode) (rest : dir_index)
  | IndexBroken (name : list Z) (rest : dir_index).

Definition inode_info_of (ni : ntfs_inode) : inode_info :=
  match ni with Inode info _ => info end.

(** Flag values of the NTFS on-disk format. *)
Definition FILE_ATTR_REPARSE_POINT : Z := 0x400.
Definition MFT_RECORD_IS_DIRECTORY : Z := 0x0002.

(** ** Dentries *)

(** A name handed on after its buffer was released keeps the bytes the
    buffer held, marked as such. *)
Inductive cstring :=
  | Held (bytes : list Z)
  | Released (bytes : list Z).

Record ads_entry := mk_ads_entry {
  stream_name : cstring;
  ads_lte : option ptr
}.

(** [struct dentry], the fields this file touches.  A dentry is owned by
    exactly one parent, so the children are kept in the node itself. *)
#[warnings="-register-all"]
Inductive dentry := mk_dentry {
  file_name : list Z;
  creation_time : Z;
  last_write_time : Z;
  last_access_time : Z;
  security_id : Z;
  attributes : Z;
  hard_link : Z;
  resolved : bool;
  lte : option ptr;
  ads_entries : list ads_entry;
  children : list dentry
}.

Definition with_lte (l : option ptr) (d : dentry) : dentry :=
  mk_dentry (file_name d) (creation_time d) (last_write_time d)
            (last_access_time d) (security_id d) (attributes d)
            (hard_link d) (resolved d) l (ads_entries d) (children d).
Definition with_ads_entries (a : list ads_entry) (d : dentry) : dentry :=
  mk_dentry (file_name d) (creation_time d) (last_write_time d)
            (last_access_time d) (security_id d) (attributes d)
            (hard_link d) (resolved d) (lte d) a (children d).
Definition with_children (c : list dentry) (d : dentry) : dentry :=
  mk_dentry (file_name d) (creation_time d) (last_write_time d)
            (last_access_time d) (security_id d) (attributes d)
            (hard_link d) (resolved d) (lte d) (ads_entries d) c.
Definition with_security_id (id : Z) (d : dentry) : dentry :=
  mk_dentry (file_name d) (creation_time d) (last_write_time d)
            (last_access_time d) id (attributes d)
            (hard_link d) (resolved d) (lte d) (ads_entries d) (children d).

(** Modelled from the spec: [new_dentry] (dentry.c is not part of the
    sources at hand).  A node is created empty when an object is first
    visited: it carries its name, no content reference, no named stream,
    no child, and an unset security identifier. *)
Definition new_dentry (name : list Z) : M (option dentry) :=
  ok <- alloc_ok ;;
  if ok : bool then
    ret (Some (mk_dentry name 0 0 0 (-1) 0 0 false None [] []))
  else ret None.

(** Modelled from the spec: [link_dentry] (dentry.c).  The children of a
    directory node are an append-only sequence. *)
Definition link_dentry (child parent : dentry) : dentry :=
  with_children (children parent ++ [child]) parent.

(** Modelled from the spec: [dentry_add_ads] (dentry.c).  Appends a
    named-stream entry carrying the name and no content reference yet;
    [NULL] when the entry cannot be allocated. *)
Definition dentry_add_ads (d : dentry) (name : cstring) : M (option dentry) :=
  ok <- alloc_ok ;;
  if ok : bool then
    ret (Some (with_ads_entries (ads_entries d ++ [mk_ads_entry name None]) d))
  else ret None.

(** [new_ads_entry->lte = lte], on the entry [dentry_add_ads] returned. *)
Definition set_new_ads_lte (l : ptr) (d : dentry) : dentry :=
  match reverse (ads_entries d) with
  | e :: before =>
      with_ads_entries
        (reverse before ++ [mk_ads_entry (stream_name e) (Some l)]) d
  | [] => d
  end.

(** ** The lookup table *)

Definition load_lte := heap_load ltes.
Definition store_lte := heap_store ltes with_ltes.

(** Modelled from the spec: [__lookup_resource] (lookup_table.c).  The
    store is keyed by digest: the entry whose digest equals [hash], or
    [NULL].  Walking over an entry that was released is undefined. *)
Fixpoint find_resource (h : list (option lookup_table_entry))
  (tbl : list ptr) (hash : list Z) : option (option ptr) :=
  match tbl with
  | [] => Some None
  | p :: tbl' =>
      match heap_cell h p with
      | None => None
      | Some e =>
          if decide (lte_hash e = hash) then Some (Some p)
          else find_resource h tbl' hash
      end
  end.

Definition __lookup_resource (hash : list Z) : M (option ptr) :=
  s <- get ;;
  match find_resource (ltes s) (lookup_table s) hash with
  | Some r => ret r
  | None => raise DanglingDeref
  end.

(** Modelled from the spec: [lookup_table_insert] (lookup_table.c). *)
Definition lookup_table_insert (p : ptr) : M unit :=
  modify (fun s => with_lookup_table (lookup_table s ++ [p]) s).

(** Modelled from the spec: [new_lookup_table_entry] (lookup_table.c).
    A content reference starts with one owner: the first occurrence of a
    content counts, and each reuse adds one. *)
Definition blank_lte : lookup_table_entry :=
  mk_lte [] 1 None RESOURCE_NONEXISTENT 0 0.

Definition new_lookup_table_entry : M (option ptr) :=
  heap_alloc ltes with_ltes blank_lte.

(** Modelled from the spec: [free_lookup_table_entry] (lookup_table.c),
    the release of a content reference.  The location descriptor has a
    release label of its own in [capture_ntfs_streams]. *)
Definition free_lookup_table_entry (p : ptr) : M unit :=
  heap_free ltes with_ltes (Some p).

(** ** Stream capture *)

Section Capture.
Context `{wimlib_h}.

(** [capture_ntfs_streams] declares [ntfs_loc] twice: the declaration
    in the block that builds a new entry hides the one at the top of
    the function, which is never assigned and is what the release
    label at the end reads.  [stale_ntfs_loc] is the value found in
    that variable. *)
Variable stale_ntfs_loc : option ptr.

(** The back-pointer to the volume stored in every location. *)
Variable ntfs_vol_p : Z.

(** [ntfs_attr_pread(na, pos, count, buf)]: the number of bytes read
    and the bytes. *)
Definition ntfs_attr_pread (ar : ATTR_RECORD) (pos count : Z)
  : Z * list Z :=
  if decide (ar_bad_chunk ar = Some (pos / 4096)) then (-1, [])
  else
    let buf := take (Z.to_nat count) (drop (Z.to_nat pos) (ar_data ar)) in
    (Z.of_nat (length buf), buf).

(** The read loop of [ntfs_attr_sha1sum]; [None] when the step budget
    runs out. *)
Fixpoint sha1sum_loop (fuel : nat) (ar : ATTR_RECORD)
  (pos bytes_remaining : Z) (ctx : SHA_CTX) : option (Z * SHA_CTX) :=
  match fuel with
  | O => None
  | S fuel' =>
      if bytes_remaining =? 0 then Some (0, ctx)
      else
        let to_read := Z.min bytes_remaining 4096 in
        let '(n, buf) := ntfs_attr_pread ar pos to_read in
        if negb (n =? to_read) then Some (WIMLIB_ERR_NTFS_3G, ctx)
        else sha1sum_loop fuel' ar (pos + to_read)
                          (bytes_remaining - to_read) (sha1_update ctx buf)
  end.

(** Calculates the SHA1 message digest of a NTFS attribute: the return
    code and, on success, the digest. *)
Definition ntfs_attr_sha1sum (ar : ATTR_RECORD) : M (Z * list Z) :=
  if negb (ar_opens ar) then ret (WIMLIB_ERR_NTFS_3G, [])
  else
    let data_size := Z.of_nat (length (ar_data ar)) in
    match sha1sum_loop (S (length (ar_data ar))) ar 0 data_size sha1_init
    with
    | None => raise OutOfFuel
    | Some (r, ctx) =>
        if r =? 0 then ret (0, sha1_final ctx) else ret (r, [])
    end.

(** The exit labels of [capture_ntfs_streams]. *)
Definition out_put_actx (d : dentry) (r : Z) : M (dentry * Z) :=
  ret (d, r).

Definition out_free_ntfs_loc (d : dentry) (r : Z) : M (dentry * Z) :=
  match stale_ntfs_loc with
  | Some l =>
      heap_load locs l ;;;
      heap_free locs with_locs (Some l)
  | None => ret tt
  end ;;;
  out_put_actx d r.

Definition out_free_lte (entry : ptr) (d : dentry) (r : Z)
  : M (dentry * Z) :=
  free_lookup_table_entry entry ;;;
  out_free_ntfs_loc d r.

(** [memcpy(ntfs_loc->path_utf8, path, path_len + 1)] reads the shared
    path buffer. *)
Definition read_path (n : Z) : M (list Z) :=
  s <- get ;;
  if (0 <=? n) && (n <=? Z.of_nat (length (path s)))
  then ret (take (Z.to_nat n) (path s))
  else raise BufferOverrun.

Definition bump_refcnt (e : lookup_table_entry) : lookup_table_entry :=
  mk_lte (lte_hash e) (lte_refcnt e + 1) (lte_ntfs_loc e)
         (lte_resource_location e) (lte_original_size e) (lte_size e).

(** Make a lookup table entry for the stream, or use an existing one if
    there's already an identical stream; [next] is the rest of the loop
    body, entered with the entry. *)
Definition stream_entry (ar : ATTR_RECORD) (attr_hash : list Z)
  (path_len : Z) (d : dentry) (r : Z) (next : ptr -> M (dentry * Z))
  : M (dentry * Z) :=
  found <- __lookup_resource attr_hash ;;
  match found with
  | Some entry =>
      e <- load_lte entry ;;
      store_lte entry (bump_refcnt e) ;;;
      next entry
  | None =>
      ntfs_loc <- heap_alloc locs with_locs
                             (mk_ntfs_location None None None 0) ;;
      match ntfs_loc with
      | None => out_put_actx d r
      | Some ntfs_loc =>
          heap_store locs with_locs ntfs_loc
            (mk_ntfs_location (Some ntfs_vol_p) None None 0) ;;;
          ok <- alloc_ok ;;
          if negb ok then out_free_ntfs_loc d r
          else
            path_copy <- read_path (path_len + 1) ;;
            heap_store locs with_locs ntfs_loc
              (mk_ntfs_location (Some ntfs_vol_p) (Some path_copy)
                                None 0) ;;;
            ok <- alloc_ok ;;
            if negb ok then out_free_ntfs_loc d r
            else
              heap_store locs with_locs ntfs_loc
                (mk_ntfs_location (Some ntfs_vol_p) (Some path_copy)
                                  (Some (ar_name ar))
                                  (name_length ar)) ;;;
              entry <- new_lookup_table_entry ;;
              match entry with
              | None => out_free_ntfs_loc d r
              | Some entry =>
                  e <- load_lte entry ;;
                  store_lte entry
                    (mk_lte (copy_hash attr_hash) (lte_refcnt e)
                            (Some ntfs_loc) RESOURCE_IN_NTFS_VOLUME
                            (ar_data_size ar) (ar_data_size ar)) ;;;
                  lookup_table_insert entry ;;;
                  next entry
              end
      end
  end.

(** Attach the entry to the node: as its content reference when the
    stream is unnamed, as a further named-stream entry otherwise; [next]
    is the next round of the loop, entered with the node. *)
Definition attach_stream (ar : ATTR_RECORD) (d : dentry) (r : Z)
  (entry : ptr) (next : dentry -> M (dentry * Z)) : M (dentry * Z) :=
  if name_length ar =? 0 then
    wimlib_assert (bool_decide (lte d = None)) ;;;
    next (with_lte (Some entry) d)
  else
    match utf16_to_utf8 (ar_name ar) (name_length ar) with
    | None => out_free_lte entry d r
    | Some stream_name_utf8 =>
        added <- dentry_add_ads d (Released stream_name_utf8) ;;
        match added with
        | None => out_free_lte entry d r
        | Some d' => next (set_new_ads_lte entry d')
        end
    end.

(** The [while] loop of [capture_ntfs_streams] over the attribute
    records of the requested type, in the order [ntfs_attr_lookup]
    yields them. *)
Fixpoint capture_loop (ars : list ATTR_RECORD) (path_len : Z)
  (d : dentry) : M (dentry * Z) :=
  match ars with
  | [] => out_put_actx d 0
  | ar :: rest =>
      (* Checksum the stream. *)
      sum <- ntfs_attr_sha1sum ar ;;
      let '(r, attr_hash) := sum in
      if negb (r =? 0) then out_put_actx d r
      else
        let r := WIMLIB_ERR_NOMEM in
        stream_entry ar attr_hash path_len d r
          (fun entry =>
             attach_stream ar d r entry (capture_loop rest path_len))
  end.

(** Load the streams from a file or reparse point in the NTFS volume
    into the lookup table. *)
Definition capture_ntfs_streams (d : dentry) (ni : inode_info)
  (path_len : Z) (type : ATTR_TYPES) : M (dentry * Z) :=
  (* Get context to search the streams of the NTFS file. *)
  if negb (search_ctx_ok ni) then ret (d, WIMLIB_ERR_NTFS_3G)
  else
    (* Capture each data stream or reparse data stream. *)
    capture_loop (filter (fun ar => ar_type ar = type) (attrs ni))
                 path_len d.

(** ** The tree builder *)

(** [struct readdir_ctx]: the directory being filled and the length of
    its path; the other members are the objects of the session. *)
Record readdir_ctx := mk_readdir_ctx {
  ctx_dentry : dentry;
  ctx_path_len : Z
}.

(** [memcpy(ctx->path + ctx->path_len, utf8_name, utf8_name_len + 1)]:
    a write that leaves the buffer is undefined. *)
Definition write_path (off : Z) (src : list Z) : M unit :=
  s <- get ;;
  let n := Z.of_nat (length src) in
  if (0 <=? off) && (off + n <=? Z.of_nat (length (path s))) then
    modify (with_path (take (Z.to_nat off) (path s) ++ src
                         ++ drop (Z.to_nat (off + n)) (path s)))
  else raise BufferOverrun.

(** The [ntfs_readdir] callback.  [ni] is the result of
    [ntfs_inode_open] on the entry: [None] when the inode cannot be
    opened, otherwise the recursive capture on the opened inode.  With
    [NULL], [__build_dentry_tree_ntfs] dereferences it at once. *)
Definition filldir (ctx : readdir_ctx) (name : list Z)
  (ni : option (dentry -> Z -> M (dentry * Z))) : M (readdir_ctx * Z) :=
  let r := -1 in
  let name_len := Z.of_nat (length name) in
  match utf16_to_utf8 name (name_len * 2) with
  | None => ret (ctx, r)                                          (* out *)
  | Some utf8_name =>
      let utf8_name_len := Z.of_nat (length utf8_name) in
      let r := match ni with None => 1 | Some _ => r end in
      child <- new_dentry utf8_name ;;
      match child with
      | None => ret (ctx, r)                             (* out_close_ni *)
      | Some child =>
          write_path (ctx_path_len ctx) (utf8_name ++ [0]) ;;;
          let path_len := ctx_path_len ctx + utf8_name_len in
          built <- match ni with
                   | Some build => build child path_len
                   | None => raise NullDeref
                   end ;;
          let '(child, r) := built in
          ret (mk_readdir_ctx (link_dentry child (ctx_dentry ctx))
                              (ctx_path_len ctx), r)
      end
  end.

Definition flag_set (value flag : Z) : bool := negb (Z.land value flag =? 0).

(** Recursively build a dentry tree corresponding to a NTFS volume, and
    at the same time update the lookup table and the array of security
    descriptors.  [ntfs_readdir] hands every entry of the directory to
    the callback, stops at the first entry for which the callback
    returns non-zero, and then reports failure. *)
Fixpoint __build_dentry_tree_ntfs (d : dentry) (ni : ntfs_inode)
  (path_len : Z) {struct ni} : M (dentry * Z) :=
  match ni with
  | Inode info index =>
      let attributes := ni_attributes info in
      let mrec_flags := mrec_flags info in
      let d :=
        mk_dentry (file_name d) (ni_creation_time info)
                  (ni_last_data_change_time info)
                  (ni_last_access_time info) (ni_security_id info)
                  attributes (mft_no info) true
                  (lte d) (ads_entries d) (children d) in
      content <-
        (if flag_set attributes FILE_ATTR_REPARSE_POINT then
           (* Junction point, symbolic link, or other reparse point *)
           capture_ntfs_streams d info path_len AT_REPARSE_POINT
         else if flag_set mrec_flags MFT_RECORD_IS_DIRECTORY then
           (* Normal directory *)
           listed <- ntfs_readdir index (mk_readdir_ctx d path_len) ;;
           let '(ctx, r) := listed in
           ret (ctx_dentry ctx,
                if negb (r =? 0) then WIMLIB_ERR_NTFS_3G else r)
         else
           (* Normal file *)
           capture_ntfs_streams d info path_len AT_DATA) ;;
      let '(d, r) := content in
      if negb (r =? 0) then ret (d, r)
      else
        let r := security_ret info in
        let sd := security_descriptor info in
        id <- sd_set_add_sd sd ;;
        let d := with_security_id id d in
        if id =? -1 then ret (d, WIMLIB_ERR_NOMEM)
        else ret (d, r)
  end
with ntfs_readdir (index : dir_index) (ctx : readdir_ctx)
  {struct index} : M (readdir_ctx * Z) :=
  match index with
  | IndexEnd => ret (ctx, 0)
  | IndexFail => ret (ctx, -1)
  | IndexEntry name ni rest =>
      called <- filldir ctx name
                  (Some (fun child path_len =>
                           __build_dentry_tree_ntfs child ni path_len)) ;;
      let '(ctx, r) := called in
      if negb (r =? 0) then ret (ctx, -1) else ntfs_readdir rest ctx
  | IndexBroken name rest =>
      called <- filldir ctx name None ;;
      let '(ctx, r) := called in
      if negb (r =? 0) then ret (ctx, -1) else ntfs_readdir rest ctx
  end.

(** What [ntfs_mount], [ntfs_inode_open] on the root and [ntfs_umount]
    answer for a device. *)
Record ntfs_device := mk_ntfs_device {
  mounts : bool;
  root_inode : option ntfs_inode;
  umounts : bool
}.

(** The capture callback handed to [do_add_image]: mounts the volume,
    captures the tree under the root inode with a fresh index tree over
    the descriptor table [sd], and unmounts. *)
Definition build_dentry_tree_ntfs (root_dentry : dentry)
  (device : ntfs_device) (sd : wim_security_data) (flags : Z)
  : M (dentry * Z) :=
  modify (with_set_sd sd) ;;;
  modify (with_set_root None) ;;;
  if negb (mounts device) then ret (root_dentry, WIMLIB_ERR_NTFS_3G)
  else
    captured <-
      match root_inode device with
      | None => ret (root_dentry, WIMLIB_ERR_NTFS_3G)
      | Some root_ni =>
          modify (with_path (replicate 4096 0)) ;;;
          write_path 0 [47; 0] ;;;
          __build_dentry_tree_ntfs root_dentry root_ni 1
      end ;;
    let '(d, r) := captured in
    if negb (umounts device) then
      ret (d, if r =? 0 then WIMLIB_ERR_NTFS_3G else r)
    else ret (d, r).
End Capture.

(** ** The public entry point *)

Section EntryPoint.
Context `{wimlib_h}.

(** [WIMStruct] and [do_add_image] belong to other units of the
    library; [ntfs_vol_of w] stands for the address [&w->ntfs_vol]. *)
Variable WIMStruct : Type.
Variable ntfs_vol_of : WIMStruct -> Z.
Variable do_add_image :
  WIMStruct -> ntfs_device -> list Z -> list Z -> list Z -> Z ->
  (dentry -> ntfs_device -> wim_security_data -> Z -> M (dentry * Z)) ->
  WIMStruct * Z.
Variable stale_ntfs_loc : option ptr.

Definition wimlib_add_image_from_ntfs_volume (w : WIMStruct)
  (device : ntfs_device) (name description flags_element : list Z)
  (flags : Z) : WIMStruct * Z :=
  if flag_set flags WIMLIB_ADD_IMAGE_FLAG_DEREFERENCE then
    (w, WIMLIB_ERR_INVALID_PARAM)
  else
    do_add_image w device name description flags_element flags
                 (build_dentry_tree_ntfs stale_ntfs_loc (ntfs_vol_of w)).
End EntryPoint.

(** ** A concrete configuration, for running the model *)

(** Sample values for the constants of [wimlib_h] (any non-zero error
    codes would do) and a text conversion for names made of 7-bit
    characters: [nbytes / 2] code units become as many bytes. *)
Definition ascii_utf16_to_utf8 (units : list Z) (nbytes : Z)
  : option (list Z) :=
  let us := take (Z.to_nat (nbytes / 2)) units in
  if forallb (fun u => (0 <=? u) && (u <? 128)) us then Some us else None.

#[global] Program Instance sample_wimlib_h : wimlib_h := {|
  WIMLIB_ERR_INVALID_PARAM := 16;
  WIMLIB_ERR_NOMEM := 21;
  WIMLIB_ERR_NTFS_3G := 25;
  WIMLIB_ADD_IMAGE_FLAG_DEREFERENCE := 2;
  sizeof_size_entry := 8;
  ENABLE_ASSERTIONS := true;
  utf16_to_utf8 := ascii_utf16_to_utf8
|}.
Solve All Obligations with done.

(** A session that has not captured anything yet: empty heaps, an empty
    descriptor table, an empty index tree, an empty lookup table and the
    4096-byte path buffer. *)
Definition empty_sd : wim_security_data := mk_wim_security_data 0 0 [] [].

Definition fresh_session (o : list bool) : state :=
  mk_state o [] [] empty_sd None [] [] [] (replicate 4096 0).

(** Running a computation, and the value and the memory it ends with. *)
Definition run {A} (c : M A) (s : state) : result A := c s.

Definition value {A} (r : result A) : option A :=
  match r with Ret a _ => Some a | Fault _ _ => None end.

Definition final {A} (r : result A) : state :=
  match r with Ret _ s => s | Fault _ s => s end.

(** *** Sample volumes *)

Definition data_stream (name data : list Z) : ATTR_RECORD :=
  mk_attr AT_DATA name (Z.of_nat (length data)) true data None.

(** A regular file with the given streams and security descriptor. *)
Definition sample_file (mft : Z) (streams : list ATTR_RECORD)
  (sd : list Z) : ntfs_inode :=
  Inode (mk_inode_info 0x20 0x0001 100 200 300 0x100 mft true
                       (mk_attr AT_FILE_NAME [] 0 true [] None :: streams)
                       0 sd)
        IndexEnd.

(** A directory with the given index and security descriptor. *)
Definition sample_dir (mft : Z) (index : dir_index) (sd : list Z)
  : ntfs_inode :=
  Inode (mk_inode_info 0x10 0x0003 100 200 300 0x101 mft true
                       [mk_attr AT_FILE_NAME [] 0 true [] None] 0 sd)
        index.

Definition root_dentry : dentry := mk_dentry [] 0 0 0 (-1) 0 0 false None [] [].

(** "hello" *)
Definition hello : list Z := [104; 101; 108; 108; 111].

(** A directory holding one file [a] with content "hello". *)
Definition one_file_volume : ntfs_inode :=
  sample_dir 5 (IndexEntry [97] (sample_file 64 [data_stream [] hello] [1])
                           IndexEnd) [2].

(** A directory whose only entry refers to an inode that cannot be
    opened. *)
Definition broken_entry_volume : ntfs_inode :=
  sample_dir 5 (IndexBroken [97] IndexEnd) [2].

(** A file whose unnamed stream and whose stream [s] hold the same
    bytes. *)
Definition twin_streams : inode_info :=
  inode_info_of (sample_file 64 [data_stream [] hello;
                                 data_stream [115] hello] [1]).

(** A chain of [n] nested directories, each named by 255 letters [a],
    the longest name an NTFS index entry can carry. *)
Fixpoint deep_volume (n : nat) : ntfs_inode :=
  match n with
  | O => sample_dir 5 IndexEnd [2]
  | S n' => sample_dir 5 (IndexEntry (replicate 255 97) (deep_volume n')
                                     IndexEnd) [2]
  end.

(** *** The classification of an object, in the words of the design *)

Inductive object_class :=
  | ReparsePoint
  | Directory
  | RegularFile.

(** An object is a reparse point when its attribute flags mark it as one,
    whatever its directory bit; a directory when the directory bit is set
    and it is not a reparse point; a regular file when it is neither. *)
Definition classify (info : inode_info) : object_class :=
  match flag_set (ni_attributes info) FILE_ATTR_REPARSE_POINT,
        flag_set (mrec_flags info) MFT_RECORD_IS_DIRECTORY with
  | true, _ => ReparsePoint
  | false, true => Directory
  | false, false => RegularFile
  end.

(** The metadata step and the security step that surround the capture of
    the content of an object. *)
Definition read_metadata (info : inode_info) (d : dentry) : dentry :=
  mk_dentry (file_name d) (ni_creation_time info)
            (ni_last_data_change_time info) (ni_last_access_time info)
            (ni_security_id info) (ni_attributes info) (mft_no info) true
            (lte d) (ads_entries d) (children d).

Definition resolve_security `{wimlib_h} (info : inode_info)
  (content : dentry * Z) : M (dentry * Z) :=
  let '(d, r) := content in
  if negb (r =? 0) then ret (d, r)
  else
    id <- sd_set_add_sd (security_descriptor info) ;;
    if id =? -1 then ret (with_security_id id d, WIMLIB_ERR_NOMEM)
    else ret (with_security_id id d, security_ret info).

(** The directory arm: enumerate, and report any failure of the
    enumeration as an NTFS-3g error. *)
Definition enumerate_children `{wimlib_h} (stale : option ptr) (vol : Z)
  (index : dir_index) (d : dentry) (path_len : Z) : M (dentry * Z) :=
  listed <- ntfs_readdir stale vol index (mk_readdir_ctx d path_len) ;;
  ret (ctx_dentry (fst listed),
       if negb (snd listed =? 0) then WIMLIB_ERR_NTFS_3G else snd listed).

(** A [WIMStruct] that counts the images added to it, and a
    [do_add_image] that adds one. *)
Definition counting_add_image (w : nat) (device : ntfs_device)
  (name description flags_element : list Z) (flags : Z)
  (capture : dentry -> ntfs_device -> wim_security_data -> Z
             -> M (dentry * Z)) : nat * Z :=
  (S w, 0).

Definition sample_device : ntfs_device :=
  mk_ntfs_device true (Some one_file_volume) true.

(** The index after one descriptor was stored, with the fourth of the
    requests of the next insertion bound to fail. *)
Definition one_descriptor_stored : state :=
  final (run (sd_set_add_sd [1])
             (fresh_session [true; true; true; true;
                             true; true; true; false])).

(** The directory context at the root, the child of the sample volume
    and its capture. *)
Definition sample_ctx : readdir_ctx := mk_readdir_ctx root_dentry 1.

Definition sample_child : ntfs_inode :=
  sample_file 64 [data_stream [] hello] [1].

Definition capture_sample_child : dentry -> Z -> M (dentry * Z) :=
  fun child path_len =>
    __build_dentry_tree_ntfs None 7 child sample_child path_len.

(** [filldir] and the capacity of the path buffer: with the name
    converted to [u] and the child node allocated, what becomes of the
    write of [u] at the offset of the parent's path length. *)
Definition writes_name_unchecked `{wimlib_h} (ctx : readdir_ctx)
  (name : list Z) (ni : option (dentry -> Z -> M (dentry * Z)))
  (u : list Z) (s : state) : Prop :=
  let len := Z.of_nat (length u) in
  let off := Z.to_nat (ctx_path_len ctx) in
  let s1 := with_oracle (tl (oracle s)) s in
  if decide (ctx_path_len ctx + len + 1 <= Z.of_nat (length (path s)))
  then
    let written :=
      take off (path s) ++ u ++ [0]
        ++ drop (Z.to_nat (ctx_path_len ctx + len + 1)) (path s) in
    length written = length (path s) /\
    take off written = take off (path s) /\
    filldir ctx name ni s =
      (built <- match ni with
                | Some capture_child =>
                    capture_child
                      (mk_dentry u 0 0 0 (-1) 0 0 false None [] [])
                      (ctx_path_len ctx + len)
                | None => raise NullDeref
                end ;;
       ret (mk_readdir_ctx (link_dentry (fst built) (ctx_dentry ctx))
                           (ctx_path_len ctx), snd built))
        (with_path written s1)
  else filldir ctx name ni s = Fault BufferOverrun s1.

(** *** Streams and content references, for stating the sharing of content *)

Definition digest (ar : ATTR_RECORD) : list Z := sha1_buffer (ar_data ar).

(** The entry that the lookup table holds for a digest, and its
    reference count ([0] when there is no entry). *)
Definition entry_for (s : state) (hash : list Z) : option ptr :=
  mjoin (find_resource (ltes s) (lookup_table s) hash).

Definition refcnt_of (s : state) (hash : list Z) : Z :=
  match entry_for s hash with
  | Some p =>
      match heap_cell (ltes s) p with
      | Some e => lte_refcnt e
      | None => 0
      end
  | None => 0
  end.

(** No entry of the lookup table has been released. *)
Definition store_ok (s : state) : Prop :=
  Forall (fun p => is_Some (heap_cell (ltes s) p)) (lookup_table s).

(** The attribute records whose streams the capture of an object reads,
    and the number of streams with a given digest among those of an
    object and of everything below it. *)
Definition captured_attrs (info : inode_info) : list ATTR_RECORD :=
  match classify info with
  | ReparsePoint =>
      filter (fun ar => ar_type ar = AT_REPARSE_POINT) (attrs info)
  | Directory => []
  | RegularFile => filter (fun ar => ar_type ar = AT_DATA) (attrs info)
  end.

Definition occurrences_in (hash : list Z) (ars : list ATTR_RECORD) : Z :=
  Z.of_nat (length (filter (fun ar => digest ar = hash) ars)).

Fixpoint occurrences (hash : list Z) (ni : ntfs_inode) : Z :=
  match ni with
  | Inode info index =>
      occurrences_in hash (captured_attrs info)
      + match classify info with
        | Directory => index_occurrences hash index
        | _ => 0
        end
  end
with index_occurrences (hash : list Z) (index : dir_index) : Z :=
  match index with
  | IndexEntry _ ni rest =>
      occurrences hash ni + index_occurrences hash rest
  | IndexBroken _ rest => index_occurrences hash rest
  | IndexEnd | IndexFail => 0
  end.

(** [streams_attached lk ars d d']: [d'] is [d] after each stream of
    [ars], in order, was attached with the reference [lk] gives for the
    digest of its bytes: an unnamed stream as the content reference of
    the node, a named one as a further named-stream entry. *)
Fixpoint streams_attached `{wimlib_h} (lk : list Z -> option ptr)
  (ars : list ATTR_RECORD) (d d' : dentry) : Prop :=
  match ars with
  | [] => d' = d
  | ar :: rest =>
      exists p, lk (digest ar) = Some p /\
        if name_length ar =? 0 then
          streams_attached lk rest (with_lte (Some p) d) d'
        else
          exists u, utf16_to_utf8 (ar_name ar) (name_length ar) = Some u /\
            streams_attached lk rest
              (with_ads_entries
                 (ads_entries d ++ [mk_ads_entry (Released u) (Some p)]) d)
              d'
  end.

(** [tree_attached lk ni d d']: [d'] is the node built from [d] for the
    object [ni] and everything below it, every stream attached with the
    reference [lk] gives for its digest; the security identifiers are
    left open. *)
Fixpoint tree_attached `{wimlib_h} (lk : list Z -> option ptr)
  (ni : ntfs_inode) (d d' : dentry) {struct ni} : Prop :=
  match ni with
  | Inode info index =>
      exists d1 id,
        match classify info with
        | Directory => index_attached lk index (read_metadata info d) d1
        | _ => streams_attached lk (captured_attrs info)
                                (read_metadata info d) d1
        end /\
        d' = with_security_id id d1
  end
with index_attached `{wimlib_h} (lk : list Z -> option ptr)
  (index : dir_index) (d d' : dentry) {struct index} : Prop :=
  match index with
  | IndexEnd => d' = d
  | IndexEntry name ni rest =>
      exists u child,
        utf16_to_utf8 name (Z.of_nat (length name) * 2) = Some u /\
        tree_attached lk ni (mk_dentry u 0 0 0 (-1) 0 0 false None [] [])
                      child /\
        index_attached lk rest (link_dentry child d) d'
  | IndexFail | IndexBroken _ _ => False
  end.

(** A volume with two files [a] and [b] of the same content "hello" and
    different security descriptors. *)
Definition two_files_volume : ntfs_inode :=
  sample_dir 5
    (IndexEntry [97] (sample_file 64 [data_stream [] hello] [1])
       (IndexEntry [98] (sample_file 65 [data_stream [] hello] [3])
          IndexEnd)) [2].

(** *** Relations between states, for stating what a run changes *)

(** An allocation request among the next [n] fails. *)
Fixpoint fails_within (n : nat) (o : list bool) : bool :=
  match n, o with
  | S n', b :: o' => if b then fails_within n' o' else true
  | _, _ => false
  end.

(** What a reader of the descriptor table can see: the entry count, the
    running total length, and the stored entries and sizes up to the
    entry count. *)
Definition stored {A} (sd : wim_security_data) (arr : list (option A))
  (i : nat) : option A :=
  if decide (i < Z.to_nat (num_entries sd))%nat then mjoin (arr !! i)
  else None.

Definition same_table (sd sd' : wim_security_data) : Prop :=
  num_entries sd' = num_entries sd /\
  total_length sd' = total_length sd /\
  (forall i, stored sd' (sizes sd') i = stored sd (sizes sd) i) /\
  (forall i, stored sd' (descriptors sd') i = stored sd (descriptors sd) i).

(** Two states hold the same live index nodes and descriptor copies, the
    same tree root and the same visible table. *)
Definition same_index (s s' : state) : Prop :=
  same_table (set_sd s) (set_sd s') /\
  set_root s' = set_root s /\
  (forall p, heap_cell (sd_nodes s') p = heap_cell (sd_nodes s) p) /\
  (forall p, heap_cell (sd_blobs s') p = heap_cell (sd_blobs s) p).

(** The lookup store (entries and table) is the same in two states, and
    computations that never change it. *)
Definition same_store (s s' : state) : Prop :=
  ltes s' = ltes s /\ lookup_table s' = lookup_table s.

Definition keeps_store {A} (c : M A) : Prop :=
  forall s a s', c s = Ret a s' -> same_store s s'.

(** No pointer of the table leads to a released entry. *)
Definition live (h : list (option lookup_table_entry)) (tbl : list ptr)
  : Prop :=
  Forall (fun p => is_Some (heap_cell h p)) tbl.

(** What the capture of one stream with digest [hash] makes of the
    lookup store: the entry [p] now answers for [hash], the entries that
    answered before still do, and the count of [hash] went up by one. *)
Definition stream_step (s s1 : state) (hash : list Z) (p : ptr) : Prop :=
  store_ok s1 /\
  entry_for s1 hash = Some p /\
  (forall h q, entry_for s h = Some q -> entry_for s1 h = Some q) /\
  (forall h, refcnt_of s1 h =
             refcnt_of s h + if decide (h = hash) then 1 else 0).

(** The store after a run over [ars]: sound, keeping the answers it
    gave before, and with every count raised by the number of streams
    of that digest. *)
Definition store_grown (s s' : state) (count : list Z -> Z) : Prop :=
  store_ok s' /\
  (forall h q, entry_for s h = Some q -> entry_for s' h = Some q) /\
  (forall h, refcnt_of s' h = refcnt_of s h + count h).

(** The references stay what they are when the store answers more. *)
Definition answers_more (lk lk' : list Z -> option ptr) : Prop :=
  forall h q, lk h = Some q -> lk' h = Some q.

(** *** Frames: what a computation leaves alone *)

(** [keeps R c]: every run of [c] that returns relates the memory before
    and after by [R]. *)
Definition keeps (R : state -> state -> Prop) {A} (c : M A) : Prop :=
  forall s a s', c s = Ret a s' -> R s s'.

(** A relation fit to be kept: it holds of a state and itself, and
    composes over runs in sequence. *)
Class Frame (R : state -> state -> Prop) : Prop := {
  frame_refl : forall s, R s s;
  frame_trans : forall s1 s2 s3, R s1 s2 -> R s2 s3 -> R s1 s3
}.

(** The relation is not concerned with the field that [upd] writes. *)
Class Allows {B} (R : state -> state -> Prop) (upd : B -> state -> state)
  : Prop :=
  allows : forall b s, R s (upd b s).

(** Everything but the security-descriptor index and the allocator. *)
Definition outside_index (s s' : state) : Prop :=
  ltes s' = ltes s /\ locs s' = locs s /\
  lookup_table s' = lookup_table s /\ path s' = path s.

(** Everything but the lookup store, the locations and the allocator. *)
Definition outside_store (s s' : state) : Prop :=
  sd_nodes s' = sd_nodes s /\ sd_blobs s' = sd_blobs s /\
  set_sd s' = set_sd s /\ set_root s' = set_root s /\ path s' = path s.

(** The path buffer keeps its size and its first [n] bytes. *)
Definition prefix_kept (n : Z) (s s' : state) : Prop :=
  length (path s') = length (path s) /\
  take (Z.to_nat n) (path s') = take (Z.to_nat n) (path s).

(** *** Results: what a computation hands back *)

(** [returns Q c]: every value that a run of [c] returns satisfies [Q]. *)
Definition returns {A} (Q : A -> Prop) (c : M A) : Prop :=
  forall s a s', c s = Ret a s' -> Q a.

(** The read of a chunk at or after [pos] fails: the chunk that cannot be
    read starts at or after [pos] and before the end of the data. *)
Definition read_fails_from (ar : ATTR_RECORD) (pos : Z) : bool :=
  match ar_bad_chunk ar with
  | Some k =>
      (pos <=? 4096 * k) && (4096 * k <? Z.of_nat (length (ar_data ar)))
  | None => false
  end.

Definition read_fails (ar : ATTR_RECORD) : bool := read_fails_from ar 0.

(** Two nodes that differ at most in their content reference and their
    named-stream entries. *)
Definition same_node (d d' : dentry) : Prop :=
  file_name d' = file_name d /\
  creation_time d' = creation_time d /\
  last_write_time d' = last_write_time d /\
  last_access_time d' = last_access_time d /\
  security_id d' = security_id d /\
  attributes d' = attributes d /\
  hard_link d' = hard_link d /\
  resolved d' = resolved d /\
  children d' = children d.

(** The codes [capture_ntfs_streams] can return. *)
Definition capture_code `{wimlib_h} (r : Z) : Prop :=
  r = 0 \/ r = WIMLIB_ERR_NTFS_3G \/ r = WIMLIB_ERR_NOMEM.

(** Two nodes with the same name and the same metadata. *)
Definition same_meta (d d' : dentry) : Prop :=
  file_name d' = file_name d /\
  creation_time d' = creation_time d /\
  last_write_time d' = last_write_time d /\
  last_access_time d' = last_access_time d /\
  attributes d' = attributes d /\
  hard_link d' = hard_link d /\
  resolved d' = resolved d.

(** [mirrors ni d]: the node [d] has the shape of the object [ni].  It
    carries the times, the attribute flags and the inode number of [ni];
    when [ni] is a directory it has one child for each entry of the
    index, in the order of the index, named by the converted name of the
    entry and itself of the shape of the object the entry leads to;
    when [ni] is not a directory it has no child. *)
Fixpoint mirrors `{wimlib_h} (ni : ntfs_inode) (d : dentry) {struct ni}
  : Prop :=
  match ni with
  | Inode info index =>
      creation_time d = ni_creation_time info /\
      last_write_time d = ni_last_data_change_time info /\
      last_access_time d = ni_last_access_time info /\
      attributes d = ni_attributes info /\
      hard_link d = mft_no info /\
      resolved d = true /\
      match classify info with
      | Directory => index_mirrors index (children d)
      | _ => children d = []
      end
  end
with index_mirrors `{wimlib_h} (index : dir_index) (cs : list dentry)
  {struct index} : Prop :=
  match index with
  | IndexEnd => cs = []
  | IndexEntry name ni rest =>
      exists u c cs',
        utf16_to_utf8 name (Z.of_nat (length name) * 2) = Some u /\
        cs = c :: cs' /\ file_name c = u /\
        mirrors ni c /\ index_mirrors rest cs'
  | IndexFail | IndexBroken _ _ => False
  end.

(** *** The index of security descriptors against the descriptor table *)

(** Every live node of the index names an entry of the table that holds
    a descriptor with the digest of the node, together with its size. *)
Definition index_sound (s : state) : Prop :=
  0 <= num_entries (set_sd s) /\
  forall q m, heap_cell (sd_nodes s) q = Some m ->
    0 <= node_security_id m < num_entries (set_sd s) /\
    exists b bytes,
      descriptors (set_sd s) !! Z.to_nat (node_security_id m)
        = Some (Some b) /\
      sizes (set_sd s) !! Z.to_nat (node_security_id m)
        = Some (Some (Z.of_nat (length bytes))) /\
      heap_cell (sd_blobs s) b = Some bytes /\
      sha1_buffer bytes = node_hash m.

(** The entry [id] of the table holds a descriptor with the digest of
    [descriptor]. *)
Definition names_digest_of (s : state) (id : Z) (descriptor : list Z)
  : Prop :=
  0 <= id < num_entries (set_sd s) /\
  exists b bytes,
    descriptors (set_sd s) !! Z.to_nat id = Some (Some b) /\
    heap_cell (sd_blobs s) b = Some bytes /\
    sha1_buffer bytes = sha1_buffer descriptor.

(** What a call of [sd_set_add_sd] that does not store anything leaves
    of the index: at most a released node, a released copy and a larger
    capacity of the descriptor array. *)
Definition index_untouched (s s' : state) : Prop :=
  (sd_nodes s' = sd_nodes s \/ sd_nodes s' = sd_nodes s ++ [None]) /\
  (sd_blobs s' = sd_blobs s \/ sd_blobs s' = sd_blobs s ++ [None]) /\
  (set_sd s' = set_sd s \/
   set_sd s' =
     mk_wim_security_data (total_length (set_sd s)) (num_entries (set_sd s))
       (sizes (set_sd s))
       (resize (Z.to_nat (num_entries (set_sd s) + 1)) None
               (descriptors (set_sd s)))) /\
  set_root s' = set_root s.

(** What a call of [sd_set_add_sd] that stores [descriptor] makes of the
    index: one more node for its digest, one more copy, and one more
    entry of the table, at the position of the old entry count. *)
Definition index_appended `{wimlib_h} (s s' : state) (descriptor : list Z)
  : Prop :=
  let sd := set_sd s in
  let n := Z.to_nat (num_entries sd) in
  let size := Z.of_nat (length descriptor) in
  (exists l r,
     sd_nodes s' =
       sd_nodes s ++ [Some (mk_sd_node (to_int (num_entries sd))
                                       (sha1_buffer descriptor) l r)]) /\
  sd_blobs s' = sd_blobs s ++ [Some descriptor] /\
  set_sd s' =
    mk_wim_security_data
      (u32 (total_length sd + (size + sizeof_size_entry)))
      (u32 (num_entries sd + 1))
      (<[n := Some size]> (resize (Z.to_nat (num_entries sd + 1)) None
                                  (sizes sd)))
      (<[n := Some (length (sd_blobs s))]>
         (resize (Z.to_nat (num_entries sd + 1)) None (descriptors sd))) /\
  set_root s' =
    match set_root s with
    | Some root => Some root
    | None => Some (length (sd_nodes s))
    end.

(** *** Trees of index nodes *)

(** The child at which the search for [hash] goes on from the node [n],
    if any. *)
Definition branch_taken (hash : list Z) (n : sd_node) : option ptr :=
  let cmp := hashes_cmp hash (node_hash n) in
  if cmp <? 0 then node_left n
  else if 0 <? cmp then node_right n
  else None.

(** [sd_tree h root dom]: in the heap [h], the nodes reachable from
    [root] form a tree, with no node shared or reached twice, and [dom]
    lists them. *)
Inductive sd_tree (h : list (option sd_node))
  : option ptr -> list ptr -> Prop :=
  | sd_tree_null : sd_tree h None []
  | sd_tree_node p n ls rs :
      heap_cell h p = Some n ->
      sd_tree h (node_left n) ls ->
      sd_tree h (node_right n) rs ->
      ~ elem_of p ls -> ~ elem_of p rs ->
      (forall x, elem_of x ls -> ~ elem_of x rs) ->
      sd_tree h (Some p) (p :: ls ++ rs).

(** Two loose nodes, with the digests [5] and [3]. *)
Definition two_loose_nodes : state :=
  mk_state [] [Some (mk_sd_node 0 [5] None None);
               Some (mk_sd_node 1 [3] None None)]
           [] empty_sd (Some 0%nat) [] [] [] [].

(** A tree of three nodes beside a fourth node. *)
Definition three_node_tree : state :=
  mk_state [] [Some (mk_sd_node 0 [5] (Some 1%nat) (Some 2%nat));
               Some (mk_sd_node 1 [3] None None);
               Some (mk_sd_node 2 [7] None None);
               Some (mk_sd_node 3 [9] None None)]
           [] empty_sd (Some 0%nat) [] [] [] [].

(** *** Security identifiers over a capture *)

(** The number of objects of a volume, and of the entries of an index
    together with everything below them. *)
Fixpoint objects (ni : ntfs_inode) : Z :=
  match ni with
  | Inode _ index => 1 + index_objects index
  end
with index_objects (index : dir_index) : Z :=
  match index with
  | IndexEntry _ ni rest => objects ni + index_objects rest
  | IndexBroken _ rest => index_objects rest
  | IndexEnd | IndexFail => 0
  end.

(** The index part of the session memory is the same in two states. *)
Definition same_sd (s s' : state) : Prop :=
  sd_nodes s' = sd_nodes s /\ sd_blobs s' = sd_blobs s /\
  set_sd s' = set_sd s /\ set_root s' = set_root s.

(** The table has not lost anything: what an identifier named before,
    it names still. *)
Definition table_grows (s s' : state) : Prop :=
  num_entries (set_sd s) <= num_entries (set_sd s') /\
  forall id descriptor,
    names_digest_of s id descriptor -> names_digest_of s' id descriptor.

(** [secured s ni d]: in the tree under the node [d], built for the
    object [ni], every node carries a security identifier that names an
    entry of the table of [s] holding a descriptor with the digest of
    the security descriptor of its object. *)
Fixpoint secured (s : state) (ni : ntfs_inode) (d : dentry) {struct ni}
  : Prop :=
  match ni with
  | Inode info index =>
      names_digest_of s (security_id d) (security_descriptor info) /\
      match classify info with
      | Directory => index_secured s index (children d)
      | _ => True
      end
  end
with index_secured (s : state) (index : dir_index) (cs : list dentry)
  {struct index} : Prop :=
  match index with
  | IndexEnd => cs = []
  | IndexEntry _ ni rest =>
      exists c cs', cs = c :: cs' /\ secured s ni c /\
                    index_secured s rest cs'
  | IndexFail | IndexBroken _ _ => False
  end.

(** The node [d'] holds what [d] held: its children followed by further
    children, its named-stream entries followed by further entries,
    and, when assertions are compiled in, the content reference of [d]
    if it had one. *)
Definition grows_from `{wimlib_h} (d d' : dentry) : Prop :=
  (exists cs, children d' = children d ++ cs) /\
  (exists es, ads_entries d' = ads_entries d ++ es) /\
  (ENABLE_ASSERTIONS = true -> is_Some (lte d) -> lte d' = lte d).

(** The names of the entries of an index, in the order of the index. *)
Fixpoint index_names (index : dir_index) : list (list Z) :=
  match index with
  | IndexEntry name _ rest => name :: index_names rest
  | IndexBroken name rest => name :: index_names rest
  | IndexEnd | IndexFail => []
  end.

(** The index is listed to its end, and every inode it names opens. *)
Fixpoint index_complete (index : dir_index) : Prop :=
  match index with
  | IndexEntry _ _ rest => index_complete rest
  | IndexEnd => True
  | IndexBroken _ _ | IndexFail => False
  end.

(** [named_by names cs]: the nodes [cs] are named, one by one and in
    order, by the converted names of the first entries of [names]. *)
Definition named_by `{wimlib_h} (names : list (list Z)) (cs : list dentry)
  : Prop :=
  (length cs <= length names)%nat /\
  forall i c, cs !! i = Some c ->
    exists name,
      names !! i = Some name /\
      utf16_to_utf8 name (Z.of_nat (length name) * 2) = Some (file_name c).

(** A volume with the files [a] and [b] of content "hello" and a file
    [c] of content "x" that has a stream [s] of content "hello". *)
Definition three_files_volume : ntfs_inode :=
  sample_dir 5
    (IndexEntry [97] (sample_file 64 [data_stream [] hello] [1])
       (IndexEntry [98] (sample_file 65 [data_stream [] hello] [3])
          (IndexEntry [99]
             (sample_file 66 [data_stream [] [120];
                              data_stream [115] hello] [4])
             IndexEnd))) [2].

(** A descriptor table whose total length is six bytes short of
    [2^32]. *)
Definition nearly_full_table : state :=
  mk_state [] [] [] (mk_wim_security_data 4294967290 0 [] []) None
           [] [] [] [].

(** * Properties *)

(** ** The digest on the standard test vectors *)

Example sha1_abc :
  sha1_buffer [97; 98; 99] =
  [0xa9; 0x99; 0x3e; 0x36; 0x47; 0x06; 0x81; 0x6a; 0xba; 0x3e;
   0x25; 0x71; 0x78; 0x50; 0xc2; 0x6c; 0x9c; 0xd0; 0xd8; 0x9d].
Proof. vm_compute. reflexivity. Qed.

Example sha1_empty :
  sha1_buffer [] =
  [0xda; 0x39; 0xa3; 0xee; 0x5e; 0x6b; 0x4b; 0x0d; 0x32; 0x55;
   0xbf; 0xef; 0x95; 0x60; 0x18; 0x90; 0xaf; 0xd8; 0x07; 0x09].
Proof. vm_compute. reflexivity. Qed.

(** ** Properties of the security-descriptor index *)

(** Symbolic execution of the monadic code on a state given by its
    fields. *)
Ltac mrun :=
  cbv [heap_alloc alloc_ok bind get ret modify raise with_oracle
       with_sd_nodes with_sd_blobs with_set_sd with_set_root with_ltes
       with_locs with_lookup_table with_path heap_store heap_load heap_free
       oracle sd_nodes sd_blobs set_sd set_root ltes locs lookup_table path].

Section SdSetFacts.
Context `{wimlib_h}.

Lemma lookup_sd_pure fuel hash root s v s' :
  lookup_sd fuel hash root s = Ret v s' -> s' = s.
Proof.
  revert root. induction fuel as [|fuel IH]; intros root; simpl.
  - discriminate.
  - destruct root as [p|]; [|unfold ret; intros Hx; inversion Hx; reflexivity].
    cbv [bind load_node heap_load get ret raise].
    destruct (heap_cell (sd_nodes s) p) as [n|]; [|discriminate].
    destruct (_ <? 0); [apply IH|].
    destruct (0 <? _); [apply IH|].
    intros Hx; inversion Hx; reflexivity.
Qed.

Lemma heap_cell_snoc_None {A} (h : list (option A)) p :
  heap_cell (h ++ [None]) p = heap_cell h p.
Proof.
  unfold heap_cell. destruct (decide (p < length h)%nat) as [Hlt|Hge].
  - by rewrite lookup_app_l.
  - rewrite (lookup_ge_None_2 h) by lia.
    destruct (decide (p = length h)) as [->|Hne].
    + by rewrite list_lookup_middle.
    + rewrite lookup_ge_None_2; [done|]. rewrite length_app. simpl. lia.
Qed.

Lemma insert_snoc {A} (h : list A) x y :
  <[length h := y]> (h ++ [x]) = h ++ [y].
Proof.
  rewrite insert_app_r_alt by lia. by rewrite Nat.sub_diag.
Qed.

Lemma heap_cell_snoc_Some {A} (h : list (option A)) x :
  heap_cell (h ++ [Some x]) (length h) = Some x.
Proof. unfold heap_cell. by rewrite list_lookup_middle. Qed.

Lemma heap_cell_insert {A} (h : list (option A)) p q v e :
  heap_cell h p = Some e ->
  heap_cell (<[p := Some v]> h) q =
    if decide (q = p) then Some v else heap_cell h q.
Proof.
  intros Hp. unfold heap_cell in *. case_decide as Hq.
  - subst q. rewrite list_lookup_insert_eq; [done|].
    destruct (h !! p) eqn:E; [|done]. by eapply lookup_lt_Some.
  - by rewrite list_lookup_insert_ne.
Qed.

Lemma heap_cell_lt {A} (h : list (option A)) p :
  is_Some (heap_cell h p) -> (p < length h)%nat.
Proof.
  unfold heap_cell. intros [e He].
  destruct (h !! p) eqn:E; [|done]. by eapply lookup_lt_Some.
Qed.

Lemma heap_cell_app {A} (h : list (option A)) x p :
  is_Some (heap_cell h p) -> heap_cell (h ++ x) p = heap_cell h p.
Proof.
  intros Hp. apply heap_cell_lt in Hp. unfold heap_cell.
  by rewrite lookup_app_l.
Qed.

Lemma mjoin_lookup_resize {A} (l : list (option A)) n i :
  (i < n)%nat -> mjoin (resize n None l !! i) = mjoin (l !! i).
Proof.
  intros Hi. destruct (decide (i < length l)%nat).
  - rewrite lookup_resize by lia. done.
  - rewrite lookup_resize_new by lia.
    rewrite (lookup_ge_None_2 l) by lia. done.
Qed.

(** C9: when an allocation request fails during an insertion (the
    lookup has missed and one of the four requests of the call, for the
    tree node, the descriptor copy, the descriptor array or the size
    array, is refused), [sd_set_add_sd] returns [-1], the node and the
    copy allocated on the way are released again, and the table, the
    tree root and every live node and descriptor are as before the
    call; the rest of the session memory is untouched. *)
Theorem sd_set_add_sd_alloc_failure descriptor s id s_l :
  lookup_sd (S (length (sd_nodes s))) (sha1_buffer descriptor)
            (set_root s) s = Ret id s_l ->
  id < 0 ->
  fails_within 4 (oracle s) = true ->
  exists s',
    sd_set_add_sd descriptor s = Ret (-1) s' /\
    same_index s s' /\
    ltes s' = ltes s /\ locs s' = locs s /\
    lookup_table s' = lookup_table s /\ path s' = path s.
Proof.
  intros Hl Hid Ho.
  pose proof (lookup_sd_pure _ _ _ _ _ _ Hl) as ->.
  unfold sd_set_add_sd.
  cbv [bind tree_fuel get ret] in *. rewrite Hl.
  replace (0 <=? id) with false by lia.
  destruct s as [o nodes blobs sd root lt lc tbl pth]; simpl in *.
  clear Hl.
  destruct o as [|[] [|[] [|[] [|[] o]]]]; try discriminate.
  all: cbv [REALLOC store_node load_node]; mrun.
  all: repeat (rewrite ?heap_cell_snoc_Some, ?insert_snoc; mrun).
  all: eexists; split; [reflexivity|]; split; [|done].
  all: repeat split; simpl; intros;
    rewrite ?heap_cell_snoc_None; try reflexivity.
  all: unfold stored; simpl; case_decide; [|done].
  all: apply mjoin_lookup_resize; lia.
Qed.
End SdSetFacts.

(** The witness of the allocation-failure theorem: the size array cannot
    be grown for a second descriptor. *)
Lemma sd_set_add_sd_alloc_failure_witness :
  exists s',
    sd_set_add_sd [2] one_descriptor_stored = Ret (-1) s' /\
    same_index one_descriptor_stored s' /\
    ltes s' = ltes one_descriptor_stored /\
    locs s' = locs one_descriptor_stored /\
    lookup_table s' = lookup_table one_descriptor_stored /\
    path s' = path one_descriptor_stored.
Proof.
  eapply (sd_set_add_sd_alloc_failure [2] one_descriptor_stored).
  - vm_compute. reflexivity.
  - lia.
  - reflexivity.
Defined.

(** C1, on the source: three insertions into a fresh index, the second
    and third with the same descriptor.  The repeated descriptor receives
    a second identifier and a second entry of the table: the tree below
    [set_root] still consists of the first node alone, the later nodes
    point at it and are reachable from nowhere. *)
Theorem sd_set_add_sd_repeated_descriptor :
  exists s',
    run (a <- sd_set_add_sd [1] ;;
         b <- sd_set_add_sd [2] ;;
         c <- sd_set_add_sd [2] ;;
         ret (a, b, c)) (fresh_session []) = Ret (0, 1, 2) s' /\
    num_entries (set_sd s') = 3 /\
    descriptors (set_sd s') = [Some 0; Some 1; Some 2]%nat /\
    sd_blobs s' = [Some [1]; Some [2]; Some [2]] /\
    set_root s' = Some 0%nat /\
    (node_left <$> heap_cell (sd_nodes s') 0%nat) = Some None /\
    (node_right <$> heap_cell (sd_nodes s') 0%nat) = Some None.
Proof. eexists. vm_compute. repeat split; reflexivity. Qed.

(** C7, on the source: the descriptors [1], [2], [2], [3] inserted into
    a fresh index.  The third distinct descriptor, [3], receives the
    identifier 3, not 2. *)
Theorem sd_set_add_sd_third_unique_descriptor :
  value (run (a <- sd_set_add_sd [1] ;;
              b <- sd_set_add_sd [2] ;;
              c <- sd_set_add_sd [2] ;;
              d <- sd_set_add_sd [3] ;;
              ret [a; b; c; d]) (fresh_session []))
  = Some [0; 1; 2; 3].
Proof. vm_compute. reflexivity. Qed.

(** ** The index tree never grows *)

Section IndexDefect.
Context `{wimlib_h}.

Lemma hashes_cmp_swap h1 h2 : hashes_cmp h2 h1 = - hashes_cmp h1 h2.
Proof.
  revert h2. induction h1 as [|x h1 IH]; intros [|y h2]; simpl; try done.
  rewrite (Z.eqb_sym y x). destruct (x =? y); [apply IH|lia].
Qed.

(** The search from a root that is a leaf and holds another digest. *)
Lemma lookup_sd_beside_leaf hash p n s :
  heap_cell (sd_nodes s) p = Some n ->
  node_left n = None ->
  node_right n = None ->
  hashes_cmp hash (node_hash n) <> 0 ->
  lookup_sd (S (length (sd_nodes s))) hash (Some p) s = Ret (-1) s.
Proof.
  intros Hp Hl Hr Hcmp.
  assert (Hlen : (p < length (sd_nodes s))%nat)
    by (apply heap_cell_lt; by eexists).
  destruct (length (sd_nodes s)) as [|k]; [lia|].
  cbn [lookup_sd]. cbv [bind load_node heap_load get ret]. rewrite Hp, Hl, Hr.
  destruct (Z.ltb_spec (hashes_cmp hash (node_hash n)) 0); [done|].
  destruct (Z.ltb_spec 0 (hashes_cmp hash (node_hash n))); [done|lia].
Qed.

(** With the tree root a leaf, a descriptor whose digest is not that of
    the root is not found and is stored under the next identifier; the
    root is a leaf afterwards as well, so the same happens at the next
    call with the same descriptor. *)
Lemma sd_set_add_sd_beside_root descriptor s p n :
  oracle s = [] ->
  set_root s = Some p ->
  heap_cell (sd_nodes s) p = Some n ->
  node_left n = None ->
  node_right n = None ->
  hashes_cmp (sha1_buffer descriptor) (node_hash n) <> 0 ->
  exists s',
    sd_set_add_sd descriptor s = Ret (to_int (num_entries (set_sd s))) s' /\
    num_entries (set_sd s') = u32 (num_entries (set_sd s) + 1) /\
    oracle s' = [] /\
    set_root s' = Some p /\
    heap_cell (sd_nodes s') p = Some n.
Proof.
  intros Ho Hroot Hp Hl Hr Hcmp.
  pose proof (lookup_sd_beside_leaf _ _ _ _ Hp Hl Hr Hcmp) as Hlook.
  assert (Hcmp' : hashes_cmp (node_hash n) (sha1_buffer descriptor) <> 0)
    by (rewrite hashes_cmp_swap; lia).
  unfold sd_set_add_sd, tree_fuel.
  cbv [bind get ret]. rewrite Hroot, Hlook.
  replace (0 <=? -1) with false by done.
  destruct s as [o nodes blobs sd root lt lc tbl pth]; simpl in *. subst.
  cbv [REALLOC store_node load_node]. mrun.
  repeat (rewrite ?heap_cell_snoc_Some, ?insert_snoc; mrun).
  clear Hlook.
  assert (Hlive : is_Some (heap_cell nodes p)) by (by eexists).
  rewrite !(heap_cell_app nodes _ p Hlive), Hp. mrun.
  repeat (rewrite ?heap_cell_snoc_Some, ?insert_snoc; mrun).
  unfold copy_hash. cbn [node_hash node_left node_right node_security_id].
  destruct (Z.ltb_spec (hashes_cmp (node_hash n) (sha1_buffer descriptor)) 0);
    [|destruct (Z.ltb_spec 0 (hashes_cmp (node_hash n)
                                         (sha1_buffer descriptor)));
      [|lia]].
  all: repeat (rewrite ?heap_cell_snoc_Some, ?insert_snoc; mrun).
  all: eexists; split; [reflexivity|]; simpl.
  all: repeat split; try reflexivity.
  all: by rewrite heap_cell_app.
Qed.
End IndexDefect.

(** ** Properties of the tree builder *)

Section TreeBuilderFacts.
Context `{wimlib_h}.
Variable stale_ntfs_loc : option ptr.
Variable ntfs_vol_p : Z.

Abbreviation build := (__build_dentry_tree_ntfs stale_ntfs_loc ntfs_vol_p).
Abbreviation capture := (capture_ntfs_streams stale_ntfs_loc ntfs_vol_p).

(** The capture of an object, read by the class of the object. *)
Lemma build_by_class d info index path_len s :
  build d (Inode info index) path_len s =
    match classify info with
    | ReparsePoint =>
        (content <- capture (read_metadata info d) info path_len
                            AT_REPARSE_POINT ;;
         resolve_security info content) s
    | Directory =>
        (content <- enumerate_children stale_ntfs_loc ntfs_vol_p index
                                       (read_metadata info d) path_len ;;
         resolve_security info content) s
    | RegularFile =>
        (content <- capture (read_metadata info d) info path_len AT_DATA ;;
         resolve_security info content) s
    end.
Proof.
  simpl. unfold classify, enumerate_children, resolve_security, bind.
  fold (read_metadata info d).
  destruct (flag_set (ni_attributes info) FILE_ATTR_REPARSE_POINT).
  - destruct (capture _ _ _ _ s) as [[d1 r]|]; reflexivity.
  - destruct (flag_set (mrec_flags info) MFT_RECORD_IS_DIRECTORY).
    + destruct (ntfs_readdir _ _ _ _ s) as [[c r] s1|]; [|reflexivity].
      unfold ret; simpl.
      destruct (negb (r =? 0)) eqn:E; simpl.
      * destruct (WIMLIB_ERR_NTFS_3G =? 0) eqn:E'; reflexivity.
      * rewrite E. reflexivity.
    + destruct (capture _ _ _ _ s) as [[d1 r]|]; reflexivity.
Qed.

(** C8: the capture of an object is a three-way branch on its class,
    the reparse flag taking precedence over the directory bit.  A
    reparse point has its reparse-data streams captured and its index
    is never enumerated (the run is the same whatever the index holds),
    also when the directory bit is set; a directory that is not a
    reparse point is enumerated; any other object has its default-data
    streams captured. *)
Theorem build_dentry_tree_three_way d info index path_len s :
  build d (Inode info index) path_len s =
    match classify info with
    | ReparsePoint =>
        (content <- capture (read_metadata info d) info path_len
                            AT_REPARSE_POINT ;;
         resolve_security info content) s
    | Directory =>
        (content <- enumerate_children stale_ntfs_loc ntfs_vol_p index
                                       (read_metadata info d) path_len ;;
         resolve_security info content) s
    | RegularFile =>
        (content <- capture (read_metadata info d) info path_len AT_DATA ;;
         resolve_security info content) s
    end
  /\ (classify info = ReparsePoint <->
      Z.land (ni_attributes info) FILE_ATTR_REPARSE_POINT <> 0)
  /\ (classify info = Directory <->
      Z.land (ni_attributes info) FILE_ATTR_REPARSE_POINT = 0 /\
      Z.land (mrec_flags info) MFT_RECORD_IS_DIRECTORY <> 0)
  /\ (classify info = RegularFile <->
      Z.land (ni_attributes info) FILE_ATTR_REPARSE_POINT = 0 /\
      Z.land (mrec_flags info) MFT_RECORD_IS_DIRECTORY = 0).
Proof.
  split; [apply build_by_class|].
  unfold classify, flag_set.
  destruct (Z.eqb_spec (Z.land (ni_attributes info)
                               FILE_ATTR_REPARSE_POINT) 0);
    destruct (Z.eqb_spec (Z.land (mrec_flags info)
                                 MFT_RECORD_IS_DIRECTORY) 0);
    simpl; repeat split; intros; try tauto; try congruence;
    try discriminate.
  all: try (destruct H0; congruence).
Qed.

(** What [filldir] does once the name is converted and the child node
    allocated: write the name, capture the child, link it. *)
Lemma filldir_after_alloc ctx name ni u s :
  utf16_to_utf8 name (Z.of_nat (length name) * 2) = Some u ->
  hd true (oracle s) = true ->
  filldir ctx name ni s =
    (write_path (ctx_path_len ctx) (u ++ [0]) ;;;
     built <- match ni with
              | Some capture_child =>
                  capture_child
                    (mk_dentry u 0 0 0 (-1) 0 0 false None [] [])
                    (ctx_path_len ctx + Z.of_nat (length u))
              | None => raise NullDeref
              end ;;
     ret (mk_readdir_ctx (link_dentry (fst built) (ctx_dentry ctx))
                         (ctx_path_len ctx), snd built))
      (with_oracle (tl (oracle s)) s).
Proof.
  intros Hu Ho. unfold filldir. rewrite Hu.
  unfold new_dentry, alloc_ok, bind at 1 2.
  destruct s as [o nodes blobs sd root lt lc tbl pth]; simpl in *.
  destruct o as [|b o]; simpl in *; subst; unfold ret at 1.
  - unfold bind. destruct (write_path _ _ _); [|reflexivity].
    destruct ni as [f|]; [|reflexivity].
    destruct (f _ _ _) as [[c r] s2|]; reflexivity.
  - unfold bind. destruct (write_path _ _ _); [|reflexivity].
    destruct ni as [f|]; [|reflexivity].
    destruct (f _ _ _) as [[c r] s2|]; reflexivity.
Qed.

(** C2, as the source has it: once [filldir] has its child node, the
    node is linked into the parent as the recursive capture left it,
    whatever the capture returned, and the return code of the capture
    is handed back to the enumeration. *)
Theorem filldir_links_child ctx name capture_child u s s1 child r s2 :
  utf16_to_utf8 name (Z.of_nat (length name) * 2) = Some u ->
  hd true (oracle s) = true ->
  write_path (ctx_path_len ctx) (u ++ [0]) (with_oracle (tl (oracle s)) s)
    = Ret tt s1 ->
  capture_child (mk_dentry u 0 0 0 (-1) 0 0 false None [] [])
                (ctx_path_len ctx + Z.of_nat (length u)) s1
    = Ret (child, r) s2 ->
  exists ctx',
    filldir ctx name (Some capture_child) s = Ret (ctx', r) s2 /\
    children (ctx_dentry ctx') = children (ctx_dentry ctx) ++ [child].
Proof.
  intros Hu Ho Hw Hc. eexists. split.
  - rewrite (filldir_after_alloc _ _ _ u) by done.
    unfold bind. rewrite Hw, Hc. reflexivity.
  - reflexivity.
Qed.

(** C4, as the source has it: [filldir] compares nothing with the
    capacity of the path buffer.  With the child node allocated, the
    name and its terminator are written at the offset of the parent's
    path length; when the extended path fits the buffer the write
    stays inside it, keeps the bytes below the parent's path length,
    and the capture of the child goes on with the extended length;
    when it does not fit the write leaves the buffer, and no error
    code is returned. *)
Theorem filldir_writes_name_unchecked ctx name ni u s :
  utf16_to_utf8 name (Z.of_nat (length name) * 2) = Some u ->
  hd true (oracle s) = true ->
  0 <= ctx_path_len ctx ->
  writes_name_unchecked ctx name ni u s.
Proof.
  intros Hu Ho Hpos. unfold writes_name_unchecked.
  set (len := Z.of_nat (length u)).
  set (off := Z.to_nat (ctx_path_len ctx)).
  set (s1 := with_oracle (tl (oracle s)) s).
  rewrite (filldir_after_alloc _ _ _ u) by done.
  fold s1.
  assert (Hlen : Z.of_nat (length (u ++ [0])) = len + 1)
    by (rewrite length_app; simpl; lia).
  assert (Hp : path s1 = path s) by (destruct s; reflexivity).
  case_decide as Hfit; [split; [|split]|].
  - rewrite !length_app, length_take, length_drop. simpl. lia.
  - rewrite take_app_le by (rewrite length_take; lia).
    rewrite take_take. f_equal. lia.
  - unfold bind at 1, write_path, bind at 1, get. rewrite Hp, Hlen.
    replace (_ && _) with true
      by (symmetry; apply andb_true_iff; split; lia).
    unfold modify. rewrite <- (app_assoc u [0]), Z.add_assoc.
    reflexivity.
  - unfold bind at 1, write_path, bind at 1, get. rewrite Hp, Hlen.
    replace (_ && _) with false; [reflexivity|].
    symmetry. apply andb_false_iff. right. lia.
Qed.
End TreeBuilderFacts.

(** The child is linked although its capture failed: the witness of
    [filldir_links_child] is the run in which the security descriptor of
    the child cannot be stored. *)
Lemma filldir_links_child_witness :
  exists child s2, exists ctx',
    filldir sample_ctx [97] (Some capture_sample_child)
            (fresh_session [true; true; true; true; true; false])
      = Ret (ctx', WIMLIB_ERR_NOMEM) s2 /\
    children (ctx_dentry ctx') = children (ctx_dentry sample_ctx) ++ [child].
Proof.
  do 2 eexists.
  eapply (filldir_links_child sample_ctx [97] capture_sample_child [97]).
  - reflexivity.
  - reflexivity.
  - vm_compute. reflexivity.
  - vm_compute. reflexivity.
Defined.

(** C2, as stated, fails on the source: the capture of the file [a]
    returns the out-of-memory error with the security identifier of the
    node still [-1], and the node is in the children of its directory. *)
Lemma filldir_links_failed_child :
  exists ctx' s' child,
    filldir sample_ctx [97] (Some capture_sample_child)
            (fresh_session [true; true; true; true; true; false])
      = Ret (ctx', WIMLIB_ERR_NOMEM) s' /\
    WIMLIB_ERR_NOMEM <> 0 /\
    children (ctx_dentry ctx') = [child] /\
    security_id child = -1 /\
    num_entries (set_sd s') = 0.
Proof.
  do 3 eexists. vm_compute. repeat split; try reflexivity. discriminate.
Qed.

(** The witness of [filldir_writes_name_unchecked]: the name [a] under
    the root, where it fits. *)
Lemma filldir_writes_name_unchecked_witness :
  writes_name_unchecked sample_ctx [97] (Some capture_sample_child) [97]
                        (fresh_session []).
Proof.
  apply filldir_writes_name_unchecked.
  - reflexivity.
  - reflexivity.
  - vm_compute. discriminate.
Defined.

(** C4, as stated, fails on the source: under seventeen nested
    directories with names of 255 bytes the path outgrows the 4096-byte
    buffer; the run does not return an error code, it writes past the
    end of the buffer. *)
Lemma deep_path_overruns_buffer :
  exists s',
    build_dentry_tree_ntfs None 7 root_dentry
      (mk_ntfs_device true (Some (deep_volume 17)) true) empty_sd 0
      (fresh_session [])
    = Fault BufferOverrun s'.
Proof. eexists. vm_compute. reflexivity. Qed.

(** C5, on the source: a directory whose entry refers to an inode that
    cannot be opened.  [filldir] notes the failure and goes on: the
    capture of the child is entered with the null inode and dereferences
    it; no error is handed back to the enumeration. *)
Theorem unopenable_child_is_dereferenced :
  exists s',
    __build_dentry_tree_ntfs None 7 root_dentry broken_entry_volume 1
                             (fresh_session [])
    = Fault NullDeref s'.
Proof. eexists. vm_compute. reflexivity. Qed.

(** C6, on the source: a file whose unnamed stream and whose stream [s]
    hold the same bytes; the named-stream entry cannot be allocated.  The
    second stream reuses the entry of the first, and the error path
    releases that entry although the node and the lookup table still
    refer to it; the location built for it stays allocated. *)
Theorem reused_entry_is_released :
  exists d s',
    capture_ntfs_streams None 7 root_dentry twin_streams 1 AT_DATA
                         (fresh_session [true; true; true; true; false])
      = Ret (d, WIMLIB_ERR_NOMEM) s' /\
    lte d = Some 0%nat /\
    lookup_table s' = [0%nat] /\
    ltes s' = [None] /\
    is_Some (heap_cell (locs s') 0%nat).
Proof.
  do 2 eexists. vm_compute. repeat split; try reflexivity. eexists. reflexivity.
Qed.

(** ** The public entry point *)

(** C10: with the dereference flag set, the entry point returns the
    invalid-parameter error and the [WIMStruct] it was given;
    [do_add_image], through which alone a volume is mounted and capture
    state created, has no part in the result. *)
Theorem add_image_rejects_dereference `{wimlib_h} (WIMStruct : Type)
  (ntfs_vol_of : WIMStruct -> Z)
  (do_add_image :
     WIMStruct -> ntfs_device -> list Z -> list Z -> list Z -> Z ->
     (dentry -> ntfs_device -> wim_security_data -> Z -> M (dentry * Z)) ->
     WIMStruct * Z)
  (stale_ntfs_loc : option ptr) (w : WIMStruct) (device : ntfs_device)
  (name description flags_element : list Z) (flags : Z) :
  Z.land flags WIMLIB_ADD_IMAGE_FLAG_DEREFERENCE <> 0 ->
  wimlib_add_image_from_ntfs_volume WIMStruct ntfs_vol_of do_add_image
    stale_ntfs_loc w device name description flags_element flags
  = (w, WIMLIB_ERR_INVALID_PARAM).
Proof.
  intros Hflag. unfold wimlib_add_image_from_ntfs_volume, flag_set.
  destruct (Z.eqb_spec (Z.land flags WIMLIB_ADD_IMAGE_FLAG_DEREFERENCE) 0);
    [contradiction|reflexivity].
Qed.

(** The witness of [add_image_rejects_dereference]: flags 3 carry the
    dereference bit; the image count of the [WIMStruct] stays 4. *)
Lemma add_image_rejects_dereference_witness :
  Z.land 3 WIMLIB_ADD_IMAGE_FLAG_DEREFERENCE <> 0 /\
  wimlib_add_image_from_ntfs_volume nat Z.of_nat counting_add_image None
    4%nat sample_device [] [] [] 3
  = (4%nat, WIMLIB_ERR_INVALID_PARAM).
Proof.
  split.
  - vm_compute. discriminate.
  - apply add_image_rejects_dereference. vm_compute. discriminate.
Defined.

(** ** Properties of stream capture *)

(** *** Computations that leave the lookup store alone *)

Lemma same_store_refl s : same_store s s.
Proof. split; reflexivity. Qed.

Lemma same_store_trans s1 s2 s3 :
  same_store s1 s2 -> same_store s2 s3 -> same_store s1 s3.
Proof. intros [? ?] [? ?]. split; congruence. Qed.

Lemma keeps_store_ret {A} (a : A) : keeps_store (ret a).
Proof. intros s b s' E. inversion E. apply same_store_refl. Qed.

Lemma keeps_store_raise {A} f : keeps_store (@raise A f).
Proof. intros s b s' E. inversion E. Qed.

Lemma keeps_store_get : keeps_store get.
Proof. intros s b s' E. inversion E. apply same_store_refl. Qed.

Lemma keeps_store_bind {A B} (c : M A) (k : A -> M B) :
  keeps_store c -> (forall a, keeps_store (k a)) -> keeps_store (bind c k).
Proof.
  intros Hc Hk s b s'. unfold bind.
  destruct (c s) as [a s1|] eqn:E; [|discriminate].
  intros Hb. eapply same_store_trans; [eapply Hc | eapply Hk]; eassumption.
Qed.

Lemma keeps_store_modify f :
  (forall s, same_store s (f s)) -> keeps_store (modify f).
Proof. intros Hf s b s' E. inversion E. apply Hf. Qed.

Lemma keeps_store_alloc_ok : keeps_store alloc_ok.
Proof.
  intros s b s'. unfold alloc_ok.
  destruct (oracle s); intros E; inversion E; split; reflexivity.
Qed.

(** Heap operations on the heaps other than that of the lookup table
    entries. *)
Section OtherHeaps.
Context {A : Type}.
Variable cells : state -> list (option A).
Variable with_cells : list (option A) -> state -> state.
Hypothesis with_cells_store : forall h s, same_store s (with_cells h s).

Lemma keeps_store_heap_alloc init :
  keeps_store (heap_alloc cells with_cells init).
Proof.
  unfold heap_alloc. apply keeps_store_bind; [apply keeps_store_alloc_ok|].
  intros [|]; [|apply keeps_store_ret].
  apply keeps_store_bind; [apply keeps_store_get|]. intros s0.
  apply keeps_store_bind; [|intros; apply keeps_store_ret].
  apply keeps_store_modify. auto.
Qed.

Lemma keeps_store_heap_load p : keeps_store (heap_load cells p).
Proof.
  unfold heap_load. apply keeps_store_bind; [apply keeps_store_get|].
  intros s0. destruct (heap_cell _ _);
    [apply keeps_store_ret | apply keeps_store_raise].
Qed.

Lemma keeps_store_heap_store p v :
  keeps_store (heap_store cells with_cells p v).
Proof.
  unfold heap_store.
  apply keeps_store_bind; [apply keeps_store_heap_load|]. intros _.
  apply keeps_store_bind; [apply keeps_store_get|]. intros s0.
  apply keeps_store_modify. auto.
Qed.

Lemma keeps_store_heap_free p :
  keeps_store (heap_free cells with_cells p).
Proof.
  unfold heap_free. destruct p as [p|]; [|apply keeps_store_ret].
  apply keeps_store_bind; [apply keeps_store_get|]. intros s0.
  destruct (heap_cell _ _); [|apply keeps_store_raise].
  apply keeps_store_modify. auto.
Qed.
End OtherHeaps.

Lemma with_sd_nodes_store h s : same_store s (with_sd_nodes h s).
Proof. split; reflexivity. Qed.
Lemma with_sd_blobs_store h s : same_store s (with_sd_blobs h s).
Proof. split; reflexivity. Qed.
Lemma with_locs_store h s : same_store s (with_locs h s).
Proof. split; reflexivity. Qed.
Lemma with_set_sd_store sd s : same_store s (with_set_sd sd s).
Proof. split; reflexivity. Qed.
Lemma with_set_root_store r s : same_store s (with_set_root r s).
Proof. split; reflexivity. Qed.
Lemma with_path_store p s : same_store s (with_path p s).
Proof. split; reflexivity. Qed.
Lemma with_oracle_store o s : same_store s (with_oracle o s).
Proof. split; reflexivity. Qed.

Create HintDb keeps_store.
#[local] Hint Resolve keeps_store_ret keeps_store_raise keeps_store_get
  keeps_store_alloc_ok keeps_store_heap_alloc keeps_store_heap_load
  keeps_store_heap_store keeps_store_heap_free keeps_store_modify
  with_sd_nodes_store with_sd_blobs_store with_locs_store
  with_set_sd_store with_set_root_store with_path_store with_oracle_store
  : keeps_store.

(** Goals [keeps_store c] are solved along the structure of [c]. *)
Ltac keeps_store :=
  repeat first
    [ solve [eauto with keeps_store]
    | apply keeps_store_bind; [|intros ?]
    | match goal with
      | |- keeps_store (match ?x with _ => _ end) => destruct x
      | |- keeps_store (let '(_, _) := ?x in _) => destruct x
      end ].

Section SdSetKeepsStore.
Context `{wimlib_h}.

Lemma keeps_store_wimlib_assert b : keeps_store (wimlib_assert b).
Proof. unfold wimlib_assert. keeps_store. Qed.

Lemma keeps_store_lookup_sd fuel hash root :
  keeps_store (lookup_sd fuel hash root).
Proof.
  intros s v s' E. apply lookup_sd_pure in E as ->. apply same_store_refl.
Qed.

Lemma keeps_store_insert_sd_node fuel new root :
  keeps_store (insert_sd_node fuel new root).
Proof.
  revert root. induction fuel as [|fuel IH]; intros root; simpl.
  - keeps_store.
  - unfold load_node, store_node.
    apply keeps_store_bind; [keeps_store|]. intros n_new.
    apply keeps_store_bind; [keeps_store|]. intros n_root.
    destruct (_ <? 0).
    + destruct (node_left n_root); [apply IH | keeps_store].
    + destruct (0 <? _).
      * destruct (node_right n_root); [apply IH | keeps_store].
      * apply keeps_store_wimlib_assert.
Qed.

Lemma keeps_store_REALLOC {A} (arr : list (option A)) n :
  keeps_store (REALLOC arr n).
Proof. unfold REALLOC. keeps_store. Qed.

(** The index of security descriptors and the lookup table of streams
    do not meet. *)
Lemma keeps_store_sd_set_add_sd descriptor :
  keeps_store (sd_set_add_sd descriptor).
Proof.
  unfold sd_set_add_sd, tree_fuel, load_node, store_node.
  pose proof keeps_store_lookup_sd. pose proof keeps_store_insert_sd_node.
  pose proof @keeps_store_REALLOC.
  keeps_store.
Qed.
End SdSetKeepsStore.

(** *** The digest of a stream *)

Section DigestFacts.
Context `{wimlib_h}.

Lemma sha1sum_loop_ok ar fuel pos rem ctx ctx' :
  0 <= pos ->
  rem = Z.of_nat (length (ar_data ar)) - pos ->
  0 <= rem ->
  sha1sum_loop fuel ar pos rem ctx = Some (0, ctx') ->
  ctx' = ctx ++ drop (Z.to_nat pos) (ar_data ar).
Proof.
  revert pos rem ctx.
  induction fuel as [|fuel IH]; intros pos rem ctx Hpos Hrem Hge; simpl.
  - discriminate.
  - destruct (Z.eqb_spec rem 0) as [H0|H0].
    + intros [= <-]. rewrite drop_ge by lia. by rewrite app_nil_r.
    + unfold ntfs_attr_pread. case_decide.
      * cbv beta iota zeta.
        destruct (Z.eqb_spec (-1) (Z.min rem 4096)); [lia|].
        cbv beta iota zeta delta [negb].
        intros [= E]. by destruct ntfs_3g_nonzero.
      * set (k := Z.min rem 4096).
        assert (Hk0 : 0 < k <= rem) by (unfold k; lia).
        clearbody k.
        assert (Hk : length (take (Z.to_nat k)
                       (drop (Z.to_nat pos) (ar_data ar))) = Z.to_nat k).
        { rewrite length_take, length_drop. lia. }
        cbv beta iota zeta. rewrite Hk.
        rewrite Z2Nat.id, Z.eqb_refl by lia.
        cbv beta iota zeta delta [negb].
        intros E. apply IH in E; [|lia..].
        rewrite E. unfold sha1_update. rewrite <- app_assoc. f_equal.
        replace (Z.to_nat (pos + k)) with (Z.to_nat pos + Z.to_nat k)%nat
          by lia.
        rewrite <- drop_drop. by rewrite take_drop.
Qed.

(** The step budget of [ntfs_attr_sha1sum] is never used up: every
    round of the loop reads at least one byte. *)
Lemma sha1sum_loop_total ar fuel pos rem ctx :
  0 <= rem ->
  (Z.to_nat rem < fuel)%nat ->
  is_Some (sha1sum_loop fuel ar pos rem ctx).
Proof.
  revert pos rem ctx.
  induction fuel as [|fuel IH]; intros pos rem ctx Hge Hlt; [lia|].
  simpl. destruct (Z.eqb_spec rem 0) as [H0|H0]; [by eexists|].
  destruct (ntfs_attr_pread ar pos (Z.min rem 4096)) as [n buf].
  destruct (negb (n =? Z.min rem 4096)); [by eexists|].
  apply IH; lia.
Qed.

Lemma ntfs_attr_sha1sum_total ar s :
  exists r hash, ntfs_attr_sha1sum ar s = Ret (r, hash) s.
Proof.
  unfold ntfs_attr_sha1sum. destruct (ar_opens ar); cbv beta iota delta [negb].
  - destruct (sha1sum_loop_total ar (S (length (ar_data ar))) 0
                (Z.of_nat (length (ar_data ar))) sha1_init)
      as [[r ctx] ->]; [lia..|].
    destruct (r =? 0); by do 2 eexists.
  - by do 2 eexists.
Qed.

(** A successful [ntfs_attr_sha1sum] yields the SHA-1 of all the bytes
    of the attribute, and leaves the session memory alone. *)
Lemma ntfs_attr_sha1sum_ok ar s r hash s' :
  ntfs_attr_sha1sum ar s = Ret (r, hash) s' ->
  s' = s /\ (r = 0 -> hash = digest ar).
Proof.
  unfold ntfs_attr_sha1sum.
  destruct (ar_opens ar); cbv beta iota delta [negb].
  - unfold raise, ret.
    destruct (sha1sum_loop _ ar _ _ _) as [[r0 ctx]|] eqn:E; [|discriminate].
    destruct (Z.eqb_spec r0 0) as [->|Hr].
    + intros Hx; inversion Hx; subst. split; [done|]. intros _.
      apply sha1sum_loop_ok in E; [|lia..].
      subst ctx. unfold sha1_final, sha1_init, digest. simpl.
      by rewrite drop_0.
    + intros Hx; inversion Hx; subst. split; [done|]. intros; done.
  - intros Hx; inversion Hx; subst. split; [done|].
    intros E. by destruct ntfs_3g_nonzero.
Qed.
End DigestFacts.

(** *** The lookup table under the updates of the capture *)

Lemma find_resource_live h tbl hash :
  live h tbl -> is_Some (find_resource h tbl hash).
Proof.
  induction 1 as [|p tbl [e He] _ IH]; simpl; [by eexists|].
  rewrite He. case_decide; [by eexists | done].
Qed.

Lemma find_resource_hit h tbl hash p :
  find_resource h tbl hash = Some (Some p) ->
  exists e, heap_cell h p = Some e /\ lte_hash e = hash.
Proof.
  induction tbl as [|q tbl IH]; simpl; [discriminate|].
  destruct (heap_cell h q) as [e|] eqn:E; [|discriminate].
  case_decide; [|done]. intros [= <-]. eauto.
Qed.

(** An update that keeps the digest of an entry keeps every lookup. *)
Lemma find_resource_insert h tbl p e e' hash :
  heap_cell h p = Some e ->
  lte_hash e' = lte_hash e ->
  find_resource (<[p := Some e']> h) tbl hash = find_resource h tbl hash.
Proof.
  intros Hp Hh. induction tbl as [|q tbl IH]; simpl; [done|].
  rewrite (heap_cell_insert h p q e' e Hp). case_decide as Hq.
  - subst q. rewrite Hp, Hh. case_decide; done.
  - destruct (heap_cell h q); [|done]. case_decide; done.
Qed.

(** A new cell at the end of the heap is seen by no lookup yet. *)
Lemma find_resource_app_heap h tbl x hash :
  live h tbl ->
  find_resource (h ++ x) tbl hash = find_resource h tbl hash.
Proof.
  induction 1 as [|p tbl Hp _ IH]; simpl; [done|].
  rewrite heap_cell_app by done.
  destruct (heap_cell h p); [|done]. case_decide; done.
Qed.

(** An entry appended to the table is found when nothing before it
    matches. *)
Lemma find_resource_app_tbl h tbl p hash :
  find_resource h (tbl ++ [p]) hash =
    match find_resource h tbl hash with
    | Some None => find_resource h [p] hash
    | r => r
    end.
Proof.
  induction tbl as [|q tbl IH]; simpl; [done|].
  destruct (heap_cell h q); [|done]. case_decide; done.
Qed.

(** *** One stream *)

Lemma entry_for_hit s hash p :
  entry_for s hash = Some p ->
  exists e, heap_cell (ltes s) p = Some e /\ lte_hash e = hash.
Proof.
  unfold entry_for. intros E.
  apply (find_resource_hit _ (lookup_table s)).
  destruct (find_resource _ _ _) as [[q|]|]; simpl in E; congruence.
Qed.

Lemma same_store_entry_for s s' hash :
  same_store s s' -> entry_for s' hash = entry_for s hash.
Proof. intros [E1 E2]. unfold entry_for. by rewrite E1, E2. Qed.

Lemma same_store_refcnt_of s s' hash :
  same_store s s' -> refcnt_of s' hash = refcnt_of s hash.
Proof.
  intros E. unfold refcnt_of. rewrite (same_store_entry_for s s') by done.
  destruct E as [-> _]. done.
Qed.

Lemma same_store_ok s s' : same_store s s' -> store_ok s -> store_ok s'.
Proof. intros [E1 E2]. unfold store_ok. by rewrite E1, E2. Qed.

(** The stream is already known: its entry is counted once more. *)
Lemma stream_step_hit s s1 hash p e :
  store_ok s ->
  find_resource (ltes s) (lookup_table s) hash = Some (Some p) ->
  heap_cell (ltes s) p = Some e ->
  ltes s1 = <[p := Some (bump_refcnt e)]> (ltes s) ->
  lookup_table s1 = lookup_table s ->
  stream_step s s1 hash p.
Proof.
  intros Hok Hfind He Hl Ht.
  assert (Hentry : forall h, entry_for s1 h = entry_for s h).
  { intros h. unfold entry_for. rewrite Hl, Ht.
    by rewrite (find_resource_insert _ _ p e). }
  assert (Hp : entry_for s hash = Some p)
    by (unfold entry_for; by rewrite Hfind).
  repeat split.
  - unfold store_ok in *. rewrite Hl, Ht.
    eapply List.Forall_impl; [|exact Hok]. intros q Hq. simpl.
    rewrite (heap_cell_insert _ p q _ e He). case_decide; [by eexists|done].
  - by rewrite Hentry.
  - intros h q. by rewrite Hentry.
  - intros h. unfold refcnt_of. rewrite Hentry.
    destruct (entry_for s h) as [q|] eqn:Eq.
    + rewrite Hl, (heap_cell_insert _ p q _ e He).
      destruct (entry_for_hit _ _ _ Eq) as (eq & Hq & Hh).
      destruct (entry_for_hit _ _ _ Hp) as (ep & Hp' & Hh').
      case_decide as Hqp; case_decide as Hhh; subst.
      * rewrite He. simpl. done.
      * congruence.
      * congruence.
      * rewrite Hq. lia.
    + case_decide; [congruence|lia].
Qed.

(** The stream is new: an entry with one owner is appended for it. *)
Lemma stream_step_miss s s1 hash enew :
  store_ok s ->
  find_resource (ltes s) (lookup_table s) hash = Some None ->
  ltes s1 = ltes s ++ [Some enew] ->
  lookup_table s1 = lookup_table s ++ [length (ltes s)] ->
  lte_hash enew = hash ->
  lte_refcnt enew = 1 ->
  stream_step s s1 hash (length (ltes s)).
Proof.
  intros Hok Hfind Hl Ht Hh Hr.
  assert (Hnew : heap_cell (ltes s ++ [Some enew]) (length (ltes s))
                 = Some enew) by apply heap_cell_snoc_Some.
  assert (Hentry : forall h,
    entry_for s1 h =
      match entry_for s h with
      | Some q => Some q
      | None => if decide (h = hash) then Some (length (ltes s)) else None
      end).
  { intros h. unfold entry_for. rewrite Hl, Ht, find_resource_app_tbl.
    rewrite find_resource_app_heap by exact Hok.
    destruct (find_resource_live (ltes s) (lookup_table s) h Hok)
      as [[q|] ->]; simpl; [done|].
    rewrite Hnew, Hh. repeat case_decide; first [reflexivity | congruence]. }
  assert (Hnone : entry_for s hash = None)
    by (unfold entry_for; by rewrite Hfind).
  repeat split.
  - unfold store_ok in *. rewrite Hl, Ht. apply Forall_app. split.
    + eapply List.Forall_impl; [|exact Hok]. intros q Hq. simpl.
      by rewrite heap_cell_app.
    + constructor; [|constructor]. rewrite Hnew. by eexists.
  - rewrite Hentry, Hnone. by case_decide.
  - intros h q Hq. by rewrite Hentry, Hq.
  - intros h. unfold refcnt_of. rewrite Hentry.
    destruct (entry_for s h) as [q|] eqn:Eq.
    + destruct (entry_for_hit _ _ _ Eq) as (eq & Hq & Hhq).
      rewrite Hl, heap_cell_app by (by eexists). rewrite Hq.
      case_decide; [congruence|lia].
    + case_decide; [|lia]. rewrite Hl, Hnew, Hr. lia.
Qed.

(** *** Reading a successful run backwards *)

Lemma bind_Ret {A B} (c : M A) (k : A -> M B) s b s' :
  bind c k s = Ret b s' ->
  exists a s1, c s = Ret a s1 /\ k a s1 = Ret b s'.
Proof.
  unfold bind. destruct (c s) as [a s1|]; [|discriminate]. eauto.
Qed.

Lemma load_lte_Ret p s e s1 :
  load_lte p s = Ret e s1 -> s1 = s /\ heap_cell (ltes s) p = Some e.
Proof.
  unfold load_lte, heap_load, bind, get.
  destruct (heap_cell (ltes s) p); intros E; inversion E; done.
Qed.

Lemma store_lte_Ret p v s u s1 :
  store_lte p v s = Ret u s1 ->
  ltes s1 = <[p := Some v]> (ltes s) /\ lookup_table s1 = lookup_table s.
Proof.
  unfold store_lte, heap_store. intros E.
  apply bind_Ret in E as (e & s0 & E0 & E).
  apply load_lte_Ret in E0 as [-> _].
  unfold bind, get, modify in E. inversion E. done.
Qed.

Lemma new_lookup_table_entry_Ret s r s1 :
  new_lookup_table_entry s = Ret r s1 ->
  (r = None /\ same_store s s1) \/
  (r = Some (length (ltes s)) /\
   ltes s1 = ltes s ++ [Some blank_lte] /\
   lookup_table s1 = lookup_table s).
Proof.
  unfold new_lookup_table_entry, heap_alloc. intros E.
  apply bind_Ret in E as (ok & s0 & E0 & E).
  apply keeps_store_alloc_ok in E0 as [El Et].
  destruct ok.
  - right. unfold bind, get, modify, ret in E. inversion E; subst.
    destruct s0; simpl in *. subst. done.
  - left. inversion E; subst. done.
Qed.

Lemma lookup_table_insert_Ret p s u s1 :
  lookup_table_insert p s = Ret u s1 ->
  ltes s1 = ltes s /\ lookup_table s1 = lookup_table s ++ [p].
Proof. intros E. inversion E. done. Qed.

(** *** The loop over the streams of one object *)

Section CaptureFacts.
Context `{wimlib_h}.
Variable stale_ntfs_loc : option ptr.
Variable ntfs_vol_p : Z.

(** The exit labels hand back the code they are entered with. *)
Lemma out_free_ntfs_loc_code d r s d' r' s' :
  out_free_ntfs_loc stale_ntfs_loc d r s = Ret (d', r') s' -> r' = r.
Proof.
  unfold out_free_ntfs_loc, out_put_actx. unfold bind at 1.
  destruct (_ s) as [[] s1|]; intros E; inversion E; done.
Qed.

Lemma out_free_lte_code p d r s d' r' s' :
  out_free_lte stale_ntfs_loc p d r s = Ret (d', r') s' -> r' = r.
Proof.
  unfold out_free_lte, bind.
  destruct (free_lookup_table_entry p s); [|discriminate].
  apply out_free_ntfs_loc_code.
Qed.

(** A successful run through the entry block: the store has made the
    step for the digest, and the rest of the body ran from there. *)
Lemma stream_entry_ok ar hash path_len d r next s d' s' :
  store_ok s ->
  r <> 0 ->
  stream_entry stale_ntfs_loc ntfs_vol_p ar hash path_len d r next s
    = Ret (d', 0) s' ->
  exists p s1, stream_step s s1 hash p /\ next p s1 = Ret (d', 0) s'.
Proof.
  intros Hok Hr E. unfold stream_entry in E.
  apply bind_Ret in E as (found & s0 & E0 & E).
  assert (s0 = s /\
          find_resource (ltes s) (lookup_table s) hash = Some found)
    as [-> Ef].
  { unfold __lookup_resource, bind, get in E0.
    destruct (find_resource _ _ _); inversion E0; done. }
  clear E0. destruct found as [p|].
  - (* the stream is known already *)
    apply bind_Ret in E as (e & s1 & E1 & E).
    apply load_lte_Ret in E1 as [-> He].
    apply bind_Ret in E as (u & s2 & E2 & E).
    apply store_lte_Ret in E2 as [Hl Ht].
    exists p, s2. split; [|exact E].
    by eapply stream_step_hit.
  - (* a new entry is made *)
    apply bind_Ret in E as (loc & s1 & E1 & E).
    apply (keeps_store_heap_alloc _ _ with_locs_store) in E1 as S1.
    destruct loc as [loc|]; [|inversion E; congruence].
    apply bind_Ret in E as (u2 & s2 & E2 & E).
    apply (keeps_store_heap_store _ _ with_locs_store) in E2 as S2.
    apply bind_Ret in E as (ok3 & s3 & E3 & E).
    apply keeps_store_alloc_ok in E3 as S3.
    destruct ok3; simpl in E;
      [|apply out_free_ntfs_loc_code in E; congruence].
    apply bind_Ret in E as (path_copy & s4 & E4 & E).
    assert (S4 : s4 = s3).
    { unfold read_path, bind, get in E4.
      destruct (_ && _); inversion E4; done. }
    subst s4.
    apply bind_Ret in E as (u5 & s5 & E5 & E).
    apply (keeps_store_heap_store _ _ with_locs_store) in E5 as S5.
    apply bind_Ret in E as (ok6 & s6 & E6 & E).
    apply keeps_store_alloc_ok in E6 as S6.
    destruct ok6; simpl in E;
      [|apply out_free_ntfs_loc_code in E; congruence].
    apply bind_Ret in E as (u7 & s7 & E7 & E).
    apply (keeps_store_heap_store _ _ with_locs_store) in E7 as S7.
    assert (S : same_store s s7)
      by (repeat (eapply same_store_trans; [eassumption|]);
          apply same_store_refl).
    destruct S as [Sl St].
    apply bind_Ret in E as (entry & s8 & E8 & E).
    apply new_lookup_table_entry_Ret in E8
      as [[-> _]|(-> & Hl8 & Ht8)];
      [apply out_free_ntfs_loc_code in E; congruence|].
    apply bind_Ret in E as (e & s9 & E9 & E).
    apply load_lte_Ret in E9 as [-> He].
    rewrite Hl8, heap_cell_snoc_Some in He. injection He as <-.
    apply bind_Ret in E as (u10 & s10 & E10 & E).
    apply store_lte_Ret in E10 as [Hl10 Ht10].
    apply bind_Ret in E as (u11 & s11 & E11 & E).
    apply lookup_table_insert_Ret in E11 as [Hl11 Ht11].
    rewrite Sl in *.
    exists (length (ltes s)), s11. split; [|exact E].
    eapply stream_step_miss; try eassumption; try reflexivity.
    + rewrite Hl11, Hl10, Hl8. apply insert_snoc.
    + rewrite Ht11, Ht10, Ht8, St. reflexivity.
    + reflexivity.
    + reflexivity.
Qed.

(** A successful run through the attach block: the node carries the
    reference, the store is as it was, and the loop went on from there. *)
Lemma attach_stream_ok ar d r p next s d' s' :
  r <> 0 ->
  attach_stream stale_ntfs_loc ar d r p next s = Ret (d', 0) s' ->
  exists d1 s1,
    same_store s s1 /\ next d1 s1 = Ret (d', 0) s' /\
    if name_length ar =? 0 then d1 = with_lte (Some p) d
    else exists u,
      utf16_to_utf8 (ar_name ar) (name_length ar) = Some u /\
      d1 = with_ads_entries
             (ads_entries d ++ [mk_ads_entry (Released u) (Some p)]) d.
Proof.
  intros Hr E. unfold attach_stream in E.
  destruct (name_length ar =? 0).
  - apply bind_Ret in E as (u & s1 & E1 & E).
    apply keeps_store_wimlib_assert in E1. eauto.
  - destruct (utf16_to_utf8 _ _) as [u|];
      [|apply out_free_lte_code in E; congruence].
    apply bind_Ret in E as (added & s1 & E1 & E).
    unfold dentry_add_ads in E1.
    apply bind_Ret in E1 as (ok & s0 & E0 & E1).
    apply keeps_store_alloc_ok in E0.
    destruct ok; inversion E1; subst;
      [|apply out_free_lte_code in E; congruence].
    eexists _, s1. split; [done|]. split; [exact E|].
    exists u. split; [done|].
    unfold set_new_ads_lte. simpl.
    rewrite reverse_app. simpl. rewrite reverse_involutive. reflexivity.
Qed.

Lemma occurrences_in_cons h ar ars :
  occurrences_in h (ar :: ars) =
    (if decide (h = digest ar) then 1 else 0) + occurrences_in h ars.
Proof.
  unfold occurrences_in. rewrite filter_cons.
  repeat case_decide; simpl; try congruence; lia.
Qed.

Lemma capture_loop_ok ars path_len d s d' s' :
  store_ok s ->
  capture_loop stale_ntfs_loc ntfs_vol_p ars path_len d s = Ret (d', 0) s' ->
  streams_attached (entry_for s') ars d d' /\
  store_grown s s' (fun h => occurrences_in h ars).
Proof.
  revert d s. induction ars as [|ar rest IH]; intros d s Hok E;
    cbn [capture_loop] in E.
  - inversion E; subst. split; [reflexivity|].
    split; [done|]. split; [done|]. intros h.
    unfold occurrences_in. simpl. lia.
  - apply bind_Ret in E as ([r0 hash] & s0 & E0 & E).
    apply ntfs_attr_sha1sum_ok in E0 as [-> Hhash].
    cbv beta iota in E.
    destruct (Z.eqb_spec r0 0) as [->|Hr0]; cbn [negb] in E;
      [|inversion E; congruence].
    rewrite (Hhash eq_refl) in E. clear Hhash hash.
    apply stream_entry_ok in E as (p & s1 & Hstep & E);
      [|done|apply nomem_nonzero].
    apply attach_stream_ok in E as (d1 & s2 & S12 & E & Hd1);
      [|apply nomem_nonzero].
    destruct Hstep as (Hok1 & Hp & Hkeep & Hcnt).
    apply IH in E as (Hatt & Hok' & Hkeep' & Hcnt');
      [|by eapply same_store_ok].
    assert (Hp' : entry_for s' (digest ar) = Some p).
    { apply Hkeep'. by rewrite (same_store_entry_for s1 s2). }
    split; [|split; [done|split]].
    + simpl. exists p. split; [done|].
      destruct (name_length ar =? 0).
      * by subst d1.
      * destruct Hd1 as (u & Hu & ->). eauto.
    + intros h q Hq. apply Hkeep'.
      rewrite (same_store_entry_for s1 s2) by done. by apply Hkeep.
    + intros h. rewrite Hcnt', (same_store_refcnt_of s1 s2), Hcnt by done.
      rewrite occurrences_in_cons. lia.
Qed.

(** [capture_ntfs_streams] on the streams of one type. *)
Lemma capture_ntfs_streams_ok d info path_len type s d' s' :
  store_ok s ->
  capture_ntfs_streams stale_ntfs_loc ntfs_vol_p d info path_len type s
    = Ret (d', 0) s' ->
  let ars := filter (fun ar => ar_type ar = type) (attrs info) in
  streams_attached (entry_for s') ars d d' /\
  store_grown s s' (fun h => occurrences_in h ars).
Proof.
  intros Hok E ars. unfold capture_ntfs_streams in E.
  destruct (search_ctx_ok info); cbn [negb] in E.
  - eapply capture_loop_ok; eassumption.
  - inversion E. by destruct ntfs_3g_nonzero.
Qed.
End CaptureFacts.

(** ** Sharing of identical streams over a whole capture *)

Scheme ntfs_inode_mut := Induction for ntfs_inode Sort Prop
  with dir_index_mut := Induction for dir_index Sort Prop.
Combined Scheme ntfs_volume_ind from ntfs_inode_mut, dir_index_mut.

Lemma store_grown_refl s : store_ok s -> store_grown s s (fun _ => 0).
Proof. intros Hok. split; [done|]. split; [done|]. intros h. lia. Qed.

Lemma store_grown_trans s s1 s2 f g :
  store_grown s s1 f -> store_grown s1 s2 g ->
  store_grown s s2 (fun h => f h + g h).
Proof.
  intros (_ & K1 & C1) (Hok & K2 & C2). split; [done|]. split.
  - intros h q Hq. by apply K2, K1.
  - intros h. rewrite C2, C1. lia.
Qed.

Lemma store_grown_ext s s' f g :
  (forall h, f h = g h) -> store_grown s s' f -> store_grown s s' g.
Proof.
  intros Hfg (Hok & K & C). split; [done|]. split; [done|].
  intros h. by rewrite C, Hfg.
Qed.

Lemma store_grown_before s s1 s2 f :
  same_store s s1 -> store_grown s1 s2 f -> store_grown s s2 f.
Proof.
  intros S (Hok & K & C). split; [done|]. split.
  - intros h q Hq. apply K. by rewrite (same_store_entry_for s s1).
  - intros h. by rewrite C, (same_store_refcnt_of s s1).
Qed.

Lemma store_grown_after s s1 s2 f :
  store_grown s s1 f -> same_store s1 s2 -> store_grown s s2 f.
Proof.
  intros (Hok & K & C) S. split; [by eapply same_store_ok|]. split.
  - intros h q Hq. rewrite (same_store_entry_for s1 s2) by done. by apply K.
  - intros h. by rewrite (same_store_refcnt_of s1 s2), C.
Qed.

Section Sharing.
Context `{wimlib_h}.
Variable stale_ntfs_loc : option ptr.
Variable ntfs_vol_p : Z.

Lemma streams_attached_more lk lk' ars d d' :
  answers_more lk lk' ->
  streams_attached lk ars d d' -> streams_attached lk' ars d d'.
Proof.
  intros Hlk. revert d. induction ars as [|ar rest IH]; intros d; simpl.
  - done.
  - intros (p & Hp & Hrest). exists p. split; [by apply Hlk|].
    destruct (name_length ar =? 0); [by apply IH|].
    destruct Hrest as (u & Hu & Hrest). exists u. split; [done|].
    by apply IH.
Qed.

Lemma attached_more lk lk' :
  answers_more lk lk' ->
  (forall ni d d', tree_attached lk ni d d' -> tree_attached lk' ni d d') /\
  (forall index d d',
     index_attached lk index d d' -> index_attached lk' index d d').
Proof.
  intros Hlk. apply ntfs_volume_ind.
  - intros info index IH d d' (d1 & id & Hc & ->). exists d1, id.
    split; [|done].
    destruct (classify info);
      [by eapply streams_attached_more | by apply IH
      | by eapply streams_attached_more].
  - done.
  - done.
  - intros name ni IHni rest IHrest d d' (u & child & Hu & Hni & Hrest).
    exists u, child. split; [done|]. split; [by apply IHni|by apply IHrest].
  - done.
Qed.

(** The security step of a successful capture. *)
Lemma resolve_security_ok info d1 r1 s1 d' s' :
  resolve_security info (d1, r1) s1 = Ret (d', 0) s' ->
  r1 = 0 /\ same_store s1 s' /\ exists id, d' = with_security_id id d1.
Proof.
  unfold resolve_security.
  destruct (Z.eqb_spec r1 0) as [->|Hr]; cbn [negb];
    [|intros E; inversion E; congruence].
  intros E. apply bind_Ret in E as (id & s2 & E2 & E).
  apply keeps_store_sd_set_add_sd in E2.
  destruct (id =? -1); inversion E; subst.
  - by destruct nomem_nonzero.
  - eauto.
Qed.

(** A successful call of the directory callback. *)
Lemma filldir_ok ctx name capture_child s ctx1 s1 :
  filldir ctx name (Some capture_child) s = Ret (ctx1, 0) s1 ->
  exists u sa child,
    utf16_to_utf8 name (Z.of_nat (length name) * 2) = Some u /\
    same_store s sa /\
    capture_child (mk_dentry u 0 0 0 (-1) 0 0 false None [] [])
                  (ctx_path_len ctx + Z.of_nat (length u)) sa
      = Ret (child, 0) s1 /\
    ctx1 = mk_readdir_ctx (link_dentry child (ctx_dentry ctx))
                          (ctx_path_len ctx).
Proof.
  unfold filldir. destruct (utf16_to_utf8 _ _) as [u|]; [|discriminate].
  intros E. apply bind_Ret in E as (child0 & s0 & E0 & E).
  unfold new_dentry in E0. apply bind_Ret in E0 as (ok & s00 & E00 & E0).
  apply keeps_store_alloc_ok in E00.
  destruct ok; inversion E0; subst; [|discriminate].
  apply bind_Ret in E as (u1 & sa & Ea & E).
  assert (Sa : same_store s0 sa).
  { unfold write_path, bind, get, modify in Ea.
    destruct (_ && _); inversion Ea. split; reflexivity. }
  apply bind_Ret in E as ([child r] & sb & Eb & E).
  inversion E; subst.
  exists u, sa, child. split; [done|]. split; [|done].
  by eapply same_store_trans.
Qed.

(** The callback cannot succeed on an entry whose inode does not open. *)
Lemma filldir_broken ctx name s ctx1 s1 :
  filldir ctx name None s <> Ret (ctx1, 0) s1.
Proof.
  unfold filldir. destruct (utf16_to_utf8 _ _) as [u|]; [|discriminate].
  intros E. apply bind_Ret in E as (child0 & s0 & E0 & E).
  destruct child0 as [child0|]; [|discriminate].
  apply bind_Ret in E as (u1 & sa & Ea & E).
  apply bind_Ret in E as (built & sb & Eb & E). discriminate.
Qed.

Abbreviation build := (__build_dentry_tree_ntfs stale_ntfs_loc ntfs_vol_p).
Abbreviation readdir := (ntfs_readdir stale_ntfs_loc ntfs_vol_p).

(** A successful capture of an object and of everything below it, and a
    successful enumeration of a directory index. *)
Lemma capture_tree_ok :
  (forall ni d path_len s d' s',
     store_ok s ->
     build d ni path_len s = Ret (d', 0) s' ->
     tree_attached (entry_for s') ni d d' /\
     store_grown s s' (fun h => occurrences h ni)) /\
  (forall index ctx s ctx' s',
     store_ok s ->
     readdir index ctx s = Ret (ctx', 0) s' ->
     index_attached (entry_for s') index (ctx_dentry ctx) (ctx_dentry ctx') /\
     store_grown s s' (fun h => index_occurrences h index)).
Proof.
  apply ntfs_volume_ind.
  - (* an inode *)
    intros info index IH d path_len s d' s' Hok E.
    rewrite build_by_class in E.
    cbn [tree_attached occurrences]. unfold captured_attrs.
    destruct (classify info) eqn:Ec.
    + apply bind_Ret in E as ([d1 r1] & s1 & E1 & E).
      apply resolve_security_ok in E as (-> & S & id & ->).
      apply capture_ntfs_streams_ok in E1 as (Hatt & Hg); [|done].
      split.
      * exists d1, id. split; [|done].
        eapply streams_attached_more; [|exact Hatt].
        intros h q. by rewrite (same_store_entry_for s1 s').
      * eapply store_grown_ext; [|by eapply store_grown_after].
        intros h. simpl. lia.
    + apply bind_Ret in E as ([d1 r1] & s1 & E1 & E).
      apply resolve_security_ok in E as (-> & S & id & ->).
      unfold enumerate_children in E1.
      apply bind_Ret in E1 as ([ctx1 r] & sx & Ex & E1).
      inversion E1; subst. clear E1.
      destruct (Z.eqb_spec r 0) as [->|Hr]; cbn [negb snd] in *;
        [|by destruct ntfs_3g_nonzero].
      apply IH in Ex as (Hatt & Hg); [|done].
      split.
      * exists (ctx_dentry ctx1), id. split; [|done].
        refine (proj2 (attached_more (entry_for s1) (entry_for s') _)
                  _ _ _ Hatt).
        intros h q. by rewrite (same_store_entry_for s1 s').
      * eapply store_grown_ext; [|by eapply store_grown_after].
        intros h. unfold occurrences_in. simpl. lia.
    + apply bind_Ret in E as ([d1 r1] & s1 & E1 & E).
      apply resolve_security_ok in E as (-> & S & id & ->).
      apply capture_ntfs_streams_ok in E1 as (Hatt & Hg); [|done].
      split.
      * exists d1, id. split; [|done].
        eapply streams_attached_more; [|exact Hatt].
        intros h q. by rewrite (same_store_entry_for s1 s').
      * eapply store_grown_ext; [|by eapply store_grown_after].
        intros h. simpl. lia.
  - (* the end of an index *)
    intros ctx s ctx' s' Hok E. inversion E; subst.
    split; [reflexivity|]. by apply store_grown_refl.
  - (* an index that breaks off *)
    intros ctx s ctx' s' Hok E. inversion E.
  - (* an entry *)
    intros name ni IHni rest IHrest ctx s ctx' s' Hok E.
    cbn [ntfs_readdir] in E.
    apply bind_Ret in E as ([ctx1 r] & s1 & E1 & E).
    destruct (Z.eqb_spec r 0) as [->|Hr]; cbn [negb] in E;
      [|inversion E].
    apply filldir_ok in E1 as (u & sa & child & Hu & S & Ec & ->).
    apply IHni in Ec as (Hchild & Hg1); [|by eapply same_store_ok].
    apply IHrest in E as (Hrest & Hg2); [|apply Hg1].
    split.
    + cbn [index_attached]. exists u, child. split; [done|].
      split; [|exact Hrest].
      destruct Hg2 as (_ & K2 & _).
      by apply (proj1 (attached_more (entry_for s1) (entry_for s') K2)).
    + eapply store_grown_before; [exact S|].
      eapply store_grown_ext; [|eapply store_grown_trans; eassumption].
      intros h. reflexivity.
  - (* an entry whose inode does not open *)
    intros name rest IHrest ctx s ctx' s' Hok E.
    cbn [ntfs_readdir] in E.
    apply bind_Ret in E as ([ctx1 r] & s1 & E1 & E).
    destruct (Z.eqb_spec r 0) as [->|Hr]; cbn [negb] in E;
      [|inversion E].
    by apply filldir_broken in E1.
Qed.

End Sharing.


(** The scenario of the design: two files with the content "hello" and
    different security descriptors.  Both nodes refer to entry 0, whose
    count is 2, and carry the identifiers 0 and 1. *)
Example two_files_share_hello :
  exists d' s' a b e,
    __build_dentry_tree_ntfs None 7 root_dentry two_files_volume 1
                             (fresh_session []) = Ret (d', 0) s' /\
    children d' = [a; b] /\
    lte a = Some 0%nat /\ lte b = Some 0%nat /\
    ltes s' = [Some e] /\ lte_refcnt e = 2 /\
    lte_hash e = sha1_buffer hello /\
    security_id a = 0 /\ security_id b = 1.
Proof. do 5 eexists. vm_compute. repeat split; reflexivity. Qed.

(** * Further properties of the code *)

(** ** Frames *)

Section KeepsFacts.
Context (R : state -> state -> Prop) `{!Frame R}.

Lemma keeps_ret {A} (a : A) : keeps R (ret a).
Proof. intros s b s' E. inversion E. apply frame_refl. Qed.

Lemma keeps_raise {A} f : keeps R (@raise A f).
Proof. intros s b s' E. inversion E. Qed.

Lemma keeps_get : keeps R get.
Proof. intros s b s' E. inversion E. apply frame_refl. Qed.

Lemma keeps_bind {A B} (c : M A) (k : A -> M B) :
  keeps R c -> (forall a, keeps R (k a)) -> keeps R (bind c k).
Proof.
  intros Hc Hk s b s' E. apply bind_Ret in E as (a & s1 & E1 & E).
  eapply frame_trans; [eapply Hc | eapply Hk]; eassumption.
Qed.

Lemma keeps_modify f : (forall s, R s (f s)) -> keeps R (modify f).
Proof. intros Hf s b s' E. inversion E. apply Hf. Qed.

Lemma keeps_alloc_ok `{!Allows R with_oracle} : keeps R alloc_ok.
Proof.
  intros s b s'. unfold alloc_ok.
  destruct (oracle s); intros E; inversion E;
    [apply frame_refl | apply allows].
Qed.

Lemma keeps_wimlib_assert `{wimlib_h} b : keeps R (wimlib_assert b).
Proof.
  unfold wimlib_assert.
  destruct ENABLE_ASSERTIONS; [destruct b|];
    first [apply keeps_ret | apply keeps_raise].
Qed.

Section OnHeap.
Context {A : Type} (cells : state -> list (option A))
  (with_cells : list (option A) -> state -> state)
  `{!Allows R with_oracle, !Allows R with_cells}.

Lemma keeps_heap_load p : keeps R (heap_load cells p).
Proof.
  unfold heap_load. apply keeps_bind; [apply keeps_get|]. intros s0.
  destruct (heap_cell _ _); [apply keeps_ret | apply keeps_raise].
Qed.

Lemma keeps_heap_alloc init : keeps R (heap_alloc cells with_cells init).
Proof.
  unfold heap_alloc. apply keeps_bind; [apply keeps_alloc_ok|].
  intros [|]; [|apply keeps_ret].
  apply keeps_bind; [apply keeps_get|]. intros s0.
  apply keeps_bind; [|intros; apply keeps_ret].
  apply keeps_modify. intros s. apply allows.
Qed.

Lemma keeps_heap_store p v : keeps R (heap_store cells with_cells p v).
Proof.
  unfold heap_store.
  apply keeps_bind; [apply keeps_heap_load|]. intros _.
  apply keeps_bind; [apply keeps_get|]. intros s0.
  apply keeps_modify. intros s. apply allows.
Qed.

Lemma keeps_heap_free p : keeps R (heap_free cells with_cells p).
Proof.
  unfold heap_free. destruct p as [p|]; [|apply keeps_ret].
  apply keeps_bind; [apply keeps_get|]. intros s0.
  destruct (heap_cell _ _); [|apply keeps_raise].
  apply keeps_modify. intros s. apply allows.
Qed.
End OnHeap.
End KeepsFacts.

#[global] Instance outside_index_frame : Frame outside_index.
Proof.
  split; [by intros s|].
  intros s1 s2 s3 (?&?&?&?) (?&?&?&?). repeat split; congruence.
Qed.

#[global] Instance outside_store_frame : Frame outside_store.
Proof.
  split; [by intros s|].
  intros s1 s2 s3 (?&?&?&?&?) (?&?&?&?&?). repeat split; congruence.
Qed.

#[global] Instance prefix_kept_frame n : Frame (prefix_kept n).
Proof.
  split; [by intros s|].
  intros s1 s2 s3 [? ?] [? ?]. split; congruence.
Qed.

#[global] Instance outside_index_oracle : Allows outside_index with_oracle.
Proof. by intros b s. Qed.
#[global] Instance outside_index_nodes : Allows outside_index with_sd_nodes.
Proof. by intros b s. Qed.
#[global] Instance outside_index_blobs : Allows outside_index with_sd_blobs.
Proof. by intros b s. Qed.
#[global] Instance outside_index_sd : Allows outside_index with_set_sd.
Proof. by intros b s. Qed.
#[global] Instance outside_index_root : Allows outside_index with_set_root.
Proof. by intros b s. Qed.

#[global] Instance outside_store_oracle : Allows outside_store with_oracle.
Proof. by intros b s. Qed.
#[global] Instance outside_store_ltes : Allows outside_store with_ltes.
Proof. by intros b s. Qed.
#[global] Instance outside_store_locs : Allows outside_store with_locs.
Proof. by intros b s. Qed.
#[global] Instance outside_store_table :
  Allows outside_store with_lookup_table.
Proof. by intros b s. Qed.

(** ** Results *)

Section ReturnsFacts.
Context {A : Type} (Q : A -> Prop).

Lemma returns_ret a : Q a -> returns Q (ret a).
Proof. intros HQ s b s' E. inversion E. by subst. Qed.

Lemma returns_raise f : returns Q (raise f).
Proof. intros s b s' E. inversion E. Qed.

Lemma returns_bind {B} (c : M B) (k : B -> M A) :
  (forall b, returns Q (k b)) -> returns Q (bind c k).
Proof.
  intros Hk s a s' E. apply bind_Ret in E as (b & s1 & _ & E).
  by eapply Hk.
Qed.

Lemma returns_bind_with {B} (P : B -> Prop) (c : M B) (k : B -> M A) :
  returns P c -> (forall b, P b -> returns Q (k b)) -> returns Q (bind c k).
Proof.
  intros Hc Hk s a s' E. apply bind_Ret in E as (b & s1 & E1 & E).
  eapply Hk; [eapply Hc|]; eassumption.
Qed.

Lemma returns_weaken (Q' : A -> Prop) (c : M A) :
  (forall a, Q' a -> Q a) -> returns Q' c -> returns Q c.
Proof. intros HQ Hc s a s' E. eapply HQ, Hc, E. Qed.
End ReturnsFacts.

(** Goals [returns Q c] are taken apart along the structure of [c]; what
    is left are the values at the exits of [c]. *)
Ltac returns_steps :=
  repeat first
    [ assumption
    | apply returns_raise
    | apply returns_bind; intros ?
    | match goal with
      | |- returns _ (match ?x with _ => _ end) => destruct x
      | |- returns _ (let '(_, _) := ?x in _) => destruct x
      end ].

(** Goals [keeps R c], likewise; what is left are the computations that
    the tactic does not know. *)
Ltac keeps_steps :=
  repeat first
    [ assumption
    | solve [apply keeps_ret; tc_solve]
    | apply keeps_raise
    | solve [apply keeps_get; tc_solve]
    | solve [apply keeps_alloc_ok; tc_solve]
    | solve [apply keeps_wimlib_assert; tc_solve]
    | solve [eapply keeps_heap_load; tc_solve]
    | solve [eapply keeps_heap_alloc; tc_solve]
    | solve [eapply keeps_heap_store; tc_solve]
    | solve [eapply keeps_heap_free; tc_solve]
    | solve [apply keeps_modify; intros ?; done]
    | apply keeps_bind; [tc_solve| |intros ?]
    | match goal with
      | |- keeps _ (match ?x with _ => _ end) => destruct x
      | |- keeps _ (let '(_, _) := ?x in _) => destruct x
      end ].

(** ** The index of security descriptors and the rest of the session *)

Section SdSetFrame.
Context `{wimlib_h}.

Lemma keeps_lookup_sd R `{!Frame R} fuel hash root :
  keeps R (lookup_sd fuel hash root).
Proof.
  intros s v s' E. apply lookup_sd_pure in E as ->. apply frame_refl.
Qed.

Lemma keeps_insert_sd_node fuel new root :
  keeps outside_index (insert_sd_node fuel new root).
Proof.
  revert root. induction fuel as [|fuel IH]; intros root; simpl.
  - apply keeps_raise.
  - unfold load_node, store_node.
    apply keeps_bind; [tc_solve|keeps_steps|]. intros n_new.
    apply keeps_bind; [tc_solve|keeps_steps|]. intros n_root.
    destruct (_ <? 0).
    + destruct (node_left n_root); [apply IH | keeps_steps].
    + destruct (0 <? _).
      * destruct (node_right n_root); [apply IH | keeps_steps].
      * keeps_steps.
Qed.

Lemma keeps_REALLOC R `{!Frame R, !Allows R with_oracle} {A}
  (arr : list (option A)) n :
  keeps R (REALLOC arr n).
Proof. unfold REALLOC. keeps_steps. Qed.

Lemma keeps_index_sd_set_add_sd descriptor :
  keeps outside_index (sd_set_add_sd descriptor).
Proof.
  unfold sd_set_add_sd, tree_fuel, load_node, store_node.
  pose proof keeps_insert_sd_node.
  keeps_steps;
    first [apply keeps_lookup_sd | apply keeps_REALLOC | done]; tc_solve.
Qed.

(** X1: [sd_set_add_sd] works on the index of security descriptors and
    on nothing else: whatever it returns, the lookup table of streams,
    its entries, the location descriptors and the path buffer are what
    they were. *)
Theorem sd_set_add_sd_frame descriptor s id s' :
  sd_set_add_sd descriptor s = Ret id s' ->
  ltes s' = ltes s /\ locs s' = locs s /\
  lookup_table s' = lookup_table s /\ path s' = path s.
Proof. apply keeps_index_sd_set_add_sd. Qed.
End SdSetFrame.

Lemma sd_set_add_sd_frame_witness :
  exists id s',
    sd_set_add_sd [1] one_descriptor_stored = Ret id s' /\
    (ltes s' = ltes one_descriptor_stored /\
     locs s' = locs one_descriptor_stored /\
     lookup_table s' = lookup_table one_descriptor_stored /\
     path s' = path one_descriptor_stored).
Proof.
  do 2 eexists.
  match goal with
  | |- ?A /\ _ =>
      assert (HA : A) by (vm_compute; reflexivity); split; [exact HA|]
  end.
  apply (sd_set_add_sd_frame _ _ _ _ HA).
Defined.

(** ** The digest of a stream, in full *)

Section DigestCodes.
Context `{wimlib_h}.

Lemma read_fails_from_end ar pos :
  Z.of_nat (length (ar_data ar)) <= pos -> read_fails_from ar pos = false.
Proof.
  intros Hpos. unfold read_fails_from.
  destruct (ar_bad_chunk ar) as [k|]; [|done].
  apply andb_false_iff.
  destruct (Z.leb_spec pos (4096 * k)); [right|by left].
  apply Z.ltb_ge. lia.
Qed.

(** The read loop ends with an error exactly when the chunk that cannot
    be read is among those still to be read. *)
Lemma sha1sum_loop_code ar fuel pos rem ctx :
  0 <= pos ->
  rem = Z.of_nat (length (ar_data ar)) - pos ->
  0 <= rem ->
  (exists j, pos = 4096 * j) \/ rem = 0 ->
  (Z.to_nat rem < fuel)%nat ->
  exists ctx',
    sha1sum_loop fuel ar pos rem ctx =
      Some (if read_fails_from ar pos then WIMLIB_ERR_NTFS_3G else 0, ctx').
Proof.
  revert pos rem ctx.
  induction fuel as [|fuel IH]; intros pos rem ctx Hpos Hrem Hge Hal Hfuel;
    [lia|].
  simpl. destruct (Z.eqb_spec rem 0) as [H0|H0].
  - rewrite read_fails_from_end by lia. by eexists.
  - destruct Hal as [[j Hj]|]; [|done].
    assert (Hdiv : pos / 4096 = j)
      by (subst pos; rewrite Z.mul_comm; apply Z.div_mul; lia).
    unfold ntfs_attr_pread. rewrite Hdiv. case_decide as Hbad.
    + cbv beta iota zeta.
      destruct (Z.eqb_spec (-1) (Z.min rem 4096)); [lia|].
      cbv beta iota zeta delta [negb].
      unfold read_fails_from. rewrite Hbad.
      replace (_ && _) with true; [by eexists|].
      symmetry. apply andb_true_iff. split; [apply Z.leb_le|apply Z.ltb_lt];
        lia.
    + set (k := Z.min rem 4096).
      assert (Hk0 : 0 < k <= rem) by (unfold k; lia).
      assert (Hk1 : k = 4096 \/ k = rem) by (unfold k; lia).
      assert (Hk2 : k <= 4096) by (unfold k; lia).
      clearbody k.
      assert (Hk : length (take (Z.to_nat k)
                     (drop (Z.to_nat pos) (ar_data ar))) = Z.to_nat k).
      { rewrite length_take, length_drop. lia. }
      cbv beta iota zeta. rewrite Hk.
      rewrite Z2Nat.id, Z.eqb_refl by lia.
      cbv beta iota zeta delta [negb].
      destruct (IH (pos + k) (rem - k)
                   (sha1_update ctx
                      (take (Z.to_nat k) (drop (Z.to_nat pos) (ar_data ar)))))
        as [ctx' ->]; [lia..| |lia|].
      * destruct Hk1 as [->| ->]; [left; exists (j + 1); lia|right; lia].
      * exists ctx'. do 2 f_equal.
        unfold read_fails_from.
        destruct (ar_bad_chunk ar) as [b|]; [|done].
        assert (b <> j) by congruence.
        destruct (Z.ltb_spec (4096 * b) (Z.of_nat (length (ar_data ar))));
          [|by rewrite !andb_false_r].
        rewrite !andb_true_r.
        destruct (Z.leb_spec pos (4096 * b)), (Z.leb_spec (pos + k) (4096 * b));
          try done; lia.
Qed.

Lemma ntfs_attr_sha1sum_run ar s :
  ntfs_attr_sha1sum ar s =
    Ret (if ar_opens ar && negb (read_fails ar)
         then (0, sha1_buffer (ar_data ar))
         else (WIMLIB_ERR_NTFS_3G, [])) s.
Proof.
  unfold ntfs_attr_sha1sum.
  destruct (ar_opens ar); cbn [negb andb]; [|done].
  destruct (sha1sum_loop_code ar (S (length (ar_data ar))) 0
              (Z.of_nat (length (ar_data ar))) sha1_init)
    as [ctx' E]; [lia..|left; exists 0; lia|lia|].
  unfold read_fails.
  destruct (read_fails_from ar 0); rewrite E; cbn [negb].
  - destruct (Z.eqb_spec WIMLIB_ERR_NTFS_3G 0) as [E0|]; [|done].
    by destruct ntfs_3g_nonzero.
  - apply sha1sum_loop_ok in E; [|lia..].
    subst ctx'. unfold sha1_final, sha1_init. simpl. by rewrite drop_0.
Qed.

(** X2: [ntfs_attr_sha1sum] in full.  It always returns, with the
    session memory as it was.  When the attribute opens and every chunk
    of 4096 bytes of it can be read, it returns 0 and the SHA-1 of all
    the bytes of the attribute, however many reads they took; when the
    attribute does not open, or the read of one of its chunks fails, it
    returns [WIMLIB_ERR_NTFS_3G]. *)
Theorem ntfs_attr_sha1sum_spec ar s :
  ntfs_attr_sha1sum ar s =
    Ret (if ar_opens ar && negb (read_fails ar)
         then (0, sha1_buffer (ar_data ar))
         else (WIMLIB_ERR_NTFS_3G, [])) s.
Proof. apply ntfs_attr_sha1sum_run. Qed.

Lemma returns_ntfs_attr_sha1sum ar :
  returns (fun sum => fst sum = 0 \/ fst sum = WIMLIB_ERR_NTFS_3G)
          (ntfs_attr_sha1sum ar).
Proof.
  intros s a s'. rewrite ntfs_attr_sha1sum_run.
  intros E. inversion E. destruct (_ && _); simpl; auto.
Qed.
End DigestCodes.

(** ** What the capture of the streams returns and leaves alone *)

Lemma same_node_refl d : same_node d d.
Proof. by repeat split. Qed.

Lemma same_node_trans d1 d2 d3 :
  same_node d1 d2 -> same_node d2 d3 -> same_node d1 d3.
Proof.
  intros (?&?&?&?&?&?&?&?&?) (?&?&?&?&?&?&?&?&?).
  repeat split; congruence.
Qed.

Lemma same_node_set_new_ads_lte p d : same_node d (set_new_ads_lte p d).
Proof.
  unfold set_new_ads_lte. destruct (reverse (ads_entries d)); by repeat split.
Qed.

Section CaptureFrame.
Context `{wimlib_h}.
Variable stale_ntfs_loc : option ptr.
Variable ntfs_vol_p : Z.

Lemma keeps_out_free_ntfs_loc d r :
  keeps outside_store (out_free_ntfs_loc stale_ntfs_loc d r).
Proof. unfold out_free_ntfs_loc, out_put_actx. keeps_steps. Qed.

Lemma keeps_stream_entry ar hash path_len d r next :
  (forall p, keeps outside_store (next p)) ->
  keeps outside_store
    (stream_entry stale_ntfs_loc ntfs_vol_p ar hash path_len d r next).
Proof.
  intros Hnext. pose proof keeps_out_free_ntfs_loc.
  unfold stream_entry, __lookup_resource, load_lte, store_lte, read_path,
    new_lookup_table_entry, lookup_table_insert, out_put_actx.
  keeps_steps; done.
Qed.

Lemma keeps_attach_stream ar d r entry next :
  (forall d1, keeps outside_store (next d1)) ->
  keeps outside_store (attach_stream stale_ntfs_loc ar d r entry next).
Proof.
  intros Hnext. pose proof keeps_out_free_ntfs_loc.
  unfold attach_stream, dentry_add_ads, out_free_lte,
    free_lookup_table_entry.
  keeps_steps; done.
Qed.

Lemma keeps_ntfs_attr_sha1sum R `{!Frame R} ar :
  keeps R (ntfs_attr_sha1sum ar).
Proof.
  intros s a s'. rewrite ntfs_attr_sha1sum_run. intros E. inversion E.
  apply frame_refl.
Qed.

Lemma keeps_capture_loop ars path_len d :
  keeps outside_store
    (capture_loop stale_ntfs_loc ntfs_vol_p ars path_len d).
Proof.
  revert d. induction ars as [|ar rest IH]; intros d; cbn [capture_loop].
  - unfold out_put_actx. keeps_steps.
  - apply keeps_bind;
      [tc_solve|apply keeps_ntfs_attr_sha1sum; tc_solve|].
    intros [r hash]. destruct (negb _); [unfold out_put_actx; keeps_steps|].
    apply keeps_stream_entry. intros p. by apply keeps_attach_stream.
Qed.

Lemma keeps_capture_ntfs_streams d info path_len type :
  keeps outside_store
    (capture_ntfs_streams stale_ntfs_loc ntfs_vol_p d info path_len type).
Proof.
  unfold capture_ntfs_streams. destruct (negb _); [keeps_steps|].
  apply keeps_capture_loop.
Qed.

(** The exits of the entry block and of the attach block. *)
Lemma returns_out_free_ntfs_loc (Q : dentry * Z -> Prop) d r :
  Q (d, r) -> returns Q (out_free_ntfs_loc stale_ntfs_loc d r).
Proof.
  intros HQ. unfold out_free_ntfs_loc, out_put_actx.
  returns_steps; by apply returns_ret.
Qed.

Lemma returns_stream_entry (Q : dentry * Z -> Prop) ar hash path_len d r next :
  Q (d, r) ->
  (forall p, returns Q (next p)) ->
  returns Q (stream_entry stale_ntfs_loc ntfs_vol_p ar hash path_len d r next).
Proof.
  intros HQ Hnext. pose proof (returns_out_free_ntfs_loc Q d r HQ).
  unfold stream_entry, out_put_actx.
  returns_steps; first [done | by apply returns_ret].
Qed.

Lemma returns_attach_stream (Q : dentry * Z -> Prop) ar d r entry next :
  Q (d, r) ->
  (forall d1, same_node d d1 -> returns Q (next d1)) ->
  returns Q (attach_stream stale_ntfs_loc ar d r entry next).
Proof.
  intros HQ Hnext. pose proof (returns_out_free_ntfs_loc Q d r HQ).
  unfold attach_stream, out_free_lte.
  destruct (name_length ar =? 0).
  - apply returns_bind. intros _. apply Hnext. by repeat split.
  - destruct (utf16_to_utf8 _ _); [|returns_steps; done].
    unfold dentry_add_ads.
    apply returns_bind_with
      with (P := fun added : option dentry =>
                   forall d1, added = Some d1 -> same_node d d1).
    + returns_steps; apply returns_ret; [|done].
      intros d1 [= <-]. by repeat split.
    + intros [d1|] Hd1; [|returns_steps; done].
      apply Hnext. eapply same_node_trans; [by apply Hd1|].
      apply same_node_set_new_ads_lte.
Qed.

Lemma returns_capture_loop ars path_len d :
  returns (fun dr => same_node d (fst dr) /\ capture_code (snd dr))
          (capture_loop stale_ntfs_loc ntfs_vol_p ars path_len d).
Proof.
  revert d. induction ars as [|ar rest IH]; intros d; cbn [capture_loop].
  - apply returns_ret. split; [apply same_node_refl|by left].
  - eapply returns_bind_with; [apply returns_ntfs_attr_sha1sum|].
    intros [r hash] Hr. simpl in Hr.
    destruct (Z.eqb_spec r 0) as [->|Hr0]; cbn [negb].
    + assert (HQ : same_node d d /\ capture_code WIMLIB_ERR_NOMEM)
        by (split; [apply same_node_refl|by right; right]).
      apply returns_stream_entry; [exact HQ|]. intros p.
      apply returns_attach_stream; [exact HQ|]. intros d1 Hd1.
      eapply returns_weaken; [|apply IH].
      intros [d' r'] [Hn Hc]. split; [|done].
      by eapply same_node_trans.
    + apply returns_ret. split; [apply same_node_refl|].
      right; left. simpl. by destruct Hr.
Qed.

Lemma returns_capture_ntfs_streams d info path_len type :
  returns (fun dr => same_node d (fst dr) /\ capture_code (snd dr))
    (capture_ntfs_streams stale_ntfs_loc ntfs_vol_p d info path_len type).
Proof.
  unfold capture_ntfs_streams. destruct (negb _).
  - apply returns_ret. split; [apply same_node_refl|by right; left].
  - apply returns_capture_loop.
Qed.

(** X3: whatever [capture_ntfs_streams] returns, the index of security
    descriptors (its nodes, the descriptor copies, the descriptor table
    and the root of the tree) and the path buffer are what they were:
    the function works on the lookup table and the locations only. *)
Theorem capture_ntfs_streams_frame d info path_len type s d' r s' :
  capture_ntfs_streams stale_ntfs_loc ntfs_vol_p d info path_len type s
    = Ret (d', r) s' ->
  sd_nodes s' = sd_nodes s /\ sd_blobs s' = sd_blobs s /\
  set_sd s' = set_sd s /\ set_root s' = set_root s /\ path s' = path s.
Proof. apply keeps_capture_ntfs_streams. Qed.

(** X4: whatever [capture_ntfs_streams] returns, the code is 0,
    [WIMLIB_ERR_NTFS_3G] or [WIMLIB_ERR_NOMEM], and the node handed back
    differs from the node handed in at most in its content reference
    and its named-stream entries: name, times, attributes, security
    identifier, link group and children are untouched. *)
Theorem capture_ntfs_streams_result d info path_len type s d' r s' :
  capture_ntfs_streams stale_ntfs_loc ntfs_vol_p d info path_len type s
    = Ret (d', r) s' ->
  (r = 0 \/ r = WIMLIB_ERR_NTFS_3G \/ r = WIMLIB_ERR_NOMEM) /\
  same_node d d'.
Proof.
  intros E. apply returns_capture_ntfs_streams in E as [Hn Hc]. by split.
Qed.
End CaptureFrame.

Lemma capture_ntfs_streams_frame_witness :
  exists d' r s',
    capture_ntfs_streams None 7 root_dentry twin_streams 1 AT_DATA
                         one_descriptor_stored = Ret (d', r) s' /\
    (sd_nodes s' = sd_nodes one_descriptor_stored /\
     sd_blobs s' = sd_blobs one_descriptor_stored /\
     set_sd s' = set_sd one_descriptor_stored /\
     set_root s' = set_root one_descriptor_stored /\
     path s' = path one_descriptor_stored).
Proof.
  do 3 eexists.
  match goal with
  | |- ?A /\ _ =>
      assert (HA : A) by (vm_compute; reflexivity); split; [exact HA|]
  end.
  apply (capture_ntfs_streams_frame _ _ _ _ _ _ _ _ _ _ HA).
Defined.

Lemma capture_ntfs_streams_result_witness :
  exists d' r s',
    capture_ntfs_streams None 7 root_dentry twin_streams 1 AT_DATA
                         (fresh_session [true; true; true; true; false])
      = Ret (d', r) s' /\
    ((r = 0 \/ r = WIMLIB_ERR_NTFS_3G \/ r = WIMLIB_ERR_NOMEM) /\
     same_node root_dentry d').
Proof.
  do 3 eexists.
  match goal with
  | |- ?A /\ _ =>
      assert (HA : A) by (vm_compute; reflexivity); split; [exact HA|]
  end.
  apply (capture_ntfs_streams_result _ _ _ _ _ _ _ _ _ _ HA).
Defined.

(** ** The tree builder: codes, metadata, shape and the path buffer *)

#[global] Instance prefix_kept_oracle n : Allows (prefix_kept n) with_oracle.
Proof. by intros b s. Qed.

Lemma same_node_meta d d' : same_node d d' -> same_meta d d'.
Proof. intros (?&?&?&?&?&?&?&?&?). by repeat split. Qed.

Lemma same_meta_trans d1 d2 d3 :
  same_meta d1 d2 -> same_meta d2 d3 -> same_meta d1 d3.
Proof.
  intros (?&?&?&?&?&?&?) (?&?&?&?&?&?&?). repeat split; congruence.
Qed.

Lemma prefix_kept_le n m s s' :
  n <= m -> prefix_kept m s s' -> prefix_kept n s s'.
Proof.
  intros Hle [Hlen Htake]. split; [done|].
  replace (Z.to_nat n) with (Z.to_nat n `min` Z.to_nat m)%nat by lia.
  by rewrite <- !take_take, Htake.
Qed.

Lemma prefix_kept_same n s s' : path s' = path s -> prefix_kept n s s'.
Proof. intros E. unfold prefix_kept. by rewrite E. Qed.

Lemma write_path_prefix off src s u s' :
  write_path off src s = Ret u s' ->
  prefix_kept off s s' /\
  path s' = take (Z.to_nat off) (path s) ++ src
              ++ drop (Z.to_nat (off + Z.of_nat (length src))) (path s).
Proof.
  unfold write_path, bind, get, modify.
  destruct (_ && _) eqn:Hfit; intros E; inversion E; subst. clear E.
  apply andb_true_iff in Hfit as [H0 H1].
  apply Z.leb_le in H0, H1.
  split; [|done]. split; simpl.
  - rewrite !length_app, length_take, length_drop. lia.
  - rewrite take_app_le by (rewrite length_take; lia).
    rewrite take_take. f_equal. lia.
Qed.

Section TreeFacts.
Context `{wimlib_h}.
Variable stale_ntfs_loc : option ptr.
Variable ntfs_vol_p : Z.

Abbreviation build := (__build_dentry_tree_ntfs stale_ntfs_loc ntfs_vol_p).
Abbreviation readdir := (ntfs_readdir stale_ntfs_loc ntfs_vol_p).
Abbreviation capture := (capture_ntfs_streams stale_ntfs_loc ntfs_vol_p).

(** The callback hands the context back with the same path length and
    a directory node that differs in its children only. *)
Lemma returns_filldir ctx name ni :
  returns (fun cr => same_meta (ctx_dentry ctx) (ctx_dentry (fst cr)) /\
                     ctx_path_len (fst cr) = ctx_path_len ctx)
          (filldir ctx name ni).
Proof.
  unfold filldir, new_dentry.
  returns_steps; apply returns_ret; by repeat split.
Qed.

Lemma returns_ntfs_readdir index ctx :
  returns (fun cr => same_meta (ctx_dentry ctx) (ctx_dentry (fst cr)) /\
                     ctx_path_len (fst cr) = ctx_path_len ctx)
          (readdir index ctx).
Proof.
  revert ctx.
  assert (Hstep : forall name ni rest,
    (forall ctx, returns
       (fun cr => same_meta (ctx_dentry ctx) (ctx_dentry (fst cr)) /\
                  ctx_path_len (fst cr) = ctx_path_len ctx)
       (readdir rest ctx)) ->
    forall ctx, returns
      (fun cr => same_meta (ctx_dentry ctx) (ctx_dentry (fst cr)) /\
                 ctx_path_len (fst cr) = ctx_path_len ctx)
      (called <- filldir ctx name ni ;;
       let '(ctx, r) := called in
       if negb (r =? 0) then ret (ctx, -1) else readdir rest ctx)).
  { intros name ni rest IH ctx.
    eapply returns_bind_with; [apply returns_filldir|].
    intros [ctx1 r] [Hm Hl]. simpl in Hm, Hl.
    destruct (negb _); [by apply returns_ret|].
    eapply returns_weaken; [|apply IH].
    intros [ctx2 r2] [Hm2 Hl2]. simpl in *. split; [|congruence].
    by eapply same_meta_trans. }
  induction index as [| |name ni rest IH|name rest IH]; intros ctx;
    cbn [ntfs_readdir].
  - apply returns_ret. by repeat split.
  - apply returns_ret. by repeat split.
  - by apply Hstep.
  - by apply Hstep.
Qed.

(** The security step of a capture, whatever it returns. *)
Lemma returns_resolve_security info d1 r1 :
  returns (fun dr =>
             same_meta d1 (fst dr) /\
             (snd dr = r1 /\ r1 <> 0 \/
              r1 = 0 /\ (snd dr = WIMLIB_ERR_NOMEM \/
                         snd dr = security_ret info /\
                         security_id (fst dr) <> -1)))
          (resolve_security info (d1, r1)).
Proof.
  unfold resolve_security.
  destruct (Z.eqb_spec r1 0) as [->|Hr]; cbn [negb].
  - apply returns_bind. intros id.
    destruct (Z.eqb_spec id (-1)); apply returns_ret; simpl;
      (split; [by repeat split|]); right; split; auto.
  - apply returns_ret. simpl. split; [by repeat split|]. by left.
Qed.

Lemma returns_build d info index path_len :
  returns (fun dr =>
             same_meta (read_metadata info d) (fst dr) /\
             (snd dr = WIMLIB_ERR_NTFS_3G \/ snd dr = WIMLIB_ERR_NOMEM \/
              snd dr = security_ret info) /\
             (snd dr = 0 -> security_id (fst dr) <> -1))
          (build d (Inode info index) path_len).
Proof.
  set (Q := fun dr : dentry * Z =>
              same_meta (read_metadata info d) (fst dr) /\
              (snd dr = WIMLIB_ERR_NTFS_3G \/ snd dr = WIMLIB_ERR_NOMEM \/
               snd dr = security_ret info) /\
              (snd dr = 0 -> security_id (fst dr) <> -1)).
  set (P := fun dr : dentry * Z =>
              same_meta (read_metadata info d) (fst dr) /\
              capture_code (snd dr)).
  assert (Hsec : forall content, P content ->
                   returns Q (resolve_security info content)).
  { intros [d1 r1] [Hm Hc]. simpl in Hm, Hc.
    eapply returns_weaken; [|apply returns_resolve_security].
    intros [d' r'] [Hm' Hr']. unfold Q. simpl in *.
    split; [by eapply same_meta_trans|].
    destruct Hr' as [[-> Hr1]|[-> [->|[-> Hid]]]].
    - split; [|done]. destruct Hc as [?|[?|?]]; [done|auto..].
    - split; [auto|]. intros E. by destruct nomem_nonzero.
    - split; [auto|done]. }
  assert (Hcap : forall type,
            returns P (capture (read_metadata info d) info path_len type)).
  { intros type. eapply returns_weaken; [|apply returns_capture_ntfs_streams].
    intros [d1 r1] [Hn Hc]. split; [by apply same_node_meta|done]. }
  intros s a s' E. rewrite build_by_class in E.
  destruct (classify info).
  - exact (returns_bind_with Q P _ _ (Hcap _) Hsec _ _ _ E).
  - refine (returns_bind_with Q P _ _ _ Hsec _ _ _ E).
    unfold enumerate_children.
    eapply returns_bind_with; [apply returns_ntfs_readdir|].
    intros [ctx1 r] [Hm _]. simpl in Hm.
    apply returns_ret. split; [done|]. simpl.
    destruct (Z.eqb_spec r 0) as [->|]; cbn [negb]; [by left|].
    by right; left.
  - exact (returns_bind_with Q P _ _ (Hcap _) Hsec _ _ _ E).
Qed.


(** The callback and the path buffer. *)
Lemma filldir_prefix ctx name ni s ctx1 r s1 :
  (forall cap, ni = Some cap ->
     forall child pl, keeps (prefix_kept pl) (cap child pl)) ->
  filldir ctx name ni s = Ret (ctx1, r) s1 ->
  prefix_kept (ctx_path_len ctx) s s1.
Proof.
  intros Hcap. unfold filldir.
  destruct (utf16_to_utf8 _ _) as [u|];
    [|intros E; inversion E; apply frame_refl].
  intros E. apply bind_Ret in E as (child0 & s0 & E0 & E).
  assert (S0 : prefix_kept (ctx_path_len ctx) s s0).
  { revert E0. unfold new_dentry.
    generalize s (child0) s0.
    change (keeps (prefix_kept (ctx_path_len ctx))
              (ok <- alloc_ok ;;
               if ok : bool
               then ret (Some (mk_dentry u 0 0 0 (-1) 0 0 false None [] []))
               else ret None)).
    keeps_steps. }
  destruct child0 as [child0|]; [|by inversion E; subst].
  apply bind_Ret in E as (u1 & sa & Ea & E).
  apply write_path_prefix in Ea as [Sa _].
  apply bind_Ret in E as ([child r'] & sb & Eb & E).
  inversion E; subst. clear E.
  destruct ni as [cap|]; [|discriminate].
  apply (Hcap cap eq_refl) in Eb.
  eapply frame_trans; [exact S0|]. eapply frame_trans; [exact Sa|].
  eapply prefix_kept_le; [|exact Eb]. lia.
Qed.

Lemma capture_keeps_prefix :
  (forall ni d path_len, keeps (prefix_kept path_len) (build d ni path_len)) /\
  (forall index ctx,
     keeps (prefix_kept (ctx_path_len ctx)) (readdir index ctx)).
Proof.
  apply ntfs_volume_ind.
  - (* an inode *)
    intros info index IH d path_len s [d' r] s' E.
    rewrite build_by_class in E.
    assert (Hsec : forall d1 r1 s1,
      prefix_kept path_len s s1 ->
      resolve_security info (d1, r1) s1 = Ret (d', r) s' ->
      prefix_kept path_len s s').
    { intros d1 r1 s1 S1 E1. eapply frame_trans; [exact S1|].
      unfold resolve_security in E1.
      destruct (negb _); [inversion E1; apply frame_refl|].
      apply bind_Ret in E1 as (id & s2 & E2 & E1).
      apply keeps_index_sd_set_add_sd in E2 as (_ & _ & _ & Hp).
      apply prefix_kept_same.
      destruct (id =? -1); inversion E1; by subst. }
    destruct (classify info);
      apply bind_Ret in E as ([d1 r1] & s1 & E1 & E);
      eapply Hsec; try exact E.
    + apply keeps_capture_ntfs_streams in E1 as (_ & _ & _ & _ & Hp).
      by apply prefix_kept_same.
    + unfold enumerate_children in E1.
      apply bind_Ret in E1 as ([ctx1 r0] & sx & Ex & E1).
      inversion E1; subst. by apply IH in Ex.
    + apply keeps_capture_ntfs_streams in E1 as (_ & _ & _ & _ & Hp).
      by apply prefix_kept_same.
  - intros ctx s a s' E. inversion E. apply frame_refl.
  - intros ctx s a s' E. inversion E. apply frame_refl.
  - (* an entry *)
    intros name ni IHni rest IHrest ctx s a s' E.
    cbn [ntfs_readdir] in E.
    apply bind_Ret in E as ([ctx1 r] & s1 & E1 & E).
    pose proof (returns_filldir _ _ _ _ _ _ E1) as [_ Hl]. simpl in Hl.
    apply filldir_prefix in E1;
      [|by intros cap [= <-] child pl; apply IHni].
    eapply frame_trans; [exact E1|].
    destruct (negb _); [inversion E; apply frame_refl|].
    apply IHrest in E. by rewrite Hl in E.
  - (* an entry whose inode does not open *)
    intros name rest IHrest ctx s a s' E.
    cbn [ntfs_readdir] in E.
    apply bind_Ret in E as ([ctx1 r] & s1 & E1 & E).
    pose proof (returns_filldir _ _ _ _ _ _ E1) as [_ Hl]. simpl in Hl.
    apply filldir_prefix in E1; [|by intros cap [=]].
    eapply frame_trans; [exact E1|].
    destruct (negb _); [inversion E; apply frame_refl|].
    apply IHrest in E. by rewrite Hl in E.
Qed.

(** X6: the path of the object being captured survives the capture of
    everything below it.  Whatever [__build_dentry_tree_ntfs] returns,
    however deep the tree under the object and wherever the capture
    stopped, the path buffer has the size it had and its first
    [path_len] bytes are what they were; the names written for the
    descendants all lie beyond them. *)
Theorem build_dentry_tree_keeps_path ni d path_len s d' r s' :
  __build_dentry_tree_ntfs stale_ntfs_loc ntfs_vol_p d ni path_len s
    = Ret (d', r) s' ->
  length (path s') = length (path s) /\
  take (Z.to_nat path_len) (path s') = take (Z.to_nat path_len) (path s).
Proof. apply (proj1 capture_keeps_prefix). Qed.
End TreeFacts.


Lemma build_dentry_tree_keeps_path_witness :
  exists d' r s',
    __build_dentry_tree_ntfs None 7 root_dentry two_files_volume 1
      (fresh_session []) = Ret (d', r) s' /\
    (length (path s') = length (path (fresh_session [])) /\
     take (Z.to_nat 1) (path s') =
       take (Z.to_nat 1) (path (fresh_session []))).
Proof.
  do 3 eexists.
  match goal with
  | |- ?A /\ _ =>
      assert (HA : A) by (vm_compute; reflexivity); split; [exact HA|]
  end.
  apply (build_dentry_tree_keeps_path _ _ _ _ _ _ _ _ _ HA).
Defined.

(** ** The shape of the captured tree *)

Lemma modify_Ret f s u s' : modify f s = Ret u s' -> s' = f s.
Proof. unfold modify. congruence. Qed.

Section ShapeFacts.
Context `{wimlib_h}.
Variable stale_ntfs_loc : option ptr.
Variable ntfs_vol_p : Z.

Abbreviation build := (__build_dentry_tree_ntfs stale_ntfs_loc ntfs_vol_p).
Abbreviation readdir := (ntfs_readdir stale_ntfs_loc ntfs_vol_p).

Lemma capture_mirrors :
  (forall ni d path_len s d' s',
     build d ni path_len s = Ret (d', 0) s' ->
     children d = [] ->
     file_name d' = file_name d /\ mirrors ni d') /\
  (forall index ctx s ctx' s',
     readdir index ctx s = Ret (ctx', 0) s' ->
     exists cs,
       children (ctx_dentry ctx') = children (ctx_dentry ctx) ++ cs /\
       index_mirrors index cs).
Proof.
  apply ntfs_volume_ind.
  - (* an inode *)
    intros info index IH d path_len s d' s' E Hd.
    pose proof (returns_build _ _ _ _ _ _ _ _ _ E)
      as ((Hn & Hc & Hw & Ha & Hat & Hl & Hr) & _).
    simpl in Hn, Hc, Hw, Ha, Hat, Hl, Hr.
    split; [done|]. cbn [mirrors]. repeat (split; [done|]).
    rewrite build_by_class in E.
    destruct (classify info) eqn:Ec;
      apply bind_Ret in E as ([d1 r1] & s1 & E1 & E);
      apply resolve_security_ok in E as (-> & _ & id & ->); simpl.
    + apply returns_capture_ntfs_streams in E1 as [Hs _].
      destruct Hs as (_&_&_&_&_&_&_&_&Hch). simpl in Hch. by rewrite Hch.
    + unfold enumerate_children in E1.
      apply bind_Ret in E1 as ([ctx1 r] & sx & Ex & E1).
      inversion E1; subst. clear E1.
      destruct (Z.eqb_spec r 0) as [->|Hr0]; cbn [negb snd] in *;
        [|by destruct ntfs_3g_nonzero].
      apply IH in Ex as (cs & Hcs & Hm). simpl in *.
      rewrite Hcs, Hd. done.
    + apply returns_capture_ntfs_streams in E1 as [Hs _].
      destruct Hs as (_&_&_&_&_&_&_&_&Hch). simpl in Hch. by rewrite Hch.
  - (* the end of an index *)
    intros ctx s ctx' s' E. inversion E; subst.
    exists []. by rewrite app_nil_r.
  - (* an index that breaks off *)
    intros ctx s ctx' s' E. inversion E.
  - (* an entry *)
    intros name ni IHni rest IHrest ctx s ctx' s' E.
    cbn [ntfs_readdir] in E.
    apply bind_Ret in E as ([ctx1 r] & s1 & E1 & E).
    destruct (Z.eqb_spec r 0) as [->|Hr]; cbn [negb] in E;
      [|inversion E].
    apply filldir_ok in E1 as (u & sa & child & Hu & _ & Ec & ->).
    apply IHni in Ec as [Hname Hchild]; [|done].
    apply IHrest in E as (cs & Hcs & Hm).
    exists (child :: cs). split.
    + rewrite Hcs. simpl. by rewrite <- app_assoc.
    + cbn [index_mirrors]. exists u, child, cs. done.
  - (* an entry whose inode does not open *)
    intros name rest IHrest ctx s ctx' s' E.
    cbn [ntfs_readdir] in E.
    apply bind_Ret in E as ([ctx1 r] & s1 & E1 & E).
    destruct (Z.eqb_spec r 0) as [->|Hr]; cbn [negb] in E;
      [|inversion E].
    by apply filldir_broken in E1.
Qed.

(** X7: a capture that returns 0 has built a tree of the shape of the
    volume.  The node of every object carries the times, the attribute
    flags and the inode number of the object; the node of a directory
    has exactly one child for each entry of its index, in the order of
    the index, named by the converted name of the entry; the node of a
    file or of a reparse point has no child, whatever its index
    holds. *)
Theorem captured_tree_mirrors_volume ni d path_len s d' s' :
  __build_dentry_tree_ntfs stale_ntfs_loc ntfs_vol_p d ni path_len s
    = Ret (d', 0) s' ->
  children d = [] ->
  file_name d' = file_name d /\ mirrors ni d'.
Proof. apply (proj1 capture_mirrors). Qed.

End ShapeFacts.

Lemma captured_tree_mirrors_volume_witness :
  exists d' s',
    __build_dentry_tree_ntfs None 7 root_dentry two_files_volume 1
      (fresh_session []) = Ret (d', 0) s' /\
    children root_dentry = [] /\
    (file_name d' = file_name root_dentry /\ mirrors two_files_volume d').
Proof.
  do 2 eexists.
  match goal with
  | |- ?A /\ _ =>
      assert (HA : A) by (vm_compute; reflexivity); split; [exact HA|]
  end.
  split; [reflexivity|].
  apply (captured_tree_mirrors_volume _ _ _ _ _ _ _ _ HA eq_refl).
Defined.


(** ** The index of security descriptors is sound *)

Ltac mrun_in E :=
  cbv [heap_alloc alloc_ok bind get ret modify raise with_oracle
       with_sd_nodes with_sd_blobs with_set_sd with_set_root with_ltes
       with_locs with_lookup_table with_path heap_store heap_load heap_free
       oracle sd_nodes sd_blobs set_sd set_root ltes locs lookup_table path]
    in E.

Lemma hashes_cmp_eq h1 h2 :
  length h1 = length h2 -> hashes_cmp h1 h2 = 0 -> h1 = h2.
Proof.
  revert h2. induction h1 as [|x h1 IH]; intros [|y h2]; simpl; try done.
  intros [= Hlen]. destruct (Z.eqb_spec x y) as [->|Hne].
  - intros E. f_equal. by apply IH.
  - lia.
Qed.

Lemma hashes_cmp_refl h : hashes_cmp h h = 0.
Proof. induction h as [|x h IH]; simpl; [done|]. by rewrite Z.eqb_refl. Qed.

Lemma length_sha1_buffer msg : length (sha1_buffer msg) = 20%nat.
Proof.
  unfold sha1_buffer.
  destruct (sha1_blocks _ _ _) as [[[[h0 h1] h2] h3] h4]. reflexivity.
Qed.

Section IndexSound.
Context `{wimlib_h}.

(** What the search returns is [-1] or the identifier of a live node
    with the digest searched for. *)
Lemma lookup_sd_found fuel hash root s v s' :
  lookup_sd fuel hash root s = Ret v s' ->
  v = -1 \/
  exists q m, heap_cell (sd_nodes s) q = Some m /\
              hashes_cmp hash (node_hash m) = 0 /\
              v = node_security_id m.
Proof.
  revert root. induction fuel as [|fuel IH]; intros root; simpl.
  - discriminate.
  - destruct root as [p|]; [|intros E; inversion E; by left].
    cbv [bind load_node heap_load get ret raise].
    destruct (heap_cell (sd_nodes s) p) as [n|] eqn:Hp; [|discriminate].
    destruct (Z.ltb_spec (hashes_cmp hash (node_hash n)) 0); [apply IH|].
    destruct (Z.ltb_spec 0 (hashes_cmp hash (node_hash n))); [apply IH|].
    intros E; inversion E; subst. right. exists p, n.
    repeat split; [done|lia].
Qed.

(** The three ways in which [sd_set_add_sd] returns. *)
Lemma sd_set_add_sd_Ret descriptor s id s' :
  sd_set_add_sd descriptor s = Ret id s' ->
  (0 <= id /\ s' = s /\
   lookup_sd (S (length (sd_nodes s))) (sha1_buffer descriptor)
             (set_root s) s = Ret id s) \/
  (id = -1 /\ index_untouched s s') \/
  (id = to_int (num_entries (set_sd s)) /\ index_appended s s' descriptor).
Proof.
  unfold sd_set_add_sd, tree_fuel. cbv [bind get ret].
  destruct (lookup_sd _ _ _ s) as [sid sl|] eqn:Hl; [|discriminate].
  pose proof (lookup_sd_pure _ _ _ _ _ _ Hl) as ->.
  destruct (Z.leb_spec 0 sid).
  { intros E; inversion E; subst. by left. }
  clear Hl. intros E. right.
  unfold index_untouched, index_appended.
  destruct s as [o nodes blobs sd root lt lc tbl pth].
  cbv [REALLOC store_node load_node] in E.
  destruct o as [|[] [|[] [|[] [|[] o]]]]; mrun_in E.
  all: repeat (rewrite ?heap_cell_snoc_Some, ?insert_snoc in E; mrun_in E).
  all: try (injection E as <- <-; left; split; [done|]; simpl; tauto).
  all: destruct root as [root|].
  all: repeat (rewrite ?heap_cell_snoc_Some, ?insert_snoc in E; mrun_in E).
  all: try (injection E as <- <-; right; split; [done|]; simpl;
            split; [by eexists _, _|done]).
  all: cbn [insert_sd_node length Nat.add] in E;
    rewrite ?length_app in E; cbn [length Nat.add] in E;
    rewrite ?Nat.add_1_r in E; cbn [insert_sd_node] in E;
    cbv [store_node load_node] in E; mrun_in E.
  all: destruct (heap_cell (nodes ++ _) root) as [n_root|];
    [|discriminate].
  all: rewrite ?heap_cell_snoc_Some in E.
  all: cbn [node_hash node_left node_right node_security_id] in E.
  all: destruct (_ <? 0); [|destruct (0 <? _)].
  all: repeat (rewrite ?heap_cell_snoc_Some, ?insert_snoc in E; mrun_in E).
  all: try (injection E as <- <-; right; split; [done|]; simpl;
            split; [by eexists _, _|done]).
  all: unfold wimlib_assert in E; destruct ENABLE_ASSERTIONS;
    [discriminate|]; mrun_in E.
  all: repeat (rewrite ?heap_cell_snoc_Some, ?insert_snoc in E; mrun_in E).
  all: injection E as <- <-; right; split; [done|]; simpl;
    split; [by eexists _, _|done].
Qed.
End IndexSound.

Lemma heap_cell_snoc_inv {A} (h : list (option A)) x q m :
  heap_cell (h ++ [Some x]) q = Some m ->
  heap_cell h q = Some m \/ q = length h /\ m = x.
Proof.
  unfold heap_cell. destruct (decide (q < length h)%nat) as [Hlt|Hge].
  - rewrite lookup_app_l by done. by left.
  - destruct (decide (q = length h)) as [->|Hne].
    + rewrite list_lookup_middle by done. simpl. intros [= <-]. by right.
    + rewrite lookup_ge_None_2; [done|]. rewrite length_app. simpl. lia.
Qed.

Section IndexSoundness.
Context `{wimlib_h}.

Lemma to_int_small z : 0 <= z < 2147483648 -> to_int z = z.
Proof. intros Hz. unfold to_int. rewrite Z.mod_small; lia. Qed.

Lemma u32_small z : 0 <= z < 4294967296 -> u32 z = z.
Proof. apply Z.mod_small. Qed.

Lemma index_sound_untouched s s' :
  index_sound s -> index_untouched s s' -> index_sound s'.
Proof.
  intros [H0 Hnodes] (Hn & Hb & Hsd & _). split.
  - by destruct Hsd as [->| ->].
  - intros q m Hq.
    assert (Hq0 : heap_cell (sd_nodes s) q = Some m).
    { destruct Hn as [E|E]; rewrite E in Hq; [done|].
      by rewrite heap_cell_snoc_None in Hq. }
    destruct (Hnodes q m Hq0) as (Hr & b & bytes & Hd & Hsz & Hbl & Hh).
    split; [by destruct Hsd as [->| ->]|].
    exists b, bytes. repeat split; [| |  |done].
    + destruct Hsd as [->| ->]; [done|]. simpl.
      rewrite lookup_resize; [done|lia|by eapply lookup_lt_Some].
    + by destruct Hsd as [->| ->].
    + destruct Hb as [->| ->]; [done|]. by rewrite heap_cell_snoc_None.
Qed.

Lemma index_sound_appended s s' descriptor :
  index_sound s ->
  num_entries (set_sd s) < 2147483647 ->
  index_appended s s' descriptor ->
  index_sound s' /\
  names_digest_of s' (to_int (num_entries (set_sd s))) descriptor.
Proof.
  intros [H0 Hnodes] Hmax ((l & r & Hn) & Hb & Hsd & _).
  rewrite to_int_small in * by lia.
  set (n := num_entries (set_sd s)) in *.
  assert (Hnew_d :
    descriptors (set_sd s') !! Z.to_nat n = Some (Some (length (sd_blobs s)))).
  { rewrite Hsd. simpl. apply list_lookup_insert_eq.
    rewrite length_resize. lia. }
  assert (Hnew_s :
    sizes (set_sd s') !! Z.to_nat n
      = Some (Some (Z.of_nat (length descriptor)))).
  { rewrite Hsd. simpl. apply list_lookup_insert_eq.
    rewrite length_resize. lia. }
  assert (Hnew_b :
    heap_cell (sd_blobs s') (length (sd_blobs s)) = Some descriptor)
    by (rewrite Hb; apply heap_cell_snoc_Some).
  assert (Hnum : num_entries (set_sd s') = n + 1).
  { rewrite Hsd. simpl. fold n. apply u32_small. lia. }
  split; [split|].
  - lia.
  - intros q m Hq. rewrite Hn in Hq.
    apply heap_cell_snoc_inv in Hq as [Hq|[-> ->]].
    + destruct (Hnodes q m Hq) as (Hr & b & bytes & Hd & Hsz & Hbl & Hh).
      fold n in Hr. split; [lia|].
      exists b, bytes. repeat split; [| | |done].
      * rewrite Hsd. simpl. rewrite list_lookup_insert_ne by lia.
        rewrite lookup_resize; [done|lia|by eapply lookup_lt_Some].
      * rewrite Hsd. simpl. rewrite list_lookup_insert_ne by lia.
        rewrite lookup_resize; [done|lia|by eapply lookup_lt_Some].
      * rewrite Hb. rewrite heap_cell_app; [done|by eexists].
    + simpl. split; [lia|]. by exists (length (sd_blobs s)), descriptor.
  - split; [lia|]. by exists (length (sd_blobs s)), descriptor.
Qed.

Lemma sd_set_add_sd_keeps_sound descriptor s id s' :
  index_sound s ->
  num_entries (set_sd s) < 2147483647 ->
  sd_set_add_sd descriptor s = Ret id s' ->
  index_sound s' /\ (id = -1 \/ names_digest_of s' id descriptor).
Proof.
  intros Hs Hmax E.
  apply sd_set_add_sd_Ret in E as [(Hid & -> & Hl)|[[-> Hu]|[-> Ha]]].
  - split; [done|].
    apply lookup_sd_found in Hl as [->|(q & m & Hq & Hcmp & ->)]; [by left|].
    right. destruct Hs as [H0 Hnodes].
    destruct (Hnodes q m Hq) as (Hr & b & bytes & Hd & Hsz & Hbl & Hh).
    split; [done|]. exists b, bytes. repeat split; [done..|].
    rewrite Hh. symmetry. apply hashes_cmp_eq; [|done].
    by rewrite <- Hh, !length_sha1_buffer.
  - split; [|by left]. by eapply index_sound_untouched.
  - destruct (index_sound_appended _ _ _ Hs Hmax Ha). split; [done|by right].
Qed.

(** X9: the index of security descriptors is sound, and stays so.  Call
    the index sound when every live node of it names an entry of the
    table that holds a descriptor with the digest of the node.  From a
    sound index with room for one more identifier, whatever
    [sd_set_add_sd] returns, the index is sound again, and the value
    returned is [-1] or the position of an entry of the table that
    holds a descriptor with the SHA-1 of the descriptor passed in:
    no caller is ever handed the identifier of another descriptor. *)
Theorem sd_set_add_sd_sound descriptor s id s' :
  index_sound s ->
  num_entries (set_sd s) < 2147483647 ->
  sd_set_add_sd descriptor s = Ret id s' ->
  index_sound s' /\ (id = -1 \/ names_digest_of s' id descriptor).
Proof. apply sd_set_add_sd_keeps_sound. Qed.

(** X10: the accounting of the descriptor table.  A call of
    [sd_set_add_sd] either leaves the entry count and the total length
    as they were (the descriptor was found, or an allocation failed),
    or it returns the old entry count as the new identifier and has
    appended exactly one entry: the count is one more and the total
    length has grown by the size of the descriptor and the size of one
    element of the size array, each reduced modulo [2^32] as the 32-bit
    fields hold them (so by exactly that much as long as the fields do
    not overflow), and the new entry holds the size of the descriptor
    and a copy of its bytes in a cell of the heap that did not exist
    before. *)
Theorem sd_set_add_sd_accounting descriptor s id s' :
  0 <= num_entries (set_sd s) ->
  sd_set_add_sd descriptor s = Ret id s' ->
  let sd := set_sd s in
  let sd' := set_sd s' in
  let n := Z.to_nat (num_entries sd) in
  let grown :=
    total_length sd + (Z.of_nat (length descriptor) + sizeof_size_entry) in
  (num_entries sd' = num_entries sd /\ total_length sd' = total_length sd) \/
  (id = to_int (num_entries sd) /\
   num_entries sd' = (num_entries sd + 1) mod 4294967296 /\
   total_length sd' = grown mod 4294967296 /\
   (num_entries sd + 1 < 4294967296 ->
    num_entries sd' = num_entries sd + 1) /\
   (0 <= grown < 4294967296 -> total_length sd' = grown) /\
   sizes sd' !! n = Some (Some (Z.of_nat (length descriptor))) /\
   descriptors sd' !! n = Some (Some (length (sd_blobs s))) /\
   heap_cell (sd_blobs s') (length (sd_blobs s)) = Some descriptor /\
   heap_cell (sd_blobs s) (length (sd_blobs s)) = None).
Proof.
  intros H0 E sd sd' n grown.
  apply sd_set_add_sd_Ret in E as [(Hid & -> & Hl)|[[-> Hu]|[-> Ha]]].
  - by left.
  - left. destruct Hu as (_ & _ & [E|E] & _); unfold sd'; by rewrite E.
  - right. destruct Ha as (_ & Hb & Hsd & _). unfold sd', sd, n, grown in *.
    rewrite Hsd, Hb. cbn [num_entries total_length sizes descriptors].
    split; [done|]. split; [done|]. split; [done|].
    split; [intros Hn; apply u32_small; lia|].
    split; [intros Hg; by apply u32_small|].
    split; [|split; [|split]].
    + apply list_lookup_insert_eq. rewrite length_resize. lia.
    + apply list_lookup_insert_eq. rewrite length_resize. lia.
    + apply heap_cell_snoc_Some.
    + unfold heap_cell. by rewrite lookup_ge_None_2.
Qed.
End IndexSoundness.

Lemma sd_set_add_sd_sound_witness :
  index_sound one_descriptor_stored /\
  num_entries (set_sd one_descriptor_stored) < 2147483647 /\
  exists id s',
    sd_set_add_sd [1] one_descriptor_stored = Ret id s' /\
    (index_sound s' /\ (id = -1 \/ names_digest_of s' id [1])).
Proof.
  assert (Hs : index_sound one_descriptor_stored).
  { unfold index_sound. set (st := one_descriptor_stored).
    vm_compute in (value of st). subst st.
    cbn [set_sd sd_nodes sd_blobs num_entries descriptors sizes].
    split; [lia|]. intros q m.
    destruct q as [|q]; [|destruct q; discriminate].
    intros [= <-]. cbn [node_security_id node_hash]. split; [lia|].
    exists 0%nat, [1]. do 3 (split; [reflexivity|]).
    vm_compute. reflexivity. }
  assert (Hn : num_entries (set_sd one_descriptor_stored) < 2147483647)
    by (vm_compute; reflexivity).
  split; [exact Hs|]. split; [exact Hn|]. do 2 eexists.
  match goal with
  | |- ?A /\ _ =>
      assert (HA : A) by (vm_compute; reflexivity); split; [exact HA|]
  end.
  apply (sd_set_add_sd_sound _ _ _ _ Hs Hn HA).
Defined.

Lemma sd_set_add_sd_accounting_witness :
  0 <= num_entries (set_sd (fresh_session [])) /\
  exists id s',
    sd_set_add_sd [2] (fresh_session []) = Ret id s' /\
    let sd := set_sd (fresh_session []) in
    let sd' := set_sd s' in
    let n := Z.to_nat (num_entries sd) in
    let grown :=
      total_length sd + (Z.of_nat (length [2]) + sizeof_size_entry) in
    (num_entries sd' = num_entries sd /\ total_length sd' = total_length sd)
    \/
    (id = to_int (num_entries sd) /\
     num_entries sd' = (num_entries sd + 1) mod 4294967296 /\
     total_length sd' = grown mod 4294967296 /\
     (num_entries sd + 1 < 4294967296 ->
      num_entries sd' = num_entries sd + 1) /\
     (0 <= grown < 4294967296 -> total_length sd' = grown) /\
     sizes sd' !! n = Some (Some (Z.of_nat (length [2]))) /\
     descriptors sd' !! n
       = Some (Some (length (sd_blobs (fresh_session [])))) /\
     heap_cell (sd_blobs s') (length (sd_blobs (fresh_session [])))
       = Some [2] /\
     heap_cell (sd_blobs (fresh_session []))
               (length (sd_blobs (fresh_session []))) = None).
Proof.
  assert (H0 : 0 <= num_entries (set_sd (fresh_session []))) by done.
  split; [exact H0|]. do 2 eexists.
  match goal with
  | |- ?A /\ _ =>
      assert (HA : A) by (vm_compute; reflexivity); split; [exact HA|]
  end.
  exact (sd_set_add_sd_accounting [2] (fresh_session []) _ _ H0 HA).
Defined.

(** ** Insertion into the index tree, and the search after it *)

Section InsertLookup.
Context `{wimlib_h}.

Lemma load_node_Ret p s n s' :
  load_node p s = Ret n s' -> s' = s /\ heap_cell (sd_nodes s) p = Some n.
Proof.
  cbv [load_node heap_load bind get ret raise].
  destruct (heap_cell (sd_nodes s) p); intros E; inversion E; by subst.
Qed.

Lemma store_node_Ret p v s u s' :
  store_node p v s = Ret u s' ->
  is_Some (heap_cell (sd_nodes s) p) /\
  s' = with_sd_nodes (<[p := Some v]> (sd_nodes s)) s.
Proof.
  cbv [store_node heap_store heap_load bind get ret raise modify].
  destruct (heap_cell (sd_nodes s) p); intros E; inversion E.
  split; [by eexists|done].
Qed.

Lemma wimlib_assert_false_Ret s u s' :
  wimlib_assert false s = Ret u s' -> ENABLE_ASSERTIONS = false /\ s' = s.
Proof.
  unfold wimlib_assert. destruct ENABLE_ASSERTIONS; intros E; inversion E.
  done.
Qed.

(** One step of the search. *)
Lemma lookup_sd_step fuel hash p s n :
  heap_cell (sd_nodes s) p = Some n ->
  lookup_sd (S fuel) hash (Some p) s =
    if hashes_cmp hash (node_hash n) <? 0
    then lookup_sd fuel hash (node_left n) s
    else if 0 <? hashes_cmp hash (node_hash n)
    then lookup_sd fuel hash (node_right n) s
    else Ret (node_security_id n) s.
Proof.
  intros Hp. cbn [lookup_sd]. cbv [bind load_node heap_load get ret].
  rewrite Hp. by repeat destruct (_ <? _).
Qed.

(** The insertion writes one child pointer, and only where the search
    for the digest of the new node ends: a node with that digest, or
    with a child on the side of the digest, is left as it is. *)
Lemma insert_sd_node_keeps fuel new root s s' n q m :
  insert_sd_node fuel new root s = Ret tt s' ->
  heap_cell (sd_nodes s) new = Some n ->
  heap_cell (sd_nodes s) q = Some m ->
  hashes_cmp (node_hash n) (node_hash m) = 0 \/
    is_Some (branch_taken (node_hash n) m) ->
  heap_cell (sd_nodes s') q = Some m.
Proof.
  intros E Hnew Hq Hm. revert root E.
  induction fuel as [|fuel IH]; intros root E; [discriminate|].
  cbn [insert_sd_node] in E.
  apply bind_Ret in E as (n' & s1 & E1 & E).
  apply load_node_Ret in E1 as [-> E1].
  assert (n' = n) as -> by congruence. clear E1.
  apply bind_Ret in E as (m_r & s1 & E1 & E).
  apply load_node_Ret in E1 as [-> Hroot].
  assert (Hstore : forall v,
    branch_taken (node_hash n) m_r = None ->
    hashes_cmp (node_hash n) (node_hash m_r) <> 0 ->
    store_node root v s = Ret tt s' ->
    heap_cell (sd_nodes s') q = Some m).
  { intros v Hb Hc Es. apply store_node_Ret in Es as [_ ->]. simpl.
    rewrite (heap_cell_insert _ _ _ _ _ Hroot). case_decide as Hqr; [|done].
    subst q. assert (m = m_r) as -> by congruence.
    destruct Hm as [Hm|[x Hm]]; congruence. }
  unfold branch_taken in Hstore.
  destruct (Z.ltb_spec (hashes_cmp (node_hash n) (node_hash m_r)) 0).
  - destruct (node_left m_r); [by eapply IH|].
    eapply Hstore; [done|lia|exact E].
  - destruct (Z.ltb_spec 0 (hashes_cmp (node_hash n) (node_hash m_r))).
    + destruct (node_right m_r); [by eapply IH|].
      eapply Hstore; [done|lia|exact E].
    + by apply wimlib_assert_false_Ret in E as [_ ->].
Qed.

Lemma insert_then_lookup fuel new root s s' n :
  insert_sd_node fuel new root s = Ret tt s' ->
  heap_cell (sd_nodes s) new = Some n ->
  exists q m,
    heap_cell (sd_nodes s') q = Some m /\
    hashes_cmp (node_hash n) (node_hash m) = 0 /\
    lookup_sd (S fuel) (node_hash n) (Some root) s'
      = Ret (node_security_id m) s' /\
    (ENABLE_ASSERTIONS = true ->
     q = new /\ node_security_id m = node_security_id n).
Proof.
  intros E Hnew. revert root E.
  induction fuel as [|fuel IH]; intros root E; [discriminate|].
  pose proof E as E0.
  cbn [insert_sd_node] in E.
  apply bind_Ret in E as (n' & s1 & E1 & E).
  apply load_node_Ret in E1 as [-> E1].
  assert (n' = n) as -> by congruence. clear E1.
  apply bind_Ret in E as (m_r & s1 & E1 & E).
  apply load_node_Ret in E1 as [-> Hroot].
  set (h := node_hash n) in *.
  (* the child pointer is written *)
  assert (Hstore : forall l r,
    branch_taken h m_r = None ->
    hashes_cmp h (node_hash m_r) <> 0 ->
    branch_taken h (mk_sd_node (node_security_id m_r) (node_hash m_r) l r)
      = Some new ->
    store_node root
      (mk_sd_node (node_security_id m_r) (node_hash m_r) l r) s = Ret tt s' ->
    exists q m,
      heap_cell (sd_nodes s') q = Some m /\
      hashes_cmp h (node_hash m) = 0 /\
      lookup_sd (S (S fuel)) h (Some root) s' = Ret (node_security_id m) s' /\
      (ENABLE_ASSERTIONS = true ->
       q = new /\ node_security_id m = node_security_id n)).
  { intros l r Hb Hc Hb' Es. apply store_node_Ret in Es as [_ ->].
    assert (Hne : new <> root).
    { intros ->. assert (m_r = n) as -> by congruence.
      apply Hc. apply hashes_cmp_refl. }
    assert (Hnew' : heap_cell (sd_nodes (with_sd_nodes
              (<[root := Some (mk_sd_node (node_security_id m_r)
                                          (node_hash m_r) l r)]>
                 (sd_nodes s)) s)) new = Some n).
    { simpl. rewrite (heap_cell_insert _ _ _ _ _ Hroot).
      by case_decide. }
    exists new, n. split; [done|]. split; [apply hashes_cmp_refl|].
    split; [|done].
    erewrite lookup_sd_step
      by (simpl; rewrite (heap_cell_insert _ _ _ _ _ Hroot); by case_decide).
    unfold branch_taken in Hb'. cbn [node_hash node_left node_right] in *.
    assert (Hfound : lookup_sd (S fuel) h (Some new)
              (with_sd_nodes
                 (<[root := Some (mk_sd_node (node_security_id m_r)
                                             (node_hash m_r) l r)]>
                    (sd_nodes s)) s)
            = Ret (node_security_id n)
                (with_sd_nodes
                   (<[root := Some (mk_sd_node (node_security_id m_r)
                                               (node_hash m_r) l r)]>
                      (sd_nodes s)) s)).
    { erewrite lookup_sd_step by exact Hnew'. fold h.
      rewrite hashes_cmp_refl. reflexivity. }
    revert Hb'. destruct (_ <? 0); [by intros ->|].
    destruct (0 <? _); [by intros ->|]. discriminate. }
  (* the insertion goes on below a child *)
  assert (Hdown : forall c,
    branch_taken h m_r = Some c ->
    insert_sd_node fuel new c s = Ret tt s' ->
    exists q m,
      heap_cell (sd_nodes s') q = Some m /\
      hashes_cmp h (node_hash m) = 0 /\
      lookup_sd (S (S fuel)) h (Some root) s' = Ret (node_security_id m) s' /\
      (ENABLE_ASSERTIONS = true ->
       q = new /\ node_security_id m = node_security_id n)).
  { intros c Hb Ec.
    destruct (IH c Ec) as (q & m & Hq & Hcmp & Hl & Ha).
    exists q, m. split; [done|]. split; [done|]. split; [|done].
    assert (Hroot' : heap_cell (sd_nodes s') root = Some m_r).
    { eapply insert_sd_node_keeps; [exact Ec|exact Hnew|exact Hroot|].
      right. fold h. rewrite Hb. by eexists. }
    rewrite (lookup_sd_step _ _ _ _ _ Hroot').
    unfold branch_taken in Hb. revert Hb.
    destruct (_ <? 0); [by intros ->|].
    destruct (0 <? _); [by intros ->|]. discriminate. }
  unfold branch_taken in Hstore, Hdown.
  cbn [node_hash node_left node_right] in Hstore.
  destruct (Z.ltb_spec (hashes_cmp h (node_hash m_r)) 0).
  - destruct (node_left m_r) as [l|]; [by apply (Hdown l)|].
    eapply Hstore; [done|lia|done|exact E].
  - destruct (Z.ltb_spec 0 (hashes_cmp h (node_hash m_r))).
    + destruct (node_right m_r) as [r|]; [by apply (Hdown r)|].
      eapply Hstore; [done|lia|done|exact E].
    + apply wimlib_assert_false_Ret in E as [Ha ->].
      exists root, m_r. split; [done|]. split; [lia|]. split.
      * rewrite (lookup_sd_step _ _ _ _ _ Hroot).
        destruct (Z.ltb_spec (hashes_cmp h (node_hash m_r)) 0); [lia|].
        destruct (Z.ltb_spec 0 (hashes_cmp h (node_hash m_r))); [lia|done].
      * congruence.
Qed.

(** X11: [insert_sd_node] and [lookup_sd] agree, whatever the shape of
    the memory they walk.  After [insert_sd_node(new, root)] has
    returned, the search from [root] for the digest of [new] ends,
    within one step more than the insertion took, at a live node with
    that digest and returns its identifier; when assertions are
    compiled in, that node is [new] itself.  (With assertions compiled
    out, a node whose digest is in the tree already is not inserted,
    and the search finds the node that was there.) *)
Theorem insert_sd_node_then_lookup_sd fuel new root s s' n :
  insert_sd_node fuel new root s = Ret tt s' ->
  heap_cell (sd_nodes s) new = Some n ->
  exists q m,
    heap_cell (sd_nodes s') q = Some m /\
    hashes_cmp (node_hash n) (node_hash m) = 0 /\
    lookup_sd (S fuel) (node_hash n) (Some root) s'
      = Ret (node_security_id m) s' /\
    (ENABLE_ASSERTIONS = true ->
     q = new /\ node_security_id m = node_security_id n).
Proof. apply insert_then_lookup. Qed.
End InsertLookup.

Lemma insert_sd_node_then_lookup_sd_witness :
  exists s',
    insert_sd_node 2 1%nat 0%nat two_loose_nodes = Ret tt s' /\
    heap_cell (sd_nodes two_loose_nodes) 1%nat
      = Some (mk_sd_node 1 [3] None None) /\
    exists q m,
      heap_cell (sd_nodes s') q = Some m /\
      hashes_cmp (node_hash (mk_sd_node 1 [3] None None)) (node_hash m) = 0 /\
      lookup_sd 3 (node_hash (mk_sd_node 1 [3] None None)) (Some 0%nat) s'
        = Ret (node_security_id m) s' /\
      (ENABLE_ASSERTIONS = true ->
       q = 1%nat /\
       node_security_id m = node_security_id (mk_sd_node 1 [3] None None)).
Proof.
  eexists.
  match goal with
  | |- ?A /\ _ =>
      assert (HA : A) by (vm_compute; reflexivity); split; [exact HA|]
  end.
  split; [reflexivity|].
  exact (insert_sd_node_then_lookup_sd 2 1%nat 0%nat two_loose_nodes _ _
           HA eq_refl).
Defined.

(** ** Freeing an index tree *)

Lemma heap_cell_insert_None {A} (h : list (option A)) p q :
  heap_cell (<[p := None]> h) q =
    if decide (q = p) then None else heap_cell h q.
Proof.
  unfold heap_cell. case_decide as Hq.
  - subst q. destruct (decide (p < length h)%nat).
    + by rewrite list_lookup_insert_eq.
    + rewrite list_insert_ge by lia. by rewrite lookup_ge_None_2 by lia.
  - by rewrite list_lookup_insert_ne.
Qed.

Lemma sd_tree_frame h h' root dom :
  sd_tree h root dom ->
  (forall p, elem_of p dom -> heap_cell h' p = heap_cell h p) ->
  sd_tree h' root dom.
Proof.
  induction 1 as [|p n ls rs Hp Hl IHl Hr IHr Hpl Hpr Hd]; intros Hsame.
  - constructor.
  - econstructor; try done.
    + rewrite Hsame; [done|]. apply elem_of_cons. by left.
    + apply IHl. intros x Hx. apply Hsame.
      apply elem_of_cons. right. apply elem_of_app. by left.
    + apply IHr. intros x Hx. apply Hsame.
      apply elem_of_cons. right. apply elem_of_app. by right.
Qed.

Section FreeSdSet.
Context `{wimlib_h}.

Lemma load_node_live p s n :
  heap_cell (sd_nodes s) p = Some n -> load_node p s = Ret n s.
Proof.
  intros Hp. cbv [load_node heap_load bind get ret]. by rewrite Hp.
Qed.

Lemma free_sd_set_tree fuel :
  forall root dom s,
    sd_tree (sd_nodes s) root dom ->
    (length dom < fuel)%nat ->
    exists s',
      free_sd_set fuel root s = Ret tt s' /\
      (forall p, elem_of p dom -> heap_cell (sd_nodes s') p = None) /\
      (forall p, ~ elem_of p dom ->
                 heap_cell (sd_nodes s') p = heap_cell (sd_nodes s) p) /\
      s' = with_sd_nodes (sd_nodes s') s.
Proof.
  induction fuel as [|fuel IH]; intros root dom s Ht Hfuel; [lia|].
  inversion Ht as [|p n ls rs Hp Hl Hr Hpl Hpr Hd]; subst; cbn [free_sd_set].
  - exists s. split; [done|]. split; [|split; [done|by destruct s]].
    intros p Hp. by apply elem_of_nil in Hp.
  - simpl in Hfuel. rewrite length_app in Hfuel.
    destruct (IH _ _ s Hl) as (s1 & E1 & Hin1 & Hout1 & Hs1); [lia|].
    assert (Hp1 : heap_cell (sd_nodes s1) p = Some n)
      by (by rewrite Hout1).
    assert (Hr1 : sd_tree (sd_nodes s1) (node_right n) rs).
    { eapply sd_tree_frame; [exact Hr|]. intros x Hx. apply Hout1.
      intros Hxl. by apply (Hd x). }
    destruct (IH _ _ s1 Hr1) as (s2 & E2 & Hin2 & Hout2 & Hs2); [lia|].
    assert (Hp2 : heap_cell (sd_nodes s2) p = Some n)
      by (by rewrite Hout2).
    exists (with_sd_nodes (<[p := None]> (sd_nodes s2)) s2).
    split; [|split; [|split]].
    + unfold bind at 1. rewrite (load_node_live _ _ _ Hp).
      unfold bind at 1. rewrite E1.
      unfold bind at 1. rewrite (load_node_live _ _ _ Hp1).
      unfold bind at 1. rewrite E2.
      cbv [heap_free bind get modify]. by rewrite Hp2.
    + intros x Hx. simpl. rewrite heap_cell_insert_None.
      case_decide; [done|].
      apply elem_of_cons in Hx as [?|Hx]; [done|].
      apply elem_of_app in Hx as [Hx|Hx]; [|by apply Hin2].
      rewrite Hout2; [by apply Hin1|]. by apply Hd.
    + intros x Hx. simpl. rewrite heap_cell_insert_None.
      assert (x <> p /\ ~ elem_of x ls /\ ~ elem_of x rs) as (Hxp & Hxl & Hxr).
      { repeat split; intros Hc; apply Hx; apply elem_of_cons;
          [by left|right; apply elem_of_app..]; [by left|by right]. }
      case_decide; [done|]. rewrite Hout2, Hout1; done.
    + rewrite Hs2, Hs1. reflexivity.
Qed.

(** X12: [free_sd_set] frees a tree, all of it and nothing else.  When
    the nodes reachable from [root] form a tree (no node is shared or
    reached twice), the function returns, within a number of nested
    calls bounded by the number of nodes, having released every node of
    the tree; every other cell of the node heap, and all the rest of
    the session memory, is what it was. *)
Theorem free_sd_set_frees_tree fuel root dom s :
  sd_tree (sd_nodes s) root dom ->
  (length dom < fuel)%nat ->
  exists s',
    free_sd_set fuel root s = Ret tt s' /\
    (forall p, elem_of p dom -> heap_cell (sd_nodes s') p = None) /\
    (forall p, ~ elem_of p dom ->
               heap_cell (sd_nodes s') p = heap_cell (sd_nodes s) p) /\
    s' = with_sd_nodes (sd_nodes s') s.
Proof. apply free_sd_set_tree. Qed.
End FreeSdSet.

Lemma free_sd_set_frees_tree_witness :
  sd_tree (sd_nodes three_node_tree) (Some 0%nat) [0; 1; 2]%nat /\
  (length [0; 1; 2]%nat < 4)%nat /\
  exists s',
    free_sd_set 4 (Some 0%nat) three_node_tree = Ret tt s' /\
    (forall p, elem_of p [0; 1; 2]%nat -> heap_cell (sd_nodes s') p = None) /\
    (forall p, ~ elem_of p [0; 1; 2]%nat ->
               heap_cell (sd_nodes s') p
                 = heap_cell (sd_nodes three_node_tree) p) /\
    s' = with_sd_nodes (sd_nodes s') three_node_tree.
Proof.
  assert (Ht : sd_tree (sd_nodes three_node_tree) (Some 0%nat)
                       [0; 1; 2]%nat).
  { apply (sd_tree_node _ 0%nat
             (mk_sd_node 0 [5] (Some 1%nat) (Some 2%nat)) [1%nat] [2%nat]).
    - reflexivity.
    - apply (sd_tree_node _ 1%nat (mk_sd_node 1 [3] None None) [] []);
        first [reflexivity | constructor | by intros ?%elem_of_nil
              | by intros ? ?%elem_of_nil].
    - apply (sd_tree_node _ 2%nat (mk_sd_node 2 [7] None None) [] []);
        first [reflexivity | constructor | by intros ?%elem_of_nil
              | by intros ? ?%elem_of_nil].
    - by intros ?%list_elem_of_singleton.
    - by intros ?%list_elem_of_singleton.
    - intros x ->%list_elem_of_singleton. by intros ?%list_elem_of_singleton. }
  assert (Hf : (length [0; 1; 2]%nat < 4)%nat) by (simpl; lia).
  split; [exact Ht|]. split; [exact Hf|].
  exact (free_sd_set_frees_tree 4 (Some 0%nat) [0; 1; 2]%nat three_node_tree
           Ht Hf).
Defined.

(** ** Security identifiers over a capture *)

Lemma table_grows_refl s : table_grows s s.
Proof. split; [lia|done]. Qed.

Lemma table_grows_trans s1 s2 s3 :
  table_grows s1 s2 -> table_grows s2 s3 -> table_grows s1 s3.
Proof. intros [? H12] [? H23]. split; [lia|]. intros; by apply H23, H12. Qed.

Lemma same_sd_grows s s' : same_sd s s' -> table_grows s s'.
Proof.
  intros (Hn & Hb & Hsd & Hr). unfold table_grows, names_digest_of.
  rewrite Hsd, Hb. split; [lia|done].
Qed.

Lemma same_sd_sound s s' : same_sd s s' -> index_sound s -> index_sound s'.
Proof.
  intros (Hn & Hb & Hsd & Hr). unfold index_sound.
  by rewrite Hsd, Hb, Hn.
Qed.

Lemma secured_grows :
  (forall ni s s' d, table_grows s s' -> secured s ni d -> secured s' ni d) /\
  (forall index s s' cs,
     table_grows s s' -> index_secured s index cs ->
     index_secured s' index cs).
Proof.
  apply ntfs_volume_ind.
  - intros info index IH s s' d Hg [Hid Hch]. cbn [secured]. split.
    + by apply Hg.
    + destruct (classify info); [done| |done]. by eapply IH.
  - done.
  - done.
  - intros name ni IHni rest IHrest s s' cs Hg (c & cs' & -> & Hc & Hcs).
    exists c, cs'. split; [done|]. split; [by eapply IHni|by eapply IHrest].
  - done.
Qed.

Section SecuredFacts.
Context `{wimlib_h}.
Variable stale_ntfs_loc : option ptr.
Variable ntfs_vol_p : Z.

Abbreviation build := (__build_dentry_tree_ntfs stale_ntfs_loc ntfs_vol_p).
Abbreviation readdir := (ntfs_readdir stale_ntfs_loc ntfs_vol_p).

(** What a call of [sd_set_add_sd] makes of the table. *)
Lemma sd_set_add_sd_grows descriptor s id s' :
  0 <= num_entries (set_sd s) < 4294967295 ->
  sd_set_add_sd descriptor s = Ret id s' ->
  table_grows s s' /\
  num_entries (set_sd s') <= num_entries (set_sd s) + 1.
Proof.
  intros H0 E.
  apply sd_set_add_sd_Ret in E as [(Hid & -> & Hl)|[[-> Hu]|[-> Ha]]].
  - split; [apply table_grows_refl|lia].
  - destruct Hu as (_ & Hb & Hsd & _).
    assert (Hnum : num_entries (set_sd s') = num_entries (set_sd s))
      by (by destruct Hsd as [->| ->]).
    split; [|lia]. split; [lia|].
    intros id d (Hr & b & bytes & Hd & Hbl & Hh).
    split; [lia|]. exists b, bytes. repeat split; [| |done].
    + destruct Hsd as [->| ->]; [done|]. simpl.
      rewrite lookup_resize; [done|lia|by eapply lookup_lt_Some].
    + destruct Hb as [->| ->]; [done|]. by rewrite heap_cell_snoc_None.
  - destruct Ha as (_ & Hb & Hsd & _).
    assert (Hnum : num_entries (set_sd s') = num_entries (set_sd s) + 1)
      by (rewrite Hsd; simpl; apply u32_small; lia).
    split; [|lia]. split; [lia|].
    intros id d (Hr & b & bytes & Hd & Hbl & Hh).
    split; [lia|]. exists b, bytes. repeat split; [| |done].
    + rewrite Hsd. simpl. rewrite list_lookup_insert_ne by lia.
      rewrite lookup_resize; [done|lia|by eapply lookup_lt_Some].
    + rewrite Hb. rewrite heap_cell_app; [done|by eexists].
Qed.

(** The security step of a successful capture, with the call that gave
    the identifier. *)
Lemma resolve_security_Ret info d1 r1 s1 d' s' :
  resolve_security info (d1, r1) s1 = Ret (d', 0) s' ->
  r1 = 0 /\
  exists id, sd_set_add_sd (security_descriptor info) s1 = Ret id s' /\
             id <> -1 /\ d' = with_security_id id d1.
Proof.
  unfold resolve_security.
  destruct (Z.eqb_spec r1 0) as [->|Hr]; cbn [negb];
    [|intros E; inversion E; congruence].
  intros E. apply bind_Ret in E as (id & s2 & E2 & E).
  destruct (Z.eqb_spec id (-1)); inversion E; subst.
  - by destruct nomem_nonzero.
  - eauto.
Qed.

(** A successful call of the directory callback, with what it leaves of
    the index. *)
Lemma filldir_Ret ctx name capture_child s ctx1 s1 :
  filldir ctx name (Some capture_child) s = Ret (ctx1, 0) s1 ->
  exists u sa child,
    same_sd s sa /\
    capture_child (mk_dentry u 0 0 0 (-1) 0 0 false None [] [])
                  (ctx_path_len ctx + Z.of_nat (length u)) sa
      = Ret (child, 0) s1 /\
    ctx1 = mk_readdir_ctx (link_dentry child (ctx_dentry ctx))
                          (ctx_path_len ctx).
Proof.
  unfold filldir. destruct (utf16_to_utf8 _ _) as [u|]; [|discriminate].
  intros E. apply bind_Ret in E as (child0 & s0 & E0 & E).
  assert (S0 : same_sd s s0).
  { unfold new_dentry, bind, alloc_ok in E0.
    destruct (oracle s) as [|[] o]; inversion E0; by subst. }
  destruct child0 as [child0|]; [|discriminate].
  assert (child0 = mk_dentry u 0 0 0 (-1) 0 0 false None [] []) as ->.
  { unfold new_dentry, bind, alloc_ok in E0.
    destruct (oracle s) as [|[] o]; inversion E0; by subst. }
  apply bind_Ret in E as (u1 & sa & Ea & E).
  assert (Sa : same_sd s0 sa).
  { unfold write_path, bind, get, modify in Ea.
    destruct (_ && _); inversion Ea. done. }
  apply bind_Ret in E as ([child r] & sb & Eb & E).
  inversion E; subst.
  exists u, sa, child. split; [|done].
  destruct S0 as (?&?&?&?), Sa as (?&?&?&?). repeat split; congruence.
Qed.

Lemma outside_store_same_sd s s' : outside_store s s' -> same_sd s s'.
Proof. intros (?&?&?&?&?). by repeat split. Qed.

Lemma objects_pos :
  (forall ni, 0 < objects ni) /\ (forall index, 0 <= index_objects index).
Proof.
  apply ntfs_volume_ind; simpl; intros; lia.
Qed.

Lemma capture_secured :
  (forall ni d path_len s d' s',
     index_sound s ->
     num_entries (set_sd s) + objects ni < 2147483648 ->
     build d ni path_len s = Ret (d', 0) s' ->
     children d = [] ->
     index_sound s' /\ secured s' ni d' /\ table_grows s s' /\
     num_entries (set_sd s') <= num_entries (set_sd s) + objects ni) /\
  (forall index ctx s ctx' s',
     index_sound s ->
     num_entries (set_sd s) + index_objects index < 2147483648 ->
     readdir index ctx s = Ret (ctx', 0) s' ->
     index_sound s' /\ table_grows s s' /\
     num_entries (set_sd s') <= num_entries (set_sd s) + index_objects index /\
     exists cs,
       children (ctx_dentry ctx') = children (ctx_dentry ctx) ++ cs /\
       index_secured s' index cs).
Proof.
  apply ntfs_volume_ind.
  - (* an inode *)
    intros info index IH d path_len s d' s' Hs Hmax E Hd.
    pose proof (proj2 objects_pos index) as Hpos.
    cbn [objects] in Hmax |- *.
    rewrite build_by_class in E.
    (* the security step, after a content step that left the index sound *)
    assert (Hsec : forall d1 s1 n1,
      index_sound s1 -> table_grows s s1 ->
      num_entries (set_sd s1) <= num_entries (set_sd s) + n1 ->
      0 <= n1 <= index_objects index ->
      resolve_security info (d1, 0) s1 = Ret (d', 0) s' ->
      index_sound s' /\
      names_digest_of s' (security_id d') (security_descriptor info) /\
      table_grows s1 s' /\ table_grows s s' /\
      num_entries (set_sd s') <= num_entries (set_sd s) + (1 + n1) /\
      children d' = children d1).
    { intros d1 s1 n1 Hs1 Hg1 Hn1 Hb1 E1.
      apply resolve_security_Ret in E1 as (_ & id & E1 & Hid & ->).
      assert (Hb32 : 0 <= num_entries (set_sd s1) < 4294967295)
        by (pose proof (proj1 Hs1); lia).
      destruct (sd_set_add_sd_grows _ _ _ _ Hb32 E1) as [Hg Hn].
      apply sd_set_add_sd_keeps_sound in E1 as [Hs' [?|Hname]];
        [done| |done|lia].
      split; [done|]. split; [done|]. split; [done|].
      split; [by eapply table_grows_trans|]. split; [lia|done]. }
    destruct (classify info) eqn:Ec;
      apply bind_Ret in E as ([d1 r1] & s1 & E1 & E);
      pose proof (resolve_security_Ret _ _ _ _ _ _ E) as [-> _].
    + pose proof (keeps_capture_ntfs_streams _ _ _ _ _ _ _ _ _ E1) as S1.
      apply outside_store_same_sd in S1.
      destruct (Hsec d1 s1 0) as (Hs' & Hname & _ & Hg & Hn & _);
        [by eapply same_sd_sound|by apply same_sd_grows
        |destruct S1 as (_&_&->&_); lia|lia|done|].
      split; [done|]. split; [|split; [done|lia]].
      cbn [secured]. by rewrite Ec.
    + unfold enumerate_children in E1.
      apply bind_Ret in E1 as ([ctx1 r] & sx & Ex & E1).
      inversion E1; subst. clear E1.
      destruct (Z.eqb_spec r 0) as [->|Hr0]; cbn [negb snd] in *;
        [|by destruct ntfs_3g_nonzero].
      apply IH in Ex as (Hsx & Hgx & Hnx & cs & Hcs & Hsec_cs);
        [|done|lia].
      simpl in Hcs. rewrite Hd in Hcs. simpl in Hcs.
      destruct (Hsec (ctx_dentry ctx1) s1 (index_objects index))
        as (Hs' & Hname & Hg1 & Hg & Hn & Hch); [done..|lia|done|].
      split; [done|]. split; [|split; [done|lia]].
      cbn [secured]. rewrite Ec. split; [done|].
      rewrite Hch, Hcs. exact (proj2 secured_grows _ _ _ _ Hg1 Hsec_cs).
    + pose proof (keeps_capture_ntfs_streams _ _ _ _ _ _ _ _ _ E1) as S1.
      apply outside_store_same_sd in S1.
      destruct (Hsec d1 s1 0) as (Hs' & Hname & _ & Hg & Hn & _);
        [by eapply same_sd_sound|by apply same_sd_grows
        |destruct S1 as (_&_&->&_); lia|lia|done|].
      split; [done|]. split; [|split; [done|lia]].
      cbn [secured]. by rewrite Ec.
  - (* the end of an index *)
    intros ctx s ctx' s' Hs Hmax E. inversion E; subst.
    split; [done|]. split; [apply table_grows_refl|]. split; [simpl; lia|].
    exists []. by rewrite app_nil_r.
  - (* an index that breaks off *)
    intros ctx s ctx' s' Hs Hmax E. inversion E.
  - (* an entry *)
    intros name ni IHni rest IHrest ctx s ctx' s' Hs Hmax E.
    pose proof (proj1 objects_pos ni) as Hpos.
    pose proof (proj2 objects_pos rest) as Hpos'.
    cbn [index_objects] in Hmax |- *.
    cbn [ntfs_readdir] in E.
    apply bind_Ret in E as ([ctx1 r] & s1 & E1 & E).
    destruct (Z.eqb_spec r 0) as [->|Hr]; cbn [negb] in E;
      [|inversion E].
    apply filldir_Ret in E1 as (u & sa & child & Sa & Ec & ->).
    assert (Hna : num_entries (set_sd sa) = num_entries (set_sd s))
      by (by destruct Sa as (_&_&->&_)).
    apply IHni in Ec as (Hs1 & Hchild & Hg1 & Hn1);
      [|by eapply same_sd_sound|lia|done].
    apply IHrest in E as (Hs' & Hg' & Hn' & cs & Hcs & Hrest);
      [|done|lia].
    split; [done|]. split; [|split; [lia|]].
    + eapply table_grows_trans; [by apply same_sd_grows|].
      by eapply table_grows_trans.
    + exists (child :: cs). split.
      * rewrite Hcs. simpl. by rewrite <- app_assoc.
      * cbn [index_secured]. exists child, cs. split; [done|].
        split; [|done]. exact (proj1 secured_grows _ _ _ _ Hg' Hchild).
  - (* an entry whose inode does not open *)
    intros name rest IHrest ctx s ctx' s' Hs Hmax E.
    cbn [ntfs_readdir] in E.
    apply bind_Ret in E as ([ctx1 r] & s1 & E1 & E).
    destruct (Z.eqb_spec r 0) as [->|Hr]; cbn [negb] in E;
      [|inversion E].
    by apply filldir_broken in E1.
Qed.

(** X13: the security identifiers of a captured tree.  Start from a
    sound index of security descriptors with room for one identifier
    for each object of the volume.  After a capture that returns 0, the
    index is sound again; every node of the tree, the root and all the
    nodes below it, carries a security identifier that names an entry
    of the descriptor table holding a descriptor with the SHA-1 of the
    security descriptor of its own object; the table has kept every
    entry it had; and it has grown by at most one entry for each
    object. *)
Theorem captured_tree_is_secured ni d path_len s d' s' :
  index_sound s ->
  num_entries (set_sd s) + objects ni < 2147483648 ->
  __build_dentry_tree_ntfs stale_ntfs_loc ntfs_vol_p d ni path_len s
    = Ret (d', 0) s' ->
  children d = [] ->
  index_sound s' /\ secured s' ni d' /\ table_grows s s' /\
  num_entries (set_sd s') <= num_entries (set_sd s) + objects ni.
Proof. apply (proj1 capture_secured). Qed.
End SecuredFacts.

Lemma captured_tree_is_secured_witness :
  index_sound (fresh_session []) /\
  num_entries (set_sd (fresh_session [])) + objects two_files_volume
    < 2147483648 /\
  exists d' s',
    __build_dentry_tree_ntfs None 7 root_dentry two_files_volume 1
      (fresh_session []) = Ret (d', 0) s' /\
    children root_dentry = [] /\
    (index_sound s' /\ secured s' two_files_volume d' /\
     table_grows (fresh_session []) s' /\
     num_entries (set_sd s')
       <= num_entries (set_sd (fresh_session [])) + objects two_files_volume).
Proof.
  assert (Hs : index_sound (fresh_session [])).
  { split; [done|]. intros q m Hq. by destruct q. }
  assert (Hn : num_entries (set_sd (fresh_session []))
               + objects two_files_volume < 2147483648)
    by (vm_compute; reflexivity).
  split; [exact Hs|]. split; [exact Hn|]. do 2 eexists.
  match goal with
  | |- ?A /\ _ =>
      assert (HA : A) by (vm_compute; reflexivity); split; [exact HA|]
  end.
  split; [reflexivity|].
  exact (captured_tree_is_secured None 7 two_files_volume root_dentry 1
           (fresh_session []) _ _ Hs Hn HA eq_refl).
Defined.

(** ** Nodes only grow *)

Section GrowsFacts.
Context `{wimlib_h}.
Variable stale_ntfs_loc : option ptr.
Variable ntfs_vol_p : Z.

Lemma grows_from_refl d : grows_from d d.
Proof.
  split; [exists []; by rewrite app_nil_r|].
  split; [exists []; by rewrite app_nil_r|done].
Qed.

Lemma grows_from_trans d1 d2 d3 :
  grows_from d1 d2 -> grows_from d2 d3 -> grows_from d1 d3.
Proof.
  intros ([cs Hc] & [es He] & Hl) ([cs' Hc'] & [es' He'] & Hl').
  split; [exists (cs ++ cs'); by rewrite Hc', Hc, app_assoc|].
  split; [exists (es ++ es'); by rewrite He', He, app_assoc|].
  intros Ha Hs. rewrite Hl', Hl; [done..|]. by rewrite Hl.
Qed.

(** The attach block hands the rest of the loop a node that is the old
    one with the content reference set, where the old one had none when
    assertions are compiled in, or with one more named-stream entry. *)
Lemma returns_attach_stream_grows (Q : dentry * Z -> Prop) ar d r entry next :
  Q (d, r) ->
  (forall d1, grows_from d d1 -> returns Q (next d1)) ->
  returns Q (attach_stream stale_ntfs_loc ar d r entry next).
Proof.
  intros HQ Hnext.
  pose proof (returns_out_free_ntfs_loc stale_ntfs_loc Q d r HQ).
  unfold attach_stream, out_free_lte.
  destruct (name_length ar =? 0).
  - eapply returns_bind_with
      with (P := fun _ : unit => ENABLE_ASSERTIONS = true -> lte d = None).
    + unfold wimlib_assert. destruct ENABLE_ASSERTIONS; [|by apply returns_ret].
      destruct (bool_decide_reflect (lte d = None));
        [by apply returns_ret|apply returns_raise].
    + intros _ Hnone. apply Hnext.
      split; [exists []; by rewrite app_nil_r|].
      split; [exists []; by rewrite app_nil_r|].
      intros Ha [x Hx]. rewrite (Hnone Ha) in Hx. discriminate.
  - destruct (utf16_to_utf8 _ _) as [u|]; [|returns_steps; done].
    unfold dentry_add_ads.
    apply returns_bind_with
      with (P := fun added : option dentry =>
                   forall d1, added = Some d1 ->
                     grows_from d (set_new_ads_lte entry d1)).
    + returns_steps; apply returns_ret; [|done].
      intros d1 [= <-]. unfold set_new_ads_lte. simpl.
      rewrite reverse_app. simpl. rewrite reverse_involutive.
      split; [exists []; by rewrite app_nil_r|]. split; [by eexists|done].
    + intros [d1|] Hd1; [|returns_steps; done].
      apply Hnext. by apply Hd1.
Qed.

Lemma returns_capture_loop_grows ars path_len d :
  returns (fun dr => grows_from d (fst dr))
          (capture_loop stale_ntfs_loc ntfs_vol_p ars path_len d).
Proof.
  revert d. induction ars as [|ar rest IH]; intros d; cbn [capture_loop].
  - apply returns_ret. apply grows_from_refl.
  - apply returns_bind. intros [r hash].
    destruct (negb _); [apply returns_ret, grows_from_refl|].
    apply returns_stream_entry; [apply grows_from_refl|]. intros p.
    apply returns_attach_stream_grows; [apply grows_from_refl|].
    intros d1 Hd1. eapply returns_weaken; [|apply IH].
    intros [d' r'] Hd'. by eapply grows_from_trans.
Qed.

Lemma returns_filldir_grows ctx name ni :
  returns (fun cr => grows_from (ctx_dentry ctx) (ctx_dentry (fst cr)))
          (filldir ctx name ni).
Proof.
  unfold filldir, new_dentry.
  returns_steps; apply returns_ret; try apply grows_from_refl.
  simpl. split; [by eexists|].
  split; [exists []; by rewrite app_nil_r|done].
Qed.

Lemma returns_ntfs_readdir_grows index ctx :
  returns (fun cr => grows_from (ctx_dentry ctx) (ctx_dentry (fst cr)))
          (ntfs_readdir stale_ntfs_loc ntfs_vol_p index ctx).
Proof.
  revert ctx.
  assert (Hstep : forall name ni rest,
    (forall ctx, returns
       (fun cr => grows_from (ctx_dentry ctx) (ctx_dentry (fst cr)))
       (ntfs_readdir stale_ntfs_loc ntfs_vol_p rest ctx)) ->
    forall ctx, returns
      (fun cr => grows_from (ctx_dentry ctx) (ctx_dentry (fst cr)))
      (called <- filldir ctx name ni ;;
       let '(ctx, r) := called in
       if negb (r =? 0) then ret (ctx, -1)
       else ntfs_readdir stale_ntfs_loc ntfs_vol_p rest ctx)).
  { intros name ni rest IH ctx.
    eapply returns_bind_with; [apply returns_filldir_grows|].
    intros [ctx1 r] Hg. simpl in Hg.
    destruct (negb _); [by apply returns_ret|].
    eapply returns_weaken; [|apply IH].
    intros [ctx2 r2] Hg2. by eapply grows_from_trans. }
  induction index as [| |name ni rest IH|name rest IH]; intros ctx;
    cbn [ntfs_readdir].
  - apply returns_ret, grows_from_refl.
  - apply returns_ret, grows_from_refl.
  - by apply Hstep.
  - by apply Hstep.
Qed.

Lemma returns_build_grows d info index path_len :
  returns (fun dr => grows_from d (fst dr))
          (__build_dentry_tree_ntfs stale_ntfs_loc ntfs_vol_p d
                                    (Inode info index) path_len).
Proof.
  set (Q := fun dr : dentry * Z => grows_from d (fst dr)).
  assert (Hmeta : grows_from d (read_metadata info d)).
  { split; [exists []; simpl; by rewrite app_nil_r|].
    split; [exists []; simpl; by rewrite app_nil_r|done]. }
  assert (Hsec : forall content, Q content ->
                   returns Q (resolve_security info content)).
  { intros [d1 r1] Hg. unfold resolve_security.
    destruct (negb _); [by apply returns_ret|].
    apply returns_bind. intros id.
    destruct (id =? -1); by apply returns_ret. }
  assert (Hcap : forall type,
    returns Q (capture_ntfs_streams stale_ntfs_loc ntfs_vol_p
                 (read_metadata info d) info path_len type)).
  { intros type. unfold capture_ntfs_streams.
    destruct (negb _); [by apply returns_ret|].
    eapply returns_weaken; [|apply returns_capture_loop_grows].
    intros [d1 r1] Hg. exact (grows_from_trans _ _ _ Hmeta Hg). }
  intros s a s' E. rewrite build_by_class in E.
  destruct (classify info).
  - exact (returns_bind_with Q Q _ _ (Hcap _) Hsec _ _ _ E).
  - refine (returns_bind_with Q Q _ _ _ Hsec _ _ _ E).
    unfold enumerate_children.
    eapply returns_bind_with; [apply returns_ntfs_readdir_grows|].
    intros [ctx1 r] Hg. by apply returns_ret.
  - exact (returns_bind_with Q Q _ _ (Hcap _) Hsec _ _ _ E).
Qed.

(** X14: nodes only grow.  Whatever [__build_dentry_tree_ntfs] returns
    for an object, with 0 or with an error code, the node handed back
    still has, in their order, the children and the named-stream
    entries the node came with, followed by those the capture added;
    and, when assertions are compiled in, the content reference the
    node came with, if it had one, has not been replaced. *)
Theorem build_dentry_tree_grows d info index path_len s d' r s' :
  __build_dentry_tree_ntfs stale_ntfs_loc ntfs_vol_p d (Inode info index)
                           path_len s = Ret (d', r) s' ->
  grows_from d d'.
Proof. intros E. by apply returns_build_grows in E. Qed.
End GrowsFacts.

Lemma build_dentry_tree_grows_witness :
  exists d' r s',
    __build_dentry_tree_ntfs None 7
      (mk_dentry [] 0 0 0 (-1) 0 0 false None
                 [mk_ads_entry (Held [120]) None] [root_dentry])
      (sample_dir 5 (IndexEntry [97] sample_child IndexFail) [2]) 1
      (fresh_session []) = Ret (d', r) s' /\
    grows_from (mk_dentry [] 0 0 0 (-1) 0 0 false None
                          [mk_ads_entry (Held [120]) None] [root_dentry]) d'.
Proof.
  do 3 eexists.
  match goal with
  | |- ?A /\ _ =>
      assert (HA : A) by (vm_compute; reflexivity); split; [exact HA|]
  end.
  exact (build_dentry_tree_grows None 7 _ _ _ _ _ _ _ _ HA).
Defined.

(** ** What a new content reference carries *)

Section NewReference.
Context `{wimlib_h}.
Variable stale_ntfs_loc : option ptr.
Variable ntfs_vol_p : Z.

(** X15: the entry made for a stream that the lookup table does not
    know.  When the table has no entry for the digest, the four
    allocation requests of the block succeed and the path of the object
    with its terminator lies within the path buffer, the entry block of
    [capture_ntfs_streams] goes on to attach a new entry, the last of
    the table, that carries the digest, a reference count of one, the
    declared size of the stream as original and as stored size, and a
    new location descriptor with the back-pointer to the volume, a copy
    of the first [path_len + 1] bytes of the path buffer and the name
    of the stream with its length; the entries, locations and table
    slots that existed are untouched, and so is the rest of the
    memory. *)
Theorem stream_entry_new_reference ar hash path_len d r next s :
  find_resource (ltes s) (lookup_table s) hash = Some None ->
  fails_within 4 (oracle s) = false ->
  0 <= path_len + 1 <= Z.of_nat (length (path s)) ->
  exists s1,
    stream_entry stale_ntfs_loc ntfs_vol_p ar hash path_len d r next s
      = next (length (ltes s)) s1 /\
    ltes s1 =
      ltes s ++ [Some (mk_lte hash 1 (Some (length (locs s)))
                              RESOURCE_IN_NTFS_VOLUME
                              (ar_data_size ar) (ar_data_size ar))] /\
    locs s1 =
      locs s ++ [Some (mk_ntfs_location
                         (Some ntfs_vol_p)
                         (Some (take (Z.to_nat (path_len + 1)) (path s)))
                         (Some (ar_name ar)) (name_length ar))] /\
    lookup_table s1 = lookup_table s ++ [length (ltes s)] /\
    oracle s1 = drop 4 (oracle s) /\
    same_sd s s1 /\ path s1 = path s.
Proof.
  intros Hfind Ho Hpath.
  unfold stream_entry, __lookup_resource. cbv [bind get]. rewrite Hfind.
  assert (Hread : (0 <=? path_len + 1)
                  && (path_len + 1 <=? Z.of_nat (length (path s))) = true)
    by (apply andb_true_iff; split; apply Z.leb_le; lia).
  destruct s as [o nodes blobs sd root lt lc tbl pth]; simpl in *.
  destruct o as [|[] [|[] [|[] [|[] o]]]]; try discriminate.
  all: cbv [new_lookup_table_entry load_lte store_lte lookup_table_insert
            read_path negb]; mrun.
  all: repeat (rewrite ?heap_cell_snoc_Some, ?insert_snoc, ?Hread; mrun).
  all: eexists; split; [reflexivity|]; simpl.
  all: repeat split; reflexivity.
Qed.
End NewReference.

Lemma stream_entry_new_reference_witness :
  find_resource (ltes (fresh_session [])) (lookup_table (fresh_session []))
                (sha1_buffer hello) = Some None /\
  fails_within 4 (oracle (fresh_session [])) = false /\
  0 <= 1 + 1 <= Z.of_nat (length (path (fresh_session []))) /\
  exists s1,
    stream_entry None 7 (data_stream [115] hello) (sha1_buffer hello) 1
                 root_dentry 21 (fun p => ret (root_dentry, 0))
                 (fresh_session [])
      = (fun p => ret (root_dentry, 0)) (length (ltes (fresh_session []))) s1
    /\
    ltes s1 =
      ltes (fresh_session [])
        ++ [Some (mk_lte (sha1_buffer hello) 1
                         (Some (length (locs (fresh_session []))))
                         RESOURCE_IN_NTFS_VOLUME
                         (ar_data_size (data_stream [115] hello))
                         (ar_data_size (data_stream [115] hello)))] /\
    locs s1 =
      locs (fresh_session [])
        ++ [Some (mk_ntfs_location
                    (Some 7)
                    (Some (take (Z.to_nat (1 + 1))
                                (path (fresh_session []))))
                    (Some (ar_name (data_stream [115] hello)))
                    (name_length (data_stream [115] hello)))] /\
    lookup_table s1 =
      lookup_table (fresh_session []) ++ [length (ltes (fresh_session []))] /\
    oracle s1 = drop 4 (oracle (fresh_session [])) /\
    same_sd (fresh_session []) s1 /\ path s1 = path (fresh_session []).
Proof.
  assert (H1 : find_resource (ltes (fresh_session []))
                 (lookup_table (fresh_session [])) (sha1_buffer hello)
               = Some None) by reflexivity.
  assert (H2 : fails_within 4 (oracle (fresh_session [])) = false)
    by reflexivity.
  assert (H3 : 0 <= 1 + 1 <= Z.of_nat (length (path (fresh_session [])))).
  { change (path (fresh_session [])) with (replicate 4096 0).
    rewrite length_replicate. lia. }
  split; [exact H1|]. split; [exact H2|]. split; [exact H3|].
  exact (stream_entry_new_reference None 7 (data_stream [115] hello)
           (sha1_buffer hello) 1 root_dentry 21
           (fun p => ret (root_dentry, 0)) (fresh_session []) H1 H2 H3).
Defined.

(** ** The enumeration stops at the first failure *)

Section Enumeration.
Context `{wimlib_h}.
Variable stale_ntfs_loc : option ptr.
Variable ntfs_vol_p : Z.

Abbreviation build := (__build_dentry_tree_ntfs stale_ntfs_loc ntfs_vol_p).
Abbreviation readdir := (ntfs_readdir stale_ntfs_loc ntfs_vol_p).

(** The two ways in which the callback returns. *)
Lemma filldir_Ret_any ctx name ni s ctx1 r s1 :
  filldir ctx name ni s = Ret (ctx1, r) s1 ->
  (ctx1 = ctx /\ r <> 0) \/
  (exists u cap sa child,
     ni = Some cap /\
     utf16_to_utf8 name (Z.of_nat (length name) * 2) = Some u /\
     cap (mk_dentry u 0 0 0 (-1) 0 0 false None [] [])
         (ctx_path_len ctx + Z.of_nat (length u)) sa = Ret (child, r) s1 /\
     ctx1 = mk_readdir_ctx (link_dentry child (ctx_dentry ctx))
                           (ctx_path_len ctx)).
Proof.
  unfold filldir. destruct (utf16_to_utf8 _ _) as [u|];
    [|intros E; inversion E; by left].
  intros E. apply bind_Ret in E as (child0 & s0 & E0 & E).
  destruct child0 as [child0|];
    [|inversion E; left; split; [done|by destruct ni]].
  assert (child0 = mk_dentry u 0 0 0 (-1) 0 0 false None [] []) as ->.
  { unfold new_dentry, bind, alloc_ok in E0.
    destruct (oracle s) as [|[] o]; inversion E0; by subst. }
  apply bind_Ret in E as (u1 & sa & Ea & E).
  apply bind_Ret in E as ([child r'] & sb & Eb & E).
  inversion E; subst. destruct ni as [cap|]; [|discriminate].
  right. by exists u, cap, sa, child.
Qed.

Lemma named_by_nil names : named_by names [].
Proof. split; [simpl; lia|]. intros i c Hc. by destruct i. Qed.

Lemma named_by_cons name names c cs :
  utf16_to_utf8 name (Z.of_nat (length name) * 2) = Some (file_name c) ->
  named_by names cs ->
  named_by (name :: names) (c :: cs).
Proof.
  intros Hc [Hlen Hcs]. split; [simpl; lia|].
  intros [|i] c'; simpl.
  - intros [= <-]. by exists name.
  - apply Hcs.
Qed.

Lemma readdir_names index :
  forall ctx s ctx' r s',
    readdir index ctx s = Ret (ctx', r) s' ->
    exists cs,
      children (ctx_dentry ctx') = children (ctx_dentry ctx) ++ cs /\
      named_by (index_names index) cs /\
      (r = 0 -> length cs = length (index_names index) /\
                index_complete index).
Proof.
  assert (Hstep : forall name ni rest,
    (forall ctx s ctx' r s',
       readdir rest ctx s = Ret (ctx', r) s' ->
       exists cs,
         children (ctx_dentry ctx') = children (ctx_dentry ctx) ++ cs /\
         named_by (index_names rest) cs /\
         (r = 0 -> length cs = length (index_names rest) /\
                   index_complete rest)) ->
    (forall cap, ni = Some cap ->
       forall child pl, returns (fun dr => file_name (fst dr) = file_name child)
                                (cap child pl)) ->
    forall ctx s ctx' r s',
      (called <- filldir ctx name ni ;;
       let '(ctx, r) := called in
       if negb (r =? 0) then ret (ctx, -1) else readdir rest ctx) s
        = Ret (ctx', r) s' ->
      exists cs,
        children (ctx_dentry ctx') = children (ctx_dentry ctx) ++ cs /\
        named_by (name :: index_names rest) cs /\
        (r = 0 -> length cs = S (length (index_names rest)) /\
                  is_Some ni /\ index_complete rest)).
  { intros name ni rest IH Hcap ctx s ctx' r s' E.
    apply bind_Ret in E as ([ctx1 r1] & s1 & E1 & E).
    apply filldir_Ret_any in E1
      as [[-> Hr1]|(u & cap & sa & child & -> & Hu & Ec & ->)].
    - destruct (Z.eqb_spec r1 0); [done|]. cbn [negb] in E.
      inversion E; subst. exists []. rewrite app_nil_r.
      split; [done|]. split; [apply named_by_nil|done].
    - apply (Hcap cap eq_refl) in Ec. simpl in Ec.
      destruct (Z.eqb_spec r1 0) as [->|Hr1]; cbn [negb] in E.
      + apply IH in E as (cs & Hcs & Hn & Hall). simpl in Hcs.
        exists (child :: cs). split; [by rewrite Hcs, <- app_assoc|].
        split; [apply named_by_cons; [by rewrite Ec|done]|].
        intros Hr. destruct (Hall Hr) as [Hlen Hcomp]. simpl.
        rewrite Hlen. by repeat split.
      + inversion E; subst. exists [child]. split; [done|].
        split; [apply named_by_cons; [done|apply named_by_nil]|].
        done. }
  induction index as [| |name ni rest IH|name rest IH];
    intros ctx s ctx' r s' E; cbn [ntfs_readdir index_names] in *.
  - inversion E; subst. exists []. rewrite app_nil_r.
    split; [done|]. split; [apply named_by_nil|done].
  - inversion E; subst. exists []. rewrite app_nil_r.
    split; [done|]. split; [apply named_by_nil|done].
  - eapply Hstep in E as (cs & Hcs & Hn & Hall); [|exact IH|].
    + exists cs. split; [done|]. split; [done|].
      intros Hr. destruct (Hall Hr) as (Hlen & _ & Hc). by split.
    + intros cap [= <-] child pl. destruct ni as [info index'].
      eapply returns_weaken; [|apply returns_build].
      intros [d' r'] ((Hname & _) & _). exact Hname.
  - eapply Hstep in E as (cs & Hcs & Hn & Hall); [|exact IH|done].
    exists cs. split; [done|]. split; [done|].
    intros Hr. by destruct (Hall Hr) as (_ & [x Hx] & _).
Qed.

End Enumeration.


(** ** Shared content and a failing capture *)

(** C3, on the source: the files [a] and [b] and the stream [s] of the
    file [c] hold the same bytes; every allocation succeeds but the one
    for the named-stream entry of [c] (the twentieth request of the
    run).  The capture of [a] creates entry 0, the capture of [b] and
    the stream [s] reuse it, and when the named-stream entry cannot be
    allocated the error path releases entry 0: the capture returns
    with an error, the nodes of [a] and [b] are in the tree and both
    still refer to entry 0, the lookup table still lists it, and the
    entry is gone, so that no reference count can be read for the
    content that occurred three times. *)
Theorem shared_entry_is_released_under_its_nodes :
  exists d' s' a b c,
    __build_dentry_tree_ntfs None 7 root_dentry three_files_volume 1
      (fresh_session (replicate 19 true ++ [false]))
      = Ret (d', WIMLIB_ERR_NTFS_3G) s' /\
    children d' = [a; b; c] /\
    lte a = Some 0%nat /\ lte b = Some 0%nat /\
    lookup_table s' = [0; 1]%nat /\
    heap_cell (ltes s') 0%nat = None /\
    refcnt_of s' (sha1_buffer hello) = 0 /\
    occurrences (sha1_buffer hello) three_files_volume = 3.
Proof. do 5 eexists. vm_compute. repeat split; reflexivity. Qed.

(** The total length of the table is a 32-bit field: adding a
    descriptor of one byte to a table six bytes short of [2^32] leaves
    a total length of 3. *)
Example total_length_wraps :
  exists id s',
    sd_set_add_sd [1] nearly_full_table = Ret id s' /\
    total_length (set_sd s') = 3.
Proof. do 2 eexists. vm_compute. split; reflexivity. Qed.
